(** * A shallow embedding of the physics world of marlon (src/src/physics/world.cpp)

    Floating-point scalars ([float]) are modelled by exact rationals [Q].
    Library functions that the sources call but do not define ([std::sqrt],
    [math::pow]) are parameters of the model wherever they are used. *)

From Stdlib Require Import QArith Qminmax Qabs Lia Lqa.
From stdpp Require Import base list gmap sorting.

Open Scope Q_scope.

(** ** Fixed-capacity arenas ([Particle_storage], [Rigid_body_storage],
    [Static_body_storage], world.cpp lines 104-268).

    The three classes have the same [create] / [destroy] code, so one
    polymorphic record models them.  [st_data] holds the slot contents
    (the placement-new'ed bytes), [st_free_indices] is the
    [std::vector<std::uint32_t>] whose [back()] is its last element, and
    [st_occupancy_bits] is the [std::vector<bool>] of size capacity. *)
Module Arena.

Record storage (T : Type) := mk_storage {
  st_data : gmap N T;
  st_free_indices : list N;
  st_occupancy_bits : list bool;
}.
Arguments mk_storage {T}.
Arguments st_data {T}.
Arguments st_free_indices {T}.
Arguments st_occupancy_bits {T}.

(** The error of [create]: the source throws [std::runtime_error]
    ("Out of space for particles"). *)
Inductive create_error := Capacity_exceeded.

(** Constructor: [_free_indices[i] = size - i - 1], so the back of the
    vector is index 0; all occupancy bits false. *)
Definition init_free_indices (size : nat) : list N :=
  map (fun i => N.of_nat (size - i - 1)) (seq 0 size).

Definition make_storage {T} (size : nat) : storage T :=
  mk_storage ∅ (init_free_indices size) (replicate size false).

(** [create]: throws when [_free_indices] is empty, otherwise takes
    [_free_indices.back()], writes the slot, pops and sets the bit. *)
Definition create {T} (s : storage T) (data : T) : create_error + (N * storage T) :=
  match last (st_free_indices s) with
  | None => inl Capacity_exceeded
  | Some index =>
      inr (index,
           mk_storage (<[index := data]> (st_data s))
                      (removelast (st_free_indices s))
                      (<[N.to_nat index := true]> (st_occupancy_bits s)))
  end.

(** [destroy]: pushes the index back and clears the bit.  It performs no
    check that the handle is live. *)
Definition destroy {T} (s : storage T) (h : N) : storage T :=
  mk_storage (st_data s)
             (st_free_indices s ++ [h])
             (<[N.to_nat h := false]> (st_occupancy_bits s)).

Definition occupied {T} (s : storage T) (h : N) : bool :=
  match st_occupancy_bits s !! N.to_nat h with
  | Some b => b
  | None => false
  end.

(** The arena is full when every one of its slots is occupied. *)
Definition full {T} (s : storage T) : Prop :=
  Forall (fun b => b = true) (st_occupancy_bits s).

(** [for_each]: visits [i] in [0, n) while fewer than
    [m = n - _free_indices.size()] live entries have been seen. *)
Fixpoint for_each_from (bits : list bool) (i : nat) (k m : nat) : list N :=
  match bits with
  | [] => []
  | b :: bits' =>
      if Nat.eqb k m then []
      else if b then N.of_nat i :: for_each_from bits' (S i) (S k) m
      else for_each_from bits' (S i) k m
  end.

Definition for_each_indices {T} (s : storage T) : list N :=
  for_each_from (st_occupancy_bits s) 0 0
    (length (st_occupancy_bits s) - length (st_free_indices s)).

(** The states reached from a fresh arena of capacity [n] by [create] and
    by [destroy] of occupied (live) handles. *)
Inductive reachable {T} (n : nat) : storage T -> Prop :=
| reach_init : reachable n (make_storage n)
| reach_create s d h s' :
    reachable n s -> create s d = inr (h, s') -> reachable n s'
| reach_destroy s h :
    reachable n s -> occupied s h = true -> reachable n (destroy s h).

End Arena.

(** ** Math primitives.

    Modelled from the spec: the math library (math/vec.h, math/mat.h,
    math/scalar.h) is not in src; its 3-vectors, 3x3 and 3x4 matrices,
    rigid transforms and rotations are given their standard componentwise
    definitions over [Q].  The quaternion product follows
    src/src/shared/math/quat.h.  [sqrt] stands for [std::sqrt]. *)
Module Math.

Record Vec3 := vec3 { x : Q; y : Q; z : Q }.

Definition zero : Vec3 := vec3 0 0 0.
Definition all (a : Q) : Vec3 := vec3 a a a.
Definition vadd (a b : Vec3) : Vec3 := vec3 (x a + x b) (y a + y b) (z a + z b).
Definition vsub (a b : Vec3) : Vec3 := vec3 (x a - x b) (y a - y b) (z a - z b).
Definition vneg (a : Vec3) : Vec3 := vec3 (- x a) (- y a) (- z a).
Definition vscale (s : Q) (a : Vec3) : Vec3 := vec3 (s * x a) (s * y a) (s * z a).
Definition vdiv (a : Vec3) (s : Q) : Vec3 := vec3 (x a / s) (y a / s) (z a / s).
Definition dot (a b : Vec3) : Q := x a * x b + y a * y b + z a * z b.
Definition cross (a b : Vec3) : Vec3 :=
  vec3 (y a * z b - z a * y b) (z a * x b - x a * z b) (x a * y b - y a * x b).
Definition length_squared (a : Vec3) : Q := dot a a.

(** [operator==] on vectors compares the components as floats. *)
Definition veq (a b : Vec3) : bool :=
  Qeq_bool (x a) (x b) && Qeq_bool (y a) (y b) && Qeq_bool (z a) (z b).

(** The component of [v] perpendicular to the unit vector [n]. *)
Definition perp_unit (v n : Vec3) : Vec3 := vsub v (vscale (dot v n) n).

Record Quat := quat { qw : Q; qv : Vec3 }.

(** quat.h: [operator*]. *)
Definition qmul (q1 q2 : Quat) : Quat :=
  quat (qw q1 * qw q2 - dot (qv q1) (qv q2))
       (vadd (vadd (vscale (qw q1) (qv q2)) (vscale (qw q2) (qv q1))) (cross (qv q1) (qv q2))).
Definition qadd (q1 q2 : Quat) : Quat := quat (qw q1 + qw q2) (vadd (qv q1) (qv q2)).
Definition qscale (s : Q) (q : Quat) : Quat := quat (s * qw q) (vscale s (qv q)).
Definition conjugate (q : Quat) : Quat := quat (qw q) (vneg (qv q)).

(** A 3x3 matrix by rows. *)
Record Mat3 := mat3 { row0 : Vec3; row1 : Vec3; row2 : Vec3 }.

Definition mzero : Mat3 := mat3 zero zero zero.
Definition mvec (m : Mat3) (v : Vec3) : Vec3 := vec3 (dot (row0 m) v) (dot (row1 m) v) (dot (row2 m) v).
Definition col0 (m : Mat3) : Vec3 := vec3 (x (row0 m)) (x (row1 m)) (x (row2 m)).
Definition col1 (m : Mat3) : Vec3 := vec3 (y (row0 m)) (y (row1 m)) (y (row2 m)).
Definition col2 (m : Mat3) : Vec3 := vec3 (z (row0 m)) (z (row1 m)) (z (row2 m)).
Definition transpose (m : Mat3) : Mat3 := mat3 (col0 m) (col1 m) (col2 m).
Definition mmul (a b : Mat3) : Mat3 :=
  let bt := transpose b in mat3 (mvec bt (row0 a)) (mvec bt (row1 a)) (mvec bt (row2 a)).

(** [Mat3x3f::rotation(q)]: the rotation matrix of a unit quaternion. *)
Definition rotation (q : Quat) : Mat3 :=
  let w := qw q in let a := x (qv q) in let b := y (qv q) in let c := z (qv q) in
  mat3 (vec3 (1 - 2 * (b * b + c * c)) (2 * (a * b - w * c)) (2 * (a * c + w * b)))
       (vec3 (2 * (a * b + w * c)) (1 - 2 * (a * a + c * c)) (2 * (b * c - w * a)))
       (vec3 (2 * (a * c - w * b)) (2 * (b * c + w * a)) (1 - 2 * (a * a + b * b))).

(** [inverse] of a 3x3 matrix by the adjugate. *)
Definition inverse (m : Mat3) : Mat3 :=
  let r0 := row0 m in let r1 := row1 m in let r2 := row2 m in
  let det := dot r0 (cross r1 r2) in
  transpose (mat3 (vdiv (cross r1 r2) det) (vdiv (cross r2 r0) det) (vdiv (cross r0 r1) det)).

(** A 3x4 matrix [R | t]. *)
Record Mat3x4 := mat3x4 { linear : Mat3; translation : Vec3 }.

(** [Mat3x4f::rigid(position, orientation)] and [rigid_inverse]. *)
Definition rigid (p : Vec3) (q : Quat) : Mat3x4 := mat3x4 (rotation q) p.
Definition rigid_inverse (m : Mat3x4) : Mat3x4 :=
  let rt := transpose (linear m) in mat3x4 rt (vneg (mvec rt (translation m))).

Section Sqrt.
Variable sqrt : Q -> Q.
Definition length (a : Vec3) : Q := sqrt (length_squared a).
Definition normalize (a : Vec3) : Vec3 := vdiv a (length a).
Definition qnormalize (q : Quat) : Quat :=
  let n := sqrt (qw q * qw q + length_squared (qv q)) in
  quat (qw q / n) (vdiv (qv q) n).
End Sqrt.

End Math.

(** ** The object records of world.cpp (lines 55-101).

    The per-frame scratch fields ([aabb_tree_node], [neighbor_pairs],
    [neighbor_count], [marked]) are kept in the frame state of [Frame]
    instead; a motion callback is recorded by whether it is non-null. *)
Module Data.
Import Math.

Record Material := material {
  static_friction_coefficient : Q;
  dynamic_friction_coefficient : Q;
  restitution_coefficient : Q;
}.

(** shape.h: [Shape] is a variant of [Ball] and [Box]. *)
Inductive Shape :=
| Ball (radius : Q)
| Box (half_width half_height half_depth : Q).

Record Particle_data := particle_data {
  p_motion_callback : bool;
  p_radius : Q;
  p_inverse_mass : Q;
  p_material : Material;
  p_previous_position : Vec3;
  p_position : Vec3;
  p_velocity : Vec3;
  p_waking_motion : Q;
  p_awake : bool;
}.

Record Rigid_body_data := rigid_body_data {
  r_motion_callback : bool;
  r_shape : Shape;
  r_inverse_mass : Q;
  r_inverse_inertia_tensor : Mat3;
  r_material : Material;
  r_previous_position : Vec3;
  r_position : Vec3;
  r_velocity : Vec3;
  r_previous_orientation : Quat;
  r_orientation : Quat;
  r_angular_velocity : Vec3;
  r_waking_motion : Q;
  r_awake : bool;
}.

Record Static_body_data := static_body_data {
  s_shape : Shape;
  s_material : Material;
  s_transform : Mat3x4;
  s_inverse_transform : Mat3x4;
}.

(** [Contact] (world.cpp line 610). *)
Record Contact := mk_contact {
  normal : Vec3;
  relative_positions : Vec3 * Vec3;
  separating_velocity : Q;
  lambda_n : Q;
  lambda_t : Q;
}.

Definition set_lambda_n (c : Contact) (l : Q) : Contact :=
  mk_contact (normal c) (relative_positions c) (separating_velocity c) l (lambda_t c).
Definition set_lambda_t (c : Contact) (l : Q) : Contact :=
  mk_contact (normal c) (relative_positions c) (separating_velocity c) (lambda_n c) l.

(** [Positionless_contact_geometry] and [Positionful_contact_geometry]. *)
Record Positionless_contact_geometry := positionless {
  pl_normal : Vec3; pl_separation : Q }.
Record Positionful_contact_geometry := positionful {
  pf_normal : Vec3; pf_separation : Q; pf_position : Vec3 }.

(** shape.h: [Particle_contact]. *)
Record Particle_contact := particle_contact {
  pc_normal : Vec3; pc_separation : Q }.

End Data.

(** ** Contact kernels of world.cpp and shape.h, over a [sqrt]. *)
Module Kernels.
Import Math Data.

(** [a < b] on floats. *)
Definition Qltb (a b : Q) : bool := negb (Qle_bool b a).

(** An executable square root, exact on squares of rationals; used to run
    the kernels on concrete inputs. *)
Definition exact_sqrt (q : Q) : Q := Z.sqrt (Qnum q * Zpos (Qden q)) # Qden q.

Record Positional_constraint_problem := positional_constraint_problem {
  direction : Vec3;
  distance : Q;
  relative_position : Vec3 * Vec3;
  inverse_mass : Q * Q;
  inverse_inertia_tensor : Mat3 * Mat3;
}.

Record Positional_constraint_solution := positional_constraint_solution {
  delta_position : Vec3 * Vec3;
  delta_orientation : Vec3 * Vec3;
  delta_lambda : Q;
}.

(** world.cpp lines 583-608. *)
Definition solve_positional_constraint (problem : Positional_constraint_problem)
  : Positional_constraint_solution :=
  let n := direction problem in
  let c := distance problem in
  let '(r_1, r_2) := relative_position problem in
  let '(m_inv_1, m_inv_2) := inverse_mass problem in
  let '(I_inv_1, I_inv_2) := inverse_inertia_tensor problem in
  let r_1_cross_n := cross r_1 n in
  let r_2_cross_n := cross r_2 n in
  let w_1 := m_inv_1 + dot r_1_cross_n (mvec I_inv_1 r_1_cross_n) in
  let w_2 := m_inv_2 + dot r_2_cross_n (mvec I_inv_2 r_2_cross_n) in
  let delta_lambda := c / (w_1 + w_2) in
  let p := vscale delta_lambda n in
  positional_constraint_solution
    (vscale m_inv_1 p, vscale m_inv_2 (vneg p))
    (mvec I_inv_1 (cross r_1 p), mvec I_inv_2 (cross r_2 (vneg p)))
    delta_lambda.

(** A call of [update_position] made at the end of a position
    [solve_contact]. *)
Inductive Position_update :=
| Update_particle (h : N) (dp : Vec3)
| Update_rigid_body (h : N) (dp dor : Vec3).

(** The object behind one side of a pair, as the velocity solve's
    overloads see it. *)
Inductive Object_data :=
| Particle_object (d : Particle_data)
| Rigid_body_object (d : Rigid_body_data)
| Static_body_object (d : Static_body_data).

Section Kernels.
Variable sqrt : Q -> Q.

(** shape.h lines 73-89: [find_particle_contact] for a [Ball]. *)
Definition find_particle_contact_ball (particle_position : Vec3) (particle_radius : Q)
    (ball_radius : Q) (ball_position : Vec3) : option Particle_contact :=
  let displacement := vsub particle_position ball_position in
  let distance2 := length_squared displacement in
  let contact_distance := ball_radius + particle_radius in
  let contact_distance2 := contact_distance * contact_distance in
  if Qle_bool distance2 contact_distance2 then
    let distance := sqrt distance2 in
    let normal := vdiv displacement distance in
    Some (particle_contact normal (distance - contact_distance))
  else None.

(** world.cpp lines 791-822: [Position_solve_task::get_contact_geometry]
    for two particles. *)
Definition get_contact_geometry_pp (d0 d1 : Particle_data)
  : option Positionless_contact_geometry :=
  let displacement := vsub (p_position d0) (p_position d1) in
  let distance2 := length_squared displacement in
  let contact_distance := p_radius d0 + p_radius d1 in
  let contact_distance2 := contact_distance * contact_distance in
  if Qltb distance2 contact_distance2 then
    let '(normal, separation) :=
      if Qeq_bool distance2 0 then (vec3 1 0 0, - contact_distance)
      else
        let distance := sqrt distance2 in
        (vdiv displacement distance, distance - contact_distance) in
    Some (positionless normal separation)
  else None.

Definition rotated_inverse_inertia_tensor (orientation : Quat) (I_inv : Mat3) : Mat3 :=
  let rotation := Math.rotation orientation in
  mmul (mmul rotation I_inv) (transpose rotation).

(** world.cpp lines 887-909: particle-particle. *)
Definition solve_contact_pp (h0 h1 : N) (d0 d1 : Particle_data) (contact : Contact)
    (separation : Q) : Contact * list Position_update :=
  let distance_per_impulse := p_inverse_mass d0 + p_inverse_mass d1 in
  let impulse_per_distance := 1 / distance_per_impulse in
  let contact := set_lambda_n contact (- separation * impulse_per_distance) in
  let contact := set_lambda_t contact 0 in
  let impulse := vscale (lambda_n contact) (normal contact) in
  (contact, [Update_particle h0 (vscale (p_inverse_mass d0) impulse);
             Update_particle h1 (vscale (- p_inverse_mass d1) impulse)]).

(** world.cpp lines 689-705: [solve_neighbor_pair] for two particles; the
    contact's relative positions are value-initialised (zero). *)
Definition solve_neighbor_pair_pp (h0 h1 : N) (d0 d1 : Particle_data)
  : option (Contact * list Position_update) :=
  match get_contact_geometry_pp d0 d1 with
  | Some g =>
      let contact := mk_contact (pl_normal g) (zero, zero)
        (dot (vsub (p_velocity d0) (p_velocity d1)) (pl_normal g)) 0 0 in
      Some (solve_contact_pp h0 h1 d0 d1 contact (pl_separation g))
  | None => None
  end.

(** world.cpp lines 911-963: particle-rigid body. *)
Definition solve_contact_pr (h0 h1 : N) (pd : Particle_data) (bd : Rigid_body_data)
    (contact : Contact) (separation : Q) : Contact * list Position_update :=
  let rotation := Math.rotation (r_orientation bd) in
  let inverse_rotation := transpose rotation in
  let I_inv := mmul (mmul rotation (r_inverse_inertia_tensor bd)) inverse_rotation in
  let r := snd (relative_positions contact) in
  let separation_solution := solve_positional_constraint
    (positional_constraint_problem (normal contact) (- separation) (zero, r)
       (p_inverse_mass pd, r_inverse_mass bd) (mzero, I_inv)) in
  let contact := set_lambda_n contact (delta_lambda separation_solution) in
  let contact_movement :=
    vsub (vsub (p_position pd) (p_previous_position pd))
         (vsub (vadd (r_position bd) r)
               (vadd (r_previous_position bd)
                     (mvec (mmul (Math.rotation (r_previous_orientation bd)) inverse_rotation) r))) in
  let tangential_contact_movement := perp_unit contact_movement (normal contact) in
  let '(dp0, dp1) := delta_position separation_solution in
  let dor := snd (delta_orientation separation_solution) in
  let '(contact, dp0, dp1, dor) :=
    if veq tangential_contact_movement zero then (contact, dp0, dp1, dor) else
    let correction_distance := length sqrt tangential_contact_movement in
    let correction_direction := vdiv tangential_contact_movement (- correction_distance) in
    let friction_solution := solve_positional_constraint
      (positional_constraint_problem correction_direction correction_distance (zero, r)
         (p_inverse_mass pd, r_inverse_mass bd) (mzero, I_inv)) in
    let static_friction_coefficient :=
      1/2 * (static_friction_coefficient (p_material pd)
             + static_friction_coefficient (r_material bd)) in
    if Qltb (delta_lambda friction_solution) (static_friction_coefficient * lambda_n contact)
    then (set_lambda_t contact (delta_lambda friction_solution),
          vadd dp0 (fst (delta_position friction_solution)),
          vadd dp1 (snd (delta_position friction_solution)),
          vadd dor (snd (delta_orientation friction_solution)))
    else (contact, dp0, dp1, dor) in
  (contact, [Update_particle h0 dp0; Update_rigid_body h1 dp1 dor]).

(** world.cpp lines 965-1004: particle-static body. *)
Definition solve_contact_ps (h0 : N) (pd : Particle_data) (sd : Static_body_data)
    (contact : Contact) (separation : Q) : Contact * list Position_update :=
  let separation_solution := solve_positional_constraint
    (positional_constraint_problem (normal contact) (- separation) (zero, zero)
       (p_inverse_mass pd, 0) (mzero, mzero)) in
  let contact := set_lambda_n contact (delta_lambda separation_solution) in
  let contact_movement := vsub (p_position pd) (p_previous_position pd) in
  let tangential_contact_movement := perp_unit contact_movement (normal contact) in
  let dp := fst (delta_position separation_solution) in
  let '(contact, dp) :=
    if veq tangential_contact_movement zero then (contact, dp) else
    let correction_distance := length sqrt tangential_contact_movement in
    let correction_direction := vdiv tangential_contact_movement (- correction_distance) in
    let friction_solution := solve_positional_constraint
      (positional_constraint_problem correction_direction correction_distance (zero, zero)
         (p_inverse_mass pd, 0) (mzero, mzero)) in
    let static_friction_coefficient :=
      1/2 * (static_friction_coefficient (p_material pd)
             + static_friction_coefficient (s_material sd)) in
    if Qltb (delta_lambda friction_solution) (static_friction_coefficient * lambda_n contact)
    then (set_lambda_t contact (delta_lambda friction_solution),
          vadd dp (fst (delta_position friction_solution)))
    else (contact, dp) in
  (contact, [Update_particle h0 dp]).

(** world.cpp lines 1006-1074: rigid body-rigid body. *)
Definition solve_contact_rr (h0 h1 : N) (d0 d1 : Rigid_body_data)
    (contact : Contact) (separation : Q) : Contact * list Position_update :=
  let rotation0 := Math.rotation (r_orientation d0) in
  let rotation1 := Math.rotation (r_orientation d1) in
  let inverse_rotation0 := transpose rotation0 in
  let inverse_rotation1 := transpose rotation1 in
  let I_inv0 := mmul (mmul rotation0 (r_inverse_inertia_tensor d0)) inverse_rotation0 in
  let I_inv1 := mmul (mmul rotation1 (r_inverse_inertia_tensor d1)) inverse_rotation1 in
  let '(r0, r1) := relative_positions contact in
  let separation_solution := solve_positional_constraint
    (positional_constraint_problem (normal contact) (- separation) (r0, r1)
       (r_inverse_mass d0, r_inverse_mass d1) (I_inv0, I_inv1)) in
  let contact := set_lambda_n contact (delta_lambda separation_solution) in
  let relative_contact_movement :=
    vsub (vsub (vadd (r_position d0) r0)
               (vadd (r_previous_position d0)
                     (mvec (mmul (Math.rotation (r_previous_orientation d0)) inverse_rotation0) r0)))
         (vsub (vadd (r_position d1) r1)
               (vadd (r_previous_position d1)
                     (mvec (mmul (Math.rotation (r_previous_orientation d1)) inverse_rotation1) r1))) in
  let tangential_relative_contact_movement :=
    perp_unit relative_contact_movement (normal contact) in
  let '(dp0, dp1) := delta_position separation_solution in
  let '(dor0, dor1) := delta_orientation separation_solution in
  let '(contact, dp0, dp1, dor0, dor1) :=
    if veq tangential_relative_contact_movement zero then (contact, dp0, dp1, dor0, dor1) else
    let correction_distance := length sqrt tangential_relative_contact_movement in
    let correction_direction :=
      vdiv tangential_relative_contact_movement (- correction_distance) in
    let friction_solution := solve_positional_constraint
      (positional_constraint_problem correction_direction correction_distance (r0, r1)
         (r_inverse_mass d0, r_inverse_mass d1) (I_inv0, I_inv1)) in
    let static_friction_coefficient :=
      1/2 * (static_friction_coefficient (r_material d0)
             + static_friction_coefficient (r_material d1)) in
    if Qltb (delta_lambda friction_solution) (static_friction_coefficient * lambda_n contact)
    then (set_lambda_t contact (delta_lambda friction_solution),
          vadd dp0 (fst (delta_position friction_solution)),
          vadd dp1 (snd (delta_position friction_solution)),
          vadd dor0 (fst (delta_orientation friction_solution)),
          vadd dor1 (snd (delta_orientation friction_solution)))
    else (contact, dp0, dp1, dor0, dor1) in
  (contact, [Update_rigid_body h0 dp0 dor0; Update_rigid_body h1 dp1 dor1]).

(** world.cpp lines 1076-1123: rigid body-static body. *)
Definition solve_contact_rs (h0 : N) (bd : Rigid_body_data) (sd : Static_body_data)
    (contact : Contact) (separation : Q) : Contact * list Position_update :=
  let rotation := Math.rotation (r_orientation bd) in
  let inverse_rotation := transpose rotation in
  let I_inv := mmul (mmul rotation (r_inverse_inertia_tensor bd)) inverse_rotation in
  let r := fst (relative_positions contact) in
  let separation_solution := solve_positional_constraint
    (positional_constraint_problem (normal contact) (- separation) (r, zero)
       (r_inverse_mass bd, 0) (I_inv, mzero)) in
  let contact := set_lambda_n contact (delta_lambda separation_solution) in
  let contact_movement :=
    vsub (vadd (r_position bd) r)
         (vadd (r_previous_position bd)
               (mvec (mmul (Math.rotation (r_previous_orientation bd)) inverse_rotation) r)) in
  let tangential_contact_movement := perp_unit contact_movement (normal contact) in
  let dp := fst (delta_position separation_solution) in
  let dor := fst (delta_orientation separation_solution) in
  let '(contact, dp, dor) :=
    if veq tangential_contact_movement zero then (contact, dp, dor) else
    let correction_distance := length sqrt tangential_contact_movement in
    let correction_direction := vdiv tangential_contact_movement (- correction_distance) in
    let friction_solution := solve_positional_constraint
      (positional_constraint_problem correction_direction correction_distance (r, zero)
         (r_inverse_mass bd, 0) (I_inv, mzero)) in
    let static_friction_coefficient :=
      1/2 * (static_friction_coefficient (r_material bd)
             + static_friction_coefficient (s_material sd)) in
    if Qltb (delta_lambda friction_solution) (static_friction_coefficient * lambda_n contact)
    then (set_lambda_t contact (delta_lambda friction_solution),
          vadd dp (fst (delta_position friction_solution)),
          vadd dor (fst (delta_orientation friction_solution)))
    else (contact, dp, dor) in
  (contact, [Update_rigid_body h0 dp dor]).

(** world.cpp lines 1125-1140: [update_position]. *)
Definition update_particle_position (d : Particle_data) (dp : Vec3) : Particle_data :=
  particle_data (p_motion_callback d) (p_radius d) (p_inverse_mass d) (p_material d)
    (p_previous_position d) (vadd (p_position d) dp) (p_velocity d)
    (p_waking_motion d) (p_awake d).

Definition update_rigid_body_position (d : Rigid_body_data) (dp dor : Vec3) : Rigid_body_data :=
  let orientation :=
    qadd (r_orientation d) (qmul (qscale (1/2) (quat 0 dor)) (r_orientation d)) in
  rigid_body_data (r_motion_callback d) (r_shape d) (r_inverse_mass d)
    (r_inverse_inertia_tensor d) (r_material d) (r_previous_position d)
    (vadd (r_position d) dp) (r_velocity d) (r_previous_orientation d)
    (qnormalize sqrt orientation) (r_angular_velocity d) (r_waking_motion d) (r_awake d).

(** The overloads of the velocity solve (world.cpp lines 1300-1400). *)
Definition get_velocity (o : Object_data) (r : Vec3) : Vec3 :=
  match o with
  | Particle_object d => p_velocity d
  | Rigid_body_object d => vadd (r_velocity d) (cross (r_angular_velocity d) r)
  | Static_body_object _ => zero
  end.

Definition get_inverse_inertia_tensor (o : Object_data) : Mat3 :=
  match o with
  | Rigid_body_object d =>
      let rotation := Math.rotation (r_orientation d) in
      mmul (mmul rotation (r_inverse_inertia_tensor d)) (transpose rotation)
  | _ => mzero
  end.

Definition get_generalized_inverse_mass (o : Object_data) (I_inv : Mat3) (r dir : Vec3) : Q :=
  match o with
  | Particle_object d => p_inverse_mass d
  | Rigid_body_object d =>
      let r_cross_n := cross r dir in r_inverse_mass d + dot r_cross_n (mvec I_inv r_cross_n)
  | Static_body_object _ => 0
  end.

Definition object_material (o : Object_data) : Material :=
  match o with
  | Particle_object d => p_material d
  | Rigid_body_object d => r_material d
  | Static_body_object d => s_material d
  end.

Definition get_dynamic_friction_coefficient (o : Object_data) : Q :=
  dynamic_friction_coefficient (object_material o).

Definition get_restitution_coefficient (o : Object_data) : Q :=
  restitution_coefficient (object_material o).

Definition apply_impulse (o : Object_data) (I_inv : Mat3) (r impulse : Vec3) : Object_data :=
  match o with
  | Particle_object d =>
      Particle_object (particle_data (p_motion_callback d) (p_radius d) (p_inverse_mass d)
        (p_material d) (p_previous_position d) (p_position d)
        (vadd (p_velocity d) (vscale (p_inverse_mass d) impulse))
        (p_waking_motion d) (p_awake d))
  | Rigid_body_object d =>
      Rigid_body_object (rigid_body_data (r_motion_callback d) (r_shape d) (r_inverse_mass d)
        (r_inverse_inertia_tensor d) (r_material d) (r_previous_position d) (r_position d)
        (vadd (r_velocity d) (vscale (r_inverse_mass d) impulse))
        (r_previous_orientation d) (r_orientation d)
        (vadd (r_angular_velocity d) (mvec I_inv (cross r impulse)))
        (r_waking_motion d) (r_awake d))
  | Static_body_object d => Static_body_object d
  end.

(** world.cpp lines 1260-1279. *)
Definition get_friction_velocity_update (inverse_delta_time : Q) (d1 d2 : Object_data)
    (contact : Contact) (tangential_velocity : Vec3) : Vec3 :=
  if veq tangential_velocity zero then zero else
  let friction_coefficient :=
    1/2 * (get_dynamic_friction_coefficient d1 + get_dynamic_friction_coefficient d2) in
  let tangential_speed := length sqrt tangential_velocity in
  let delta_velocity_direction := vdiv (vneg tangential_velocity) tangential_speed in
  vscale (Qmin (friction_coefficient * lambda_n contact * inverse_delta_time) tangential_speed)
    delta_velocity_direction.

(** world.cpp lines 1281-1298. *)
Definition get_restitution_velocity_update (threshold : Q) (d1 d2 : Object_data)
    (contact : Contact) (separating_velocity : Q) : Vec3 :=
  let restitution_coefficient :=
    if Qltb threshold (Qabs separating_velocity)
    then 1/2 * (get_restitution_coefficient d1 + get_restitution_coefficient d2)
    else 0 in
  vscale (- separating_velocity
          + Qmin (- restitution_coefficient * Data.separating_velocity contact) 0)
    (normal contact).

(** world.cpp lines 1224-1258: the velocity [solve_contact] up to the two
    [apply_impulse] calls, which the caller makes on the live objects.
    [None] when [delta_velocity] is zero and nothing is applied. *)
Definition velocity_solve_impulse (inverse_delta_time threshold : Q) (d1 d2 : Object_data)
    (contact : Contact) : option (Mat3 * Mat3 * Vec3) :=
  let '(r1, r2) := relative_positions contact in
  let relative_velocity := vsub (get_velocity d1 r1) (get_velocity d2 r2) in
  let separating_velocity := dot (normal contact) relative_velocity in
  let tangential_velocity :=
    vsub relative_velocity (vscale separating_velocity (normal contact)) in
  let delta_velocity :=
    vadd (get_friction_velocity_update inverse_delta_time d1 d2 contact tangential_velocity)
         (get_restitution_velocity_update threshold d1 d2 contact separating_velocity) in
  if veq delta_velocity zero then None else
  let I_inv_1 := get_inverse_inertia_tensor d1 in
  let I_inv_2 := get_inverse_inertia_tensor d2 in
  let delta_velocity_direction := normalize sqrt delta_velocity in
  let w_1 := get_generalized_inverse_mass d1 I_inv_1 r1 delta_velocity_direction in
  let w_2 := get_generalized_inverse_mass d2 I_inv_2 r2 delta_velocity_direction in
  Some (I_inv_1, I_inv_2, vdiv delta_velocity (w_1 + w_2)).

End Kernels.
End Kernels.

(** ** Bounds and particle contacts of shape.h. *)
Module Shapes.
Import Math Data Kernels.

(** [std::min] and [std::max] on floats: [(b < a) ? b : a] and
    [(a < b) ? b : a]. *)
Definition std_min (a b : Q) : Q := if Qltb b a then b else a.
Definition std_max (a b : Q) : Q := if Qltb a b then b else a.

(** [std::clamp(v, lo, hi)]: [lo] if [v < lo], else [hi] if [hi < v],
    else [v]. *)
Definition std_clamp (v lo hi : Q) : Q :=
  if Qltb v lo then lo else if Qltb hi v then hi else v.

(** [std::min_element] on a non-empty array, as an index: the first
    position holding a smallest element. *)
Fixpoint min_element_from (l : list Q) (i smallest : nat) (s : Q) : nat :=
  match l with
  | [] => smallest
  | v :: l' =>
      if Qltb v s then min_element_from l' (S i) i v
      else min_element_from l' (S i) smallest s
  end.

Definition min_element (l : list Q) : nat :=
  match l with
  | [] => 0
  | v :: l' => min_element_from l' 1 0 v
  end.

(** The row-by-row product [m[i][0] p.x + m[i][1] p.y + m[i][2] p.z + m[i][3]]. *)
Definition transform_point (m : Mat3x4) (p : Vec3) : Vec3 :=
  vadd (mvec (linear m) p) (translation m).

(** [Bounding_box]: its [min] and [max] corners. *)
Record Bounding_box := bounding_box { bb_min : Vec3; bb_max : Vec3 }.

(** shape.h lines 27-30: [bounds] of a [Ball]. *)
Definition bounds_ball (ball_radius : Q) (position : Vec3) : Bounding_box :=
  bounding_box (vsub position (all ball_radius)) (vadd position (all ball_radius)).

(** The array [shape_space_points] of [bounds] of a [Box]. *)
Definition box_corners (half_width half_height half_depth : Q) : list Vec3 :=
  [vec3 (- half_width) (- half_height) (- half_depth);
   vec3 (- half_width) (- half_height) half_depth;
   vec3 (- half_width) half_height (- half_depth);
   vec3 (- half_width) half_height half_depth;
   vec3 half_width (- half_height) (- half_depth);
   vec3 half_width (- half_height) half_depth;
   vec3 half_width half_height (- half_depth);
   vec3 half_width half_height half_depth].

(** One step [i] of the second loop of [bounds] of a [Box]. *)
Definition bounds_step (b : Bounding_box) (p : Vec3) : Bounding_box :=
  bounding_box
    (vec3 (std_min (x (bb_min b)) (x p)) (std_min (y (bb_min b)) (y p))
          (std_min (z (bb_min b)) (z p)))
    (vec3 (std_max (x (bb_max b)) (x p)) (std_max (y (bb_max b)) (y p))
          (std_max (z (bb_max b)) (z p))).

(** shape.h lines 32-71: [bounds] of a [Box]; the loop starts from
    [world_space_points[0]]. *)
Definition bounds_box (half_width half_height half_depth : Q) (transform : Mat3x4)
  : Bounding_box :=
  match map (transform_point transform) (box_corners half_width half_height half_depth) with
  | p0 :: ps => fold_left bounds_step ps (bounding_box p0 p0)
  | [] => bounding_box zero zero
  end.

(** shape.h lines 167-182: [bounds] of a [Shape]; a ball is placed at the
    translation column of the transform. *)
Definition bounds (shape : Shape) (shape_transform : Mat3x4) : Bounding_box :=
  match shape with
  | Ball radius => bounds_ball radius (translation shape_transform)
  | Box half_width half_height half_depth =>
      bounds_box half_width half_height half_depth shape_transform
  end.

Section Contact.
Variable sqrt : Q -> Q.

(** shape.h lines 91-157: [find_particle_contact] for a [Box]. *)
Definition find_particle_contact_box (particle_position : Vec3) (particle_radius : Q)
    (half_width half_height half_depth : Q) (box_transform box_transform_inverse : Mat3x4)
  : option Particle_contact :=
  let shape_space_particle_position := transform_point box_transform_inverse particle_position in
  let shape_space_clamped_particle_position :=
    vec3 (std_clamp (x shape_space_particle_position) (- half_width) half_width)
         (std_clamp (y shape_space_particle_position) (- half_height) half_height)
         (std_clamp (z shape_space_particle_position) (- half_depth) half_depth) in
  let c := shape_space_clamped_particle_position in
  let displacement := vsub shape_space_particle_position c in
  let distance2 := length_squared displacement in
  let particle_radius2 := particle_radius * particle_radius in
  if Qeq_bool distance2 0 then
    let face_distances :=
      [x c + half_width; half_width - x c; y c + half_height; half_height - y c;
       z c + half_depth; half_depth - z c] in
    let m := linear box_transform in
    let face_normals :=
      [vneg (col0 m); col0 m; vneg (col1 m); col1 m; vneg (col2 m); col2 m] in
    let face_index := min_element face_distances in
    let separation := - nth face_index face_distances 0 - particle_radius in
    let normal := nth face_index face_normals zero in
    Some (particle_contact normal separation)
  else if Qle_bool distance2 particle_radius2 then
    let normal := normalize sqrt (mvec (linear box_transform) displacement) in
    let distance := sqrt distance2 in
    let separation := distance - particle_radius in
    Some (particle_contact normal separation)
  else None.

(** shape.h lines 184-205: [find_particle_contact] for a [Shape]; a ball
    is placed at the translation column of the transform. *)
Definition find_particle_contact (particle_position : Vec3) (particle_radius : Q)
    (shape : Shape) (shape_transform shape_transform_inverse : Mat3x4)
  : option Particle_contact :=
  match shape with
  | Ball radius =>
      find_particle_contact_ball sqrt particle_position particle_radius radius
        (translation shape_transform)
  | Box half_width half_height half_depth =>
      find_particle_contact_box particle_position particle_radius half_width half_height
        half_depth shape_transform shape_transform_inverse
  end.

End Contact.

End Shapes.

(** ** The static-friction rule of the position solve, in the spec's words.

    For a pair in contact the separation solution [sol] is computed first;
    the tangential contact movement [t] (the contact points' displacement
    over the substep, projected into the tangent plane) is then, when
    non-zero, corrected along [-t / |t|] by a distance [|t|], and this
    correction [fr] is accepted exactly when [fr]'s lambda is below the mean
    static friction coefficient times [sol]'s lambda. *)
Module FrictionSpec.
Import Math Data Kernels.

Definition mean (a b : Q) : Q := (a + b) / 2.

Definition friction_accepted (t : Vec3) (lambda_t mu_s lambda_n : Q) : bool :=
  negb (veq t zero) && Qltb lambda_t (mu_s * lambda_n).

Section FrictionSpec.
Variable sqrt : Q -> Q.

Definition friction_problem (t : Vec3) (r : Vec3 * Vec3) (m : Q * Q) (I_inv : Mat3 * Mat3)
  : Positional_constraint_problem :=
  positional_constraint_problem (vdiv t (- length sqrt t)) (length sqrt t) r m I_inv.

(** Displacement over the substep of a body-fixed point at [r] from the
    body's current position. *)
Definition contact_point_movement (bd : Rigid_body_data) (r : Vec3) : Vec3 :=
  vsub (vadd (r_position bd) r)
       (vadd (r_previous_position bd)
             (mvec (mmul (Math.rotation (r_previous_orientation bd))
                         (transpose (Math.rotation (r_orientation bd)))) r)).

Definition particle_movement (pd : Particle_data) : Vec3 :=
  vsub (p_position pd) (p_previous_position pd).

Definition pr_friction_rule : Prop :=
  forall h0 h1 pd bd c sep,
  let I_inv := rotated_inverse_inertia_tensor (r_orientation bd) (r_inverse_inertia_tensor bd) in
  let r := snd (relative_positions c) in
  let m := (p_inverse_mass pd, r_inverse_mass bd) in
  let sol := solve_positional_constraint
    (positional_constraint_problem (normal c) (- sep) (zero, r) m (mzero, I_inv)) in
  let t := perp_unit (vsub (particle_movement pd) (contact_point_movement bd r)) (normal c) in
  let fr := solve_positional_constraint (friction_problem t (zero, r) m (mzero, I_inv)) in
  let mu_s := mean (static_friction_coefficient (p_material pd))
                   (static_friction_coefficient (r_material bd)) in
  solve_contact_pr sqrt h0 h1 pd bd c sep =
  if friction_accepted t (delta_lambda fr) mu_s (delta_lambda sol) then
    (set_lambda_t (set_lambda_n c (delta_lambda sol)) (delta_lambda fr),
     [Update_particle h0 (vadd (fst (delta_position sol)) (fst (delta_position fr)));
      Update_rigid_body h1 (vadd (snd (delta_position sol)) (snd (delta_position fr)))
                           (vadd (snd (delta_orientation sol)) (snd (delta_orientation fr)))])
  else
    (set_lambda_n c (delta_lambda sol),
     [Update_particle h0 (fst (delta_position sol));
      Update_rigid_body h1 (snd (delta_position sol)) (snd (delta_orientation sol))]).

Definition ps_friction_rule : Prop :=
  forall h0 pd sd c sep,
  let m := (p_inverse_mass pd, 0) in
  let sol := solve_positional_constraint
    (positional_constraint_problem (normal c) (- sep) (zero, zero) m (mzero, mzero)) in
  let t := perp_unit (particle_movement pd) (normal c) in
  let fr := solve_positional_constraint (friction_problem t (zero, zero) m (mzero, mzero)) in
  let mu_s := mean (static_friction_coefficient (p_material pd))
                   (static_friction_coefficient (s_material sd)) in
  solve_contact_ps sqrt h0 pd sd c sep =
  if friction_accepted t (delta_lambda fr) mu_s (delta_lambda sol) then
    (set_lambda_t (set_lambda_n c (delta_lambda sol)) (delta_lambda fr),
     [Update_particle h0 (vadd (fst (delta_position sol)) (fst (delta_position fr)))])
  else
    (set_lambda_n c (delta_lambda sol), [Update_particle h0 (fst (delta_position sol))]).

Definition rr_friction_rule : Prop :=
  forall h0 h1 d0 d1 c sep,
  let I_inv := (rotated_inverse_inertia_tensor (r_orientation d0) (r_inverse_inertia_tensor d0),
                rotated_inverse_inertia_tensor (r_orientation d1) (r_inverse_inertia_tensor d1)) in
  let r := relative_positions c in
  let m := (r_inverse_mass d0, r_inverse_mass d1) in
  let sol := solve_positional_constraint
    (positional_constraint_problem (normal c) (- sep) r m I_inv) in
  let t := perp_unit (vsub (contact_point_movement d0 (fst r)) (contact_point_movement d1 (snd r)))
                     (normal c) in
  let fr := solve_positional_constraint (friction_problem t r m I_inv) in
  let mu_s := mean (static_friction_coefficient (r_material d0))
                   (static_friction_coefficient (r_material d1)) in
  solve_contact_rr sqrt h0 h1 d0 d1 c sep =
  if friction_accepted t (delta_lambda fr) mu_s (delta_lambda sol) then
    (set_lambda_t (set_lambda_n c (delta_lambda sol)) (delta_lambda fr),
     [Update_rigid_body h0 (vadd (fst (delta_position sol)) (fst (delta_position fr)))
                           (vadd (fst (delta_orientation sol)) (fst (delta_orientation fr)));
      Update_rigid_body h1 (vadd (snd (delta_position sol)) (snd (delta_position fr)))
                           (vadd (snd (delta_orientation sol)) (snd (delta_orientation fr)))])
  else
    (set_lambda_n c (delta_lambda sol),
     [Update_rigid_body h0 (fst (delta_position sol)) (fst (delta_orientation sol));
      Update_rigid_body h1 (snd (delta_position sol)) (snd (delta_orientation sol))]).

Definition rs_friction_rule : Prop :=
  forall h0 bd sd c sep,
  let I_inv := rotated_inverse_inertia_tensor (r_orientation bd) (r_inverse_inertia_tensor bd) in
  let r := fst (relative_positions c) in
  let m := (r_inverse_mass bd, 0) in
  let sol := solve_positional_constraint
    (positional_constraint_problem (normal c) (- sep) (r, zero) m (I_inv, mzero)) in
  let t := perp_unit (contact_point_movement bd r) (normal c) in
  let fr := solve_positional_constraint (friction_problem t (r, zero) m (I_inv, mzero)) in
  let mu_s := mean (static_friction_coefficient (r_material bd))
                   (static_friction_coefficient (s_material sd)) in
  solve_contact_rs sqrt h0 bd sd c sep =
  if friction_accepted t (delta_lambda fr) mu_s (delta_lambda sol) then
    (set_lambda_t (set_lambda_n c (delta_lambda sol)) (delta_lambda fr),
     [Update_rigid_body h0 (vadd (fst (delta_position sol)) (fst (delta_position fr)))
                           (vadd (fst (delta_orientation sol)) (fst (delta_orientation fr)))])
  else
    (set_lambda_n c (delta_lambda sol),
     [Update_rigid_body h0 (fst (delta_position sol)) (fst (delta_orientation sol))]).

(** Particle-particle pairs: the separation correction only, along the
    normal, and [lambda_t] reset to zero. *)
Definition pp_no_friction_rule : Prop :=
  forall h0 h1 d0 d1 c sep,
  let '(c', updates) := solve_contact_pp h0 h1 d0 d1 c sep in
  lambda_t c' = 0 /\
  exists l0 l1 dp0 dp1,
    updates = [Update_particle h0 dp0; Update_particle h1 dp1] /\
    veq dp0 (vscale l0 (normal c)) = true /\ veq dp1 (vscale l1 (normal c)) = true.

End FrictionSpec.
End FrictionSpec.

(** ** Concrete inputs for the kernels. *)
Module KernelScenarios.
Import Math Data Kernels.

Definition grippy : Material := material 2 0 0.
Definition bouncy : Material := material 0 0 1.

(** A particle that moved by one unit along +Y during the substep, touching
    a particle that did not move. *)
Definition sliding_particle : Particle_data :=
  particle_data false 1 1 grippy (vec3 0 (-1) 0) (vec3 0 0 0) zero 0 true.
Definition resting_neighbor : Particle_data :=
  particle_data false 1 1 grippy (vec3 1 0 0) (vec3 1 0 0) zero 0 true.

(** A particle at rest on a static ground, with a contact whose separating
    velocity at position-solve time was 10. *)
Definition bouncy_particle : Particle_data :=
  particle_data false 1 1 bouncy zero zero zero 0 true.
Definition bouncy_ground : Static_body_data :=
  static_body_data (Box 1 1 1) bouncy (mat3x4 (mat3 (vec3 1 0 0) (vec3 0 1 0) (vec3 0 0 1)) zero)
    (mat3x4 (mat3 (vec3 1 0 0) (vec3 0 1 0) (vec3 0 0 1)) zero).
Definition rebound_contact : Contact := mk_contact (vec3 1 0 0) (zero, zero) 10 0 0.

(** [2 |g| h] for [g = (0, -5, 0)] and [h = 1/10]: 1. *)
Definition unit_threshold : Q := 2 * length exact_sqrt (vec3 0 (-5) 0) * (1 / 10).

Definition coincident_particle (r : Q) : Particle_data :=
  particle_data false r 1 grippy zero zero zero 0 true.

End KernelScenarios.

(** ** The world and its frame pipeline (world.cpp lines 35-60, 367-549,
    1529-1699 and 1736-2330).

    The broadphase ([Aabb_tree]: [build] and
    [for_each_overlapping_leaf_pair], aabb_tree.h) and the shape geometry
    ([particle_shape_positionful_contact_geometry],
    [particle_shape_positionless_contact_geometry],
    [shape_shape_contact_geometry], particle.h / rigid_body.h) are not in
    src: they are parameters of [simulate].  The broadphase is the list of
    the payload pairs it reports for the world's current state and the
    [delta_time] it is built with.  The tree leaves themselves (created by
    [create], destroyed by [destroy]) live in that abstraction and are not
    part of [World].  Motion callbacks may only query the world, so calling
    them changes no state of the model.  The thread pool runs the chunks of
    one color in any order; the chunks of a color touch disjoint objects,
    and the model runs them in bucket order. *)
Module World.
Import Arena Math Data Kernels.

(** [Object_pair_type] (line 40). *)
Inductive Object_pair_type :=
| particle_particle
| particle_rigid_body
| particle_static_body
| rigid_body_rigid_body
| rigid_body_static_body.

(** Lines 48-51: [color_unmarked = uint16(-1)], [color_marked = uint16(-2)],
    [max_colors = 2^16 - 2]. *)
Definition color_unmarked : N := 65535.
Definition color_marked : N := 65534.
Definition max_colors : N := 65534.

(** [Neighbor_pair] (line 53); [color] starts as [color_unmarked]. *)
Record Neighbor_pair := neighbor_pair {
  objects : N * N;
  type : Object_pair_type;
  color : N;
}.

Definition set_color (p : Neighbor_pair) (c : N) : Neighbor_pair :=
  neighbor_pair (objects p) (type p) c.

(** The handles of the three object classes, as the variant
    [Aabb_tree_payload_t] (line 35) and the solve tasks carry them. *)
Inductive Object_handle :=
| Particle_handle (h : N)
| Static_body_handle (h : N)
| Rigid_body_handle (h : N).

(** [std::variant<Particle_handle, Rigid_body_handle>], an entry of the
    object list of [Neighbor_group_storage]. *)
Inductive Dynamic_object :=
| Dynamic_particle (h : N)
| Dynamic_rigid_body (h : N).

#[global] Instance Dynamic_object_eq_dec : EqDecision Dynamic_object.
Proof. solve_decision. Defined.

(** The errors a [simulate] call ends in: the [std::runtime_error] of
    [color_neighbor_group], an access the source performs out of range
    (undefined behavior), and a loop of the model exceeding its bound. *)
Inductive Simulate_error :=
| Coloring_exhausted
| Undefined_behavior
| Loop_bound_exceeded.

(** A fold in the error monad. *)
Fixpoint fold_m {A B} (f : A -> B -> Simulate_error + A) (l : list B) (a : A)
  : Simulate_error + A :=
  match l with
  | [] => inr a
  | b :: l' =>
      match f a b with
      | inl e => inl e
      | inr a' => fold_m f l' a'
      end
  end.

(** The elements [begin, end) of a list, as a span. *)
Definition list_range {A} (b e : nat) (l : list A) : list A := take (e - b) (drop b l).

(** *** The world state and its creation and destruction. *)

Record World := world {
  particles : storage Particle_data;
  static_bodies : storage Static_body_data;
  rigid_bodies : storage Rigid_body_data;
  gravitational_acceleration : Vec3;
}.

Definition set_particles (w : World) (s : storage Particle_data) : World :=
  world s (static_bodies w) (rigid_bodies w) (gravitational_acceleration w).
Definition set_static_bodies (w : World) (s : storage Static_body_data) : World :=
  world (particles w) s (rigid_bodies w) (gravitational_acceleration w).
Definition set_rigid_bodies (w : World) (s : storage Rigid_body_data) : World :=
  world (particles w) (static_bodies w) s (gravitational_acceleration w).

(** A write through the pointer [data(h)] of a storage. *)
Definition storage_alter {T} (f : T -> T) (h : N) (s : storage T) : storage T :=
  mk_storage (alter f h (st_data s)) (st_free_indices s) (st_occupancy_bits s).

(** The fields of [World_create_info] the world state depends on. *)
Record World_create_info := world_create_info {
  max_particles : nat;
  max_static_bodies : nat;
  max_rigid_bodies : nat;
  create_gravitational_acceleration : Vec3;
}.

Definition make_world (create_info : World_create_info) : World :=
  world (make_storage (max_particles create_info))
        (make_storage (max_static_bodies create_info))
        (make_storage (max_rigid_bodies create_info))
        (create_gravitational_acceleration create_info).

(** The create infos, with the fields that [create] reads (lines 1529-1633). *)
Record Particle_create_info := particle_create_info {
  pci_motion_callback : bool;
  pci_radius : Q;
  pci_mass : Q;
  pci_material : Material;
  pci_position : Vec3;
  pci_velocity : Vec3;
}.

Record Rigid_body_create_info := rigid_body_create_info {
  rci_motion_callback : bool;
  rci_shape : Shape;
  rci_mass : Q;
  rci_inertia_tensor : Mat3;
  rci_material : Material;
  rci_position : Vec3;
  rci_velocity : Vec3;
  rci_orientation : Quat;
  rci_angular_velocity : Vec3;
}.

Record Static_body_create_info := static_body_create_info {
  sci_shape : Shape;
  sci_material : Material;
  sci_position : Vec3;
  sci_orientation : Quat;
}.

(** Integration constants (lines 1414-1418). *)
Definition velocity_damping_factor : Q := 99 / 100.
Definition waking_motion_epsilon : Q := 1 / 256.
Definition waking_motion_initializer : Q := 2 * waking_motion_epsilon.
Definition waking_motion_limit : Q := 8 * waking_motion_epsilon.
Definition waking_motion_smoothing_factor : Q := 7 / 8.

(** Lines 1529-1548. *)
Definition create_particle (w : World) (create_info : Particle_create_info)
  : create_error + (N * World) :=
  match create (particles w)
          (particle_data (pci_motion_callback create_info) (pci_radius create_info)
             (1 / pci_mass create_info) (pci_material create_info)
             (pci_position create_info) (pci_position create_info)
             (pci_velocity create_info) waking_motion_initializer true) with
  | inl e => inl e
  | inr (h, s) => inr (h, set_particles w s)
  end.

Definition destroy_particle (w : World) (h : N) : World :=
  set_particles w (destroy (particles w) h).

(** Lines 1566-1590. *)
Definition create_rigid_body (w : World) (create_info : Rigid_body_create_info)
  : create_error + (N * World) :=
  match create (rigid_bodies w)
          (rigid_body_data (rci_motion_callback create_info) (rci_shape create_info)
             (1 / rci_mass create_info) (inverse (rci_inertia_tensor create_info))
             (rci_material create_info) (rci_position create_info)
             (rci_position create_info) (rci_velocity create_info)
             (rci_orientation create_info) (rci_orientation create_info)
             (rci_angular_velocity create_info) waking_motion_initializer true) with
  | inl e => inl e
  | inr (h, s) => inr (h, set_rigid_bodies w s)
  end.

Definition destroy_rigid_body (w : World) (h : N) : World :=
  set_rigid_bodies w (destroy (rigid_bodies w) h).

(** Lines 1614-1628. *)
Definition create_static_body (w : World) (create_info : Static_body_create_info)
  : create_error + (N * World) :=
  let transform := rigid (sci_position create_info) (sci_orientation create_info) in
  match create (static_bodies w)
          (static_body_data (sci_shape create_info) (sci_material create_info)
             transform (rigid_inverse transform)) with
  | inl e => inl e
  | inr (h, s) => inr (h, set_static_bodies w s)
  end.

Definition destroy_static_body (w : World) (h : N) : World :=
  set_static_bodies w (destroy (static_bodies w) h).

(** *** Neighbor pairs (lines 1787-1906). *)

(** The visitor of [find_neighbor_pairs]: the particle comes first, a rigid
    body before a static body; two static bodies make no pair. *)
Definition make_neighbor_pair (first_payload second_payload : Object_handle)
  : option Neighbor_pair :=
  match first_payload, second_payload with
  | Particle_handle a, Particle_handle b =>
      Some (neighbor_pair (a, b) particle_particle color_unmarked)
  | Particle_handle a, Rigid_body_handle b =>
      Some (neighbor_pair (a, b) particle_rigid_body color_unmarked)
  | Particle_handle a, Static_body_handle b =>
      Some (neighbor_pair (a, b) particle_static_body color_unmarked)
  | Rigid_body_handle a, Particle_handle b =>
      Some (neighbor_pair (b, a) particle_rigid_body color_unmarked)
  | Rigid_body_handle a, Rigid_body_handle b =>
      Some (neighbor_pair (a, b) rigid_body_rigid_body color_unmarked)
  | Rigid_body_handle a, Static_body_handle b =>
      Some (neighbor_pair (a, b) rigid_body_static_body color_unmarked)
  | Static_body_handle a, Particle_handle b =>
      Some (neighbor_pair (b, a) particle_static_body color_unmarked)
  | Static_body_handle a, Rigid_body_handle b =>
      Some (neighbor_pair (b, a) rigid_body_static_body color_unmarked)
  | Static_body_handle _, Static_body_handle _ => None
  end.

Definition find_neighbor_pairs (leaf_pairs : list (Object_handle * Object_handle))
  : list Neighbor_pair :=
  omap (fun '(a, b) => make_neighbor_pair a b) leaf_pairs.

(** The dynamic objects of a pair, in the order of the [switch] of
    [assign_neighbor_pairs] and of the [neighbors] of
    [color_neighbor_group]. *)
Definition pair_dynamic_objects (p : Neighbor_pair) : list Dynamic_object :=
  let '(o0, o1) := objects p in
  match type p with
  | particle_particle => [Dynamic_particle o0; Dynamic_particle o1]
  | particle_rigid_body => [Dynamic_particle o0; Dynamic_rigid_body o1]
  | particle_static_body => [Dynamic_particle o0]
  | rigid_body_rigid_body => [Dynamic_rigid_body o0; Dynamic_rigid_body o1]
  | rigid_body_static_body => [Dynamic_rigid_body o0]
  end.

(** [assign_neighbor_pairs]: each dynamic object's span of pair pointers,
    filled in pair order; a pair is named by its index. *)
Definition assign_neighbor_pair (slices : Dynamic_object -> list nat) (k : nat)
    (d : Dynamic_object) : Dynamic_object -> list nat :=
  fun d' => if decide (d' = d) then slices d' ++ [k] else slices d'.

Fixpoint assign_neighbor_pairs_from (k : nat) (pairs : list Neighbor_pair)
    (slices : Dynamic_object -> list nat) : Dynamic_object -> list nat :=
  match pairs with
  | [] => slices
  | p :: pairs' =>
      assign_neighbor_pairs_from (S k) pairs'
        (fold_left (fun s d => assign_neighbor_pair s k d) (pair_dynamic_objects p) slices)
  end.

Definition assign_neighbor_pairs (pairs : list Neighbor_pair) : Dynamic_object -> list nat :=
  assign_neighbor_pairs_from 0 pairs (fun _ => []).

(** *** Neighbor groups (lines 367-480 and 1908-2013). *)

Record Group := group {
  objects_begin : nat;
  objects_end : nat;
  neighbor_pairs_begin : nat;
  neighbor_pairs_end : nat;
}.

Record Neighbor_group_storage := neighbor_group_storage {
  ng_objects : list Dynamic_object;
  ng_neighbor_pairs : list nat;
  ng_groups : list Group;
}.

Definition begin_group (ng : Neighbor_group_storage) : Neighbor_group_storage :=
  let objects_index := List.length (ng_objects ng) in
  let neighbor_pairs_index := List.length (ng_neighbor_pairs ng) in
  neighbor_group_storage (ng_objects ng) (ng_neighbor_pairs ng)
    (ng_groups ng ++ [group objects_index objects_index neighbor_pairs_index neighbor_pairs_index]).

(** [++_groups.back().field]. *)
Definition alter_back (f : Group -> Group) (gs : list Group) : list Group :=
  alter f (pred (List.length gs)) gs.

Definition add_object_to_group (ng : Neighbor_group_storage) (d : Dynamic_object)
  : Neighbor_group_storage :=
  neighbor_group_storage (ng_objects ng ++ [d]) (ng_neighbor_pairs ng)
    (alter_back (fun g => group (objects_begin g) (S (objects_end g))
                               (neighbor_pairs_begin g) (neighbor_pairs_end g)) (ng_groups ng)).

Definition add_pair_to_group (ng : Neighbor_group_storage) (k : nat)
  : Neighbor_group_storage :=
  neighbor_group_storage (ng_objects ng) (ng_neighbor_pairs ng ++ [k])
    (alter_back (fun g => group (objects_begin g) (objects_end g)
                               (neighbor_pairs_begin g) (S (neighbor_pairs_end g))) (ng_groups ng)).

Definition group_objects (ng : Neighbor_group_storage) (j : nat) : list Dynamic_object :=
  match ng_groups ng !! j with
  | Some g => list_range (objects_begin g) (objects_end g) (ng_objects ng)
  | None => []
  end.

Definition group_neighbor_pairs (ng : Neighbor_group_storage) (j : nat) : list nat :=
  match ng_groups ng !! j with
  | Some g => list_range (neighbor_pairs_begin g) (neighbor_pairs_end g) (ng_neighbor_pairs ng)
  | None => []
  end.

(** The state [find_neighbor_groups] works on: the pairs (their colors
    change), the [marked] bits of the dynamic objects, and the groups. *)
Record Grouping := grouping {
  gr_pairs : list Neighbor_pair;
  gr_marked : Dynamic_object -> bool;
  gr_storage : Neighbor_group_storage;
}.

Definition mark (marked : Dynamic_object -> bool) (d : Dynamic_object) : Dynamic_object -> bool :=
  fun d' => if decide (d' = d) then true else marked d'.

Definition grouping_add_pair (st : Grouping) (k : nat) : Grouping :=
  grouping (gr_pairs st) (gr_marked st) (add_pair_to_group (gr_storage st) k).

(** The branch of the visitor for a pair with a dynamic neighbor. *)
Definition visit_neighbor (st : Grouping) (neighbor : Dynamic_object) (k : nat)
    (p : Neighbor_pair) : Grouping :=
  let st :=
    if gr_marked st neighbor then st
    else grouping (gr_pairs st) (mark (gr_marked st) neighbor)
                  (add_object_to_group (gr_storage st) neighbor) in
  if N.eqb (color p) color_unmarked then
    grouping (alter (fun q => set_color q color_marked) k (gr_pairs st)) (gr_marked st)
             (add_pair_to_group (gr_storage st) k)
  else st.

(** The visitor on one entry [k] of the span of [handle]. *)
Definition visit_neighbor_pair (handle : Dynamic_object) (st : Grouping) (k : nat) : Grouping :=
  match gr_pairs st !! k with
  | None => st
  | Some p =>
      let '(o0, o1) := objects p in
      match handle, type p with
      | Dynamic_particle h, particle_particle =>
          visit_neighbor st (Dynamic_particle (if N.eqb o0 h then o1 else o0)) k p
      | Dynamic_particle _, particle_rigid_body =>
          visit_neighbor st (Dynamic_rigid_body o1) k p
      | Dynamic_particle _, particle_static_body => grouping_add_pair st k
      | Dynamic_rigid_body _, particle_rigid_body =>
          visit_neighbor st (Dynamic_particle o0) k p
      | Dynamic_rigid_body h, rigid_body_rigid_body =>
          visit_neighbor st (Dynamic_rigid_body (if N.eqb o0 h then o1 else o0)) k p
      | Dynamic_rigid_body _, rigid_body_static_body => grouping_add_pair st k
      | _, _ => st
      end
  end.

Definition visit (slices : Dynamic_object -> list nat) (st : Grouping) (handle : Dynamic_object)
  : Grouping :=
  fold_left (visit_neighbor_pair handle) (slices handle) st.

(** The [do ... while (++fringe_index != object_count())] loop. *)
Fixpoint find_neighbor_group_loop (slices : Dynamic_object -> list nat) (fuel : nat)
    (fringe_index : nat) (st : Grouping) : Simulate_error + (nat * Grouping) :=
  match fuel with
  | O => inl Loop_bound_exceeded
  | S fuel' =>
      let st :=
        match ng_objects (gr_storage st) !! fringe_index with
        | Some v => visit slices st v
        | None => st
        end in
      let fringe_index := S fringe_index in
      if Nat.eqb fringe_index (List.length (ng_objects (gr_storage st)))
      then inr (fringe_index, st)
      else find_neighbor_group_loop slices fuel' fringe_index st
  end.

(** The lambda [find_neighbor_group] on one seed; the fringe index is
    shared by all seeds. *)
Definition find_neighbor_group (slices : Dynamic_object -> list nat) (fuel : nat)
    (acc : nat * Grouping) (seed : Dynamic_object) : Simulate_error + (nat * Grouping) :=
  let '(fringe_index, st) := acc in
  if gr_marked st seed then inr (fringe_index, st)
  else find_neighbor_group_loop slices fuel fringe_index
         (grouping (gr_pairs st) (mark (gr_marked st) seed)
            (add_object_to_group (begin_group (gr_storage st)) seed)).

(** The live dynamic objects in the order of [_particles.for_each] then
    [_rigid_bodies.for_each]. *)
Definition dynamic_objects (w : World) : list Dynamic_object :=
  map Dynamic_particle (for_each_indices (particles w))
  ++ map Dynamic_rigid_body (for_each_indices (rigid_bodies w)).

(** [find_neighbor_groups]; every object is added at most once, so the
    loop of one group runs at most once per seed and pair endpoint. *)
Definition find_neighbor_groups (w : World) (pairs : list Neighbor_pair)
    (slices : Dynamic_object -> list nat)
  : Simulate_error + (list Neighbor_pair * Neighbor_group_storage) :=
  let seeds := dynamic_objects w in
  match fold_m (find_neighbor_group slices (List.length seeds + 2 * List.length pairs)) seeds
          (0%nat, grouping pairs (fun _ => false) (neighbor_group_storage [] [] [])) with
  | inl e => inl e
  | inr (_, st) => inr (gr_pairs st, gr_storage st)
  end.

(** *** Sleeping and waking (lines 2015-2109). *)

Definition object_awake_state (w : World) (o : Dynamic_object) : option (bool * Q) :=
  match o with
  | Dynamic_particle h =>
      (fun d => (p_awake d, p_waking_motion d)) <$> st_data (particles w) !! h
  | Dynamic_rigid_body h =>
      (fun d => (r_awake d, r_waking_motion d)) <$> st_data (rigid_bodies w) !! h
  end.

(** The scan loop, which stops once the group is known to be awake, not
    sleepable and to contain a sleeping object. *)
Fixpoint scan_neighbor_group (w : World) (objs : list Dynamic_object)
    (contains_awake contains_sleeping sleepable : bool) : bool * bool * bool :=
  match objs with
  | [] => (contains_awake, contains_sleeping, sleepable)
  | o :: objs' =>
      if sleepable || negb contains_awake || negb contains_sleeping then
        let '(contains_awake, contains_sleeping, sleepable) :=
          match object_awake_state w o with
          | Some (true, waking_motion) =>
              (true, contains_sleeping,
               if Qltb waking_motion_epsilon waking_motion then false else sleepable)
          | Some (false, _) => (contains_awake, true, sleepable)
          | None => (contains_awake, contains_sleeping, sleepable)
          end in
        scan_neighbor_group w objs' contains_awake contains_sleeping sleepable
      else (contains_awake, contains_sleeping, sleepable)
  end.

Definition sleep_particle (d : Particle_data) : Particle_data :=
  if p_awake d then
    particle_data (p_motion_callback d) (p_radius d) (p_inverse_mass d) (p_material d)
      (p_previous_position d) (p_position d) zero (p_waking_motion d) false
  else d.

Definition sleep_rigid_body (d : Rigid_body_data) : Rigid_body_data :=
  if r_awake d then
    rigid_body_data (r_motion_callback d) (r_shape d) (r_inverse_mass d)
      (r_inverse_inertia_tensor d) (r_material d) (r_previous_position d) (r_position d)
      zero (r_previous_orientation d) (r_orientation d) zero (r_waking_motion d) false
  else d.

Definition wake_particle (d : Particle_data) : Particle_data :=
  if p_awake d then d
  else particle_data (p_motion_callback d) (p_radius d) (p_inverse_mass d) (p_material d)
         (p_previous_position d) (p_position d) (p_velocity d) waking_motion_initializer true.

Definition wake_rigid_body (d : Rigid_body_data) : Rigid_body_data :=
  if r_awake d then d
  else rigid_body_data (r_motion_callback d) (r_shape d) (r_inverse_mass d)
         (r_inverse_inertia_tensor d) (r_material d) (r_previous_position d) (r_position d)
         (r_velocity d) (r_previous_orientation d) (r_orientation d)
         (r_angular_velocity d) waking_motion_initializer true.

Definition alter_object (fp : Particle_data -> Particle_data)
    (fr : Rigid_body_data -> Rigid_body_data) (w : World) (o : Dynamic_object) : World :=
  match o with
  | Dynamic_particle h => set_particles w (storage_alter fp h (particles w))
  | Dynamic_rigid_body h => set_rigid_bodies w (storage_alter fr h (rigid_bodies w))
  end.

Definition update_neighbor_group_awake_states (w : World) (objs : list Dynamic_object)
  : World * bool :=
  let '(contains_awake, contains_sleeping, sleepable) :=
    scan_neighbor_group w objs false false true in
  if contains_awake then
    if sleepable then (fold_left (alter_object sleep_particle sleep_rigid_body) objs w, false)
    else
      ((if contains_sleeping then fold_left (alter_object wake_particle wake_rigid_body) objs w
        else w), true)
  else (w, false).

(** *** Coloring (lines 497-549 and 2111-2182). *)

(** [_groups[c]] is a [(neighbor_pairs_begin, neighbor_pairs_end)] pair,
    zero until written. *)
Record Color_group_storage := color_group_storage {
  cg_neighbor_pairs : list (option nat);
  cg_groups : gmap N (nat * nat);
}.

Definition empty_color_group_storage : Color_group_storage := color_group_storage [] ∅.

Definition color_group_bounds (cg : Color_group_storage) (c : N) : nat * nat :=
  default (0%nat, 0%nat) (cg_groups cg !! c).

Definition count (cg : Color_group_storage) (c : N) : Color_group_storage :=
  let '(b, e) := color_group_bounds cg c in
  color_group_storage (cg_neighbor_pairs cg) (<[c := (b, S e)]> (cg_groups cg)).

(** [reserve]: the loop over the [max_colors] groups stops at the first
    group whose count is zero. *)
Fixpoint reserve_from (fuel : nat) (c : N) (cg : Color_group_storage) : Color_group_storage :=
  match fuel with
  | O => cg
  | S fuel' =>
      let '(_, e) := color_group_bounds cg c in
      if Nat.eqb e 0 then cg
      else
        let index := List.length (cg_neighbor_pairs cg) in
        reserve_from fuel' (N.succ c)
          (color_group_storage (cg_neighbor_pairs cg ++ replicate e None)
             (<[c := (index, index)]> (cg_groups cg)))
  end.

Definition reserve (cg : Color_group_storage) : Color_group_storage :=
  reserve_from (N.to_nat max_colors) 0 cg.

(** [push_back]: [_groups[color]] is out of range for a color that is not
    below [max_colors], and [_neighbor_pairs[end]] past the reserved
    entries. *)
Definition push_back (pairs : list Neighbor_pair) (cg : Color_group_storage) (k : nat)
  : Simulate_error + Color_group_storage :=
  match pairs !! k with
  | None => inl Undefined_behavior
  | Some p =>
      if N.ltb (color p) max_colors then
        let '(b, e) := color_group_bounds cg (color p) in
        if Nat.ltb e (List.length (cg_neighbor_pairs cg)) then
          inr (color_group_storage (<[e := Some k]> (cg_neighbor_pairs cg))
                 (<[color p := (b, S e)]> (cg_groups cg)))
        else inl Undefined_behavior
      else inl Undefined_behavior
  end.

(** [group(color)], its size and the dispatch loop of [simulate],
    [solve_positions] and [solve_velocities], which stops at the first
    empty color group. *)
Definition color_group (cg : Color_group_storage) (c : N) : list (option nat) :=
  let '(b, e) := color_group_bounds cg c in list_range b e (cg_neighbor_pairs cg).

Definition color_group_size (cg : Color_group_storage) (c : N) : nat :=
  let '(b, e) := color_group_bounds cg c in (e - b)%nat.

Fixpoint dispatch_colors_from (cg : Color_group_storage) (fuel : nat) (c : N) : list N :=
  match fuel with
  | O => []
  | S fuel' =>
      if Nat.eqb (color_group_size cg c) 0 then []
      else c :: dispatch_colors_from cg fuel' (N.succ c)
  end.

Definition dispatch_colors (cg : Color_group_storage) : list N :=
  dispatch_colors_from cg (N.to_nat max_colors) 0.

(** The handling of one neighbor in the coloring loop. *)
Definition color_neighbor (st : list Neighbor_pair * list nat * list N) (n : nat)
  : list Neighbor_pair * list nat * list N :=
  let '(pairs, fringe, bits) := st in
  match pairs !! n with
  | None => st
  | Some q =>
      if N.eqb (color q) color_unmarked then
        (alter (fun q => set_color q color_marked) n pairs, fringe ++ [n], bits)
      else if N.eqb (color q) color_marked then st
      else (pairs, fringe, color q :: bits)
  end.

(** The smallest [i] in [[start, start + fuel)] whose bit is not set. *)
Fixpoint find_unset_color (bits : list N) (start : N) (fuel : nat) : option N :=
  match fuel with
  | O => None
  | S fuel' =>
      if bool_decide (start ∈ bits) then find_unset_color bits (N.succ start) fuel'
      else Some start
  end.

(** One iteration of the [do ... while (!_coloring_fringe.empty())] loop. *)
Definition color_step (slices : Dynamic_object -> list nat)
    (st : list Neighbor_pair * list nat * Color_group_storage)
  : Simulate_error + (list Neighbor_pair * list nat * Color_group_storage) :=
  let '(pairs, fringe, cg) := st in
  match fringe with
  | [] => inl Undefined_behavior
  | k :: fringe' =>
      match pairs !! k with
      | None => inl Undefined_behavior
      | Some p =>
          let neighbors := concat (map slices (pair_dynamic_objects p)) in
          let '(pairs, fringe, bits) := fold_left color_neighbor neighbors (pairs, fringe', []) in
          match find_unset_color bits 0 (N.to_nat max_colors) with
          | Some c => inr (alter (fun q => set_color q c) k pairs, fringe, count cg c)
          | None => inl Coloring_exhausted
          end
      end
  end.

Fixpoint color_loop (slices : Dynamic_object -> list nat) (fuel : nat)
    (st : list Neighbor_pair * list nat * Color_group_storage)
  : Simulate_error + (list Neighbor_pair * Color_group_storage) :=
  match fuel with
  | O => inl Loop_bound_exceeded
  | S fuel' =>
      match color_step slices st with
      | inl e => inl e
      | inr (pairs, [], cg) => inr (pairs, cg)
      | inr st' => color_loop slices fuel' st'
      end
  end.

(** [color_neighbor_group]; a pair is put in the fringe only when its
    color goes from unmarked to marked, so the loop runs at most once per
    pair. *)
Definition color_neighbor_group (slices : Dynamic_object -> list nat)
    (ng : Neighbor_group_storage) (pairs : list Neighbor_pair) (cg : Color_group_storage)
    (j : nat) : Simulate_error + (list Neighbor_pair * Color_group_storage) :=
  let group_pairs := group_neighbor_pairs ng j in
  match group_pairs with
  | [] => inr (pairs, cg)
  | seed :: _ =>
      let pairs :=
        fold_left (fun pairs k => alter (fun q => set_color q color_unmarked) k pairs)
          group_pairs pairs in
      let pairs := alter (fun q => set_color q color_marked) seed pairs in
      color_loop slices (S (List.length pairs)) (pairs, [seed], cg)
  end.

(** The loop over the groups in [simulate]. *)
Definition update_and_color_group (slices : Dynamic_object -> list nat)
    (ng : Neighbor_group_storage)
    (st : World * list Neighbor_pair * list nat * Color_group_storage) (j : nat)
  : Simulate_error + (World * list Neighbor_pair * list nat * Color_group_storage) :=
  let '(w, pairs, awake_indices, cg) := st in
  let '(w, awake) := update_neighbor_group_awake_states w (group_objects ng j) in
  if awake then
    match color_neighbor_group slices ng pairs cg j with
    | inl e => inl e
    | inr (pairs, cg) => inr (w, pairs, awake_indices ++ [j], cg)
    end
  else inr (w, pairs, awake_indices, cg).

Definition update_and_color_groups (slices : Dynamic_object -> list nat)
    (ng : Neighbor_group_storage) (w : World) (pairs : list Neighbor_pair)
  : Simulate_error + (World * list Neighbor_pair * list nat * Color_group_storage) :=
  fold_m (update_and_color_group slices ng) (seq 0 (List.length (ng_groups ng)))
    (w, pairs, [], empty_color_group_storage).

Definition assign_color_groups (ng : Neighbor_group_storage) (pairs : list Neighbor_pair)
    (awake_indices : list nat) (cg : Color_group_storage)
  : Simulate_error + Color_group_storage :=
  fold_m (push_back pairs) (concat (map (group_neighbor_pairs ng) awake_indices)) cg.

(** The part of [simulate] before the substeps: the neighbor pairs of the
    overlapping leaves, their groups, the awake states, the coloring and
    the color groups. *)
Definition color_frame (w : World) (leaf_pairs : list (Object_handle * Object_handle))
  : Simulate_error
    + (World * list Neighbor_pair * Neighbor_group_storage * list nat * Color_group_storage) :=
  let pairs := find_neighbor_pairs leaf_pairs in
  let slices := assign_neighbor_pairs pairs in
  match find_neighbor_groups w pairs slices with
  | inl e => inl e
  | inr (pairs, ng) =>
      match update_and_color_groups slices ng w pairs with
      | inl e => inl e
      | inr (w, pairs, awake_indices, cg) =>
          match assign_color_groups ng pairs awake_indices (reserve cg) with
          | inl e => inl e
          | inr cg => inr (w, pairs, ng, awake_indices, cg)
          end
      end
  end.

(** *** Integration and velocity derivation (lines 2184-2248 and 2276-2303). *)

Definition integrate_particle (g : Vec3) (delta_time damping smoothing : Q)
    (d : Particle_data) : Particle_data :=
  let previous_position := p_position d in
  let velocity := vscale damping (vadd (p_velocity d) (vscale delta_time g)) in
  let position := vadd (p_position d) (vscale delta_time velocity) in
  let waking_motion :=
    Qmin ((1 - smoothing) * p_waking_motion d + smoothing * length_squared velocity)
         waking_motion_limit in
  particle_data (p_motion_callback d) (p_radius d) (p_inverse_mass d) (p_material d)
    previous_position position velocity waking_motion (p_awake d).

Definition derive_particle_velocity (inverse_delta_time : Q) (d : Particle_data)
  : Particle_data :=
  particle_data (p_motion_callback d) (p_radius d) (p_inverse_mass d) (p_material d)
    (p_previous_position d) (p_position d)
    (vscale inverse_delta_time (vsub (p_position d) (p_previous_position d)))
    (p_waking_motion d) (p_awake d).

Definition derive_rigid_body_velocity (inverse_delta_time : Q) (d : Rigid_body_data)
  : Rigid_body_data :=
  let velocity := vscale inverse_delta_time (vsub (r_position d) (r_previous_position d)) in
  let delta_orientation := qmul (r_orientation d) (conjugate (r_previous_orientation d)) in
  let angular_velocity := vscale inverse_delta_time (vscale 2 (qv delta_orientation)) in
  let angular_velocity :=
    vscale (if Qle_bool 0 (qw delta_orientation) then 1 else -1) angular_velocity in
  rigid_body_data (r_motion_callback d) (r_shape d) (r_inverse_mass d)
    (r_inverse_inertia_tensor d) (r_material d) (r_previous_position d) (r_position d)
    velocity (r_previous_orientation d) (r_orientation d) angular_velocity
    (r_waking_motion d) (r_awake d).

(** Over the objects of the awake groups, in the order of
    [_neighbor_group_awake_indices]. *)
Definition for_awake_objects (f : World -> Dynamic_object -> World)
    (ng : Neighbor_group_storage) (awake_indices : list nat) (w : World) : World :=
  fold_left (fun w j => fold_left f (group_objects ng j) w) awake_indices w.

(** *** The velocity solve on the world (lines 1172-1258). *)

Definition pair_object_handles (p : Neighbor_pair) : Object_handle * Object_handle :=
  let '(o0, o1) := objects p in
  match type p with
  | particle_particle => (Particle_handle o0, Particle_handle o1)
  | particle_rigid_body => (Particle_handle o0, Rigid_body_handle o1)
  | particle_static_body => (Particle_handle o0, Static_body_handle o1)
  | rigid_body_rigid_body => (Rigid_body_handle o0, Rigid_body_handle o1)
  | rigid_body_static_body => (Rigid_body_handle o0, Static_body_handle o1)
  end.

Definition object_data (w : World) (o : Object_handle) : option Object_data :=
  match o with
  | Particle_handle h => Particle_object <$> st_data (particles w) !! h
  | Static_body_handle h => Static_body_object <$> st_data (static_bodies w) !! h
  | Rigid_body_handle h => Rigid_body_object <$> st_data (rigid_bodies w) !! h
  end.

(** [apply_impulse] writes through the object's data pointer; the static
    overload does nothing. *)
Definition apply_impulse_to (w : World) (o : Object_handle) (I_inv : Mat3) (r impulse : Vec3)
  : World :=
  match o with
  | Particle_handle h =>
      set_particles w (storage_alter (fun d =>
        match apply_impulse (Particle_object d) I_inv r impulse with
        | Particle_object d' => d'
        | _ => d
        end) h (particles w))
  | Rigid_body_handle h =>
      set_rigid_bodies w (storage_alter (fun d =>
        match apply_impulse (Rigid_body_object d) I_inv r impulse with
        | Rigid_body_object d' => d'
        | _ => d
        end) h (rigid_bodies w))
  | Static_body_handle _ => w
  end.

Section Simulate.
Variable sqrt : Q -> Q.
(** [math::pow]. *)
Variable pow : Q -> Q -> Q.
(** The payload pairs of overlapping leaves, after [build_aabb_tree]. *)
Variable for_each_overlapping_leaf_pair : World -> Q -> list (Object_handle * Object_handle).
Variable particle_shape_positionful_contact_geometry :
  Vec3 -> Q -> Shape -> Mat3x4 -> Mat3x4 -> option Positionful_contact_geometry.
Variable particle_shape_positionless_contact_geometry :
  Vec3 -> Q -> Shape -> Mat3x4 -> Mat3x4 -> option Positionless_contact_geometry.
Variable shape_shape_contact_geometry :
  Shape -> Mat3x4 -> Mat3x4 -> Shape -> Mat3x4 -> Mat3x4 -> option Positionful_contact_geometry.

Definition integrate_object (g : Vec3) (delta_time damping smoothing : Q) (w : World)
    (o : Dynamic_object) : World :=
  alter_object (integrate_particle g delta_time damping smoothing)
    (fun d =>
       let velocity := vscale damping (vadd (r_velocity d) (vscale delta_time g)) in
       let angular_velocity := vscale damping (r_angular_velocity d) in
       let orientation :=
         qadd (r_orientation d)
           (qmul (quat 0 (vscale (1 / 2 * delta_time) angular_velocity)) (r_orientation d)) in
       let waking_motion :=
         Qmin ((1 - smoothing) * r_waking_motion d
               + smoothing * (length_squared velocity + length_squared angular_velocity))
              waking_motion_limit in
       rigid_body_data (r_motion_callback d) (r_shape d) (r_inverse_mass d)
         (r_inverse_inertia_tensor d) (r_material d) (r_position d)
         (vadd (r_position d) (vscale delta_time velocity)) velocity
         (r_orientation d) (qnormalize sqrt orientation) angular_velocity waking_motion
         (r_awake d))
    w o.

Definition derive_object_velocity (inverse_delta_time : Q) (w : World) (o : Dynamic_object)
  : World :=
  alter_object (derive_particle_velocity inverse_delta_time)
    (derive_rigid_body_velocity inverse_delta_time) w o.

(** **** The position solve on the world (lines 643-885). *)

Definition solve_neighbor_pair_pr (h0 h1 : N) (pd : Particle_data) (bd : Rigid_body_data)
  : option (Contact * list Position_update) :=
  let transform := rigid (r_position bd) (r_orientation bd) in
  match particle_shape_positionful_contact_geometry (p_position pd) (p_radius pd)
          (r_shape bd) transform (rigid_inverse transform) with
  | Some g =>
      let relative_position := vsub (pf_position g) (r_position bd) in
      let contact := mk_contact (pf_normal g) (zero, relative_position)
        (dot (vsub (p_velocity pd) (get_velocity (Rigid_body_object bd) relative_position))
             (pf_normal g)) 0 0 in
      Some (solve_contact_pr sqrt h0 h1 pd bd contact (pf_separation g))
  | None => None
  end.

Definition solve_neighbor_pair_ps (h0 : N) (pd : Particle_data) (sd : Static_body_data)
  : option (Contact * list Position_update) :=
  match particle_shape_positionless_contact_geometry (p_position pd) (p_radius pd)
          (s_shape sd) (s_transform sd) (s_inverse_transform sd) with
  | Some g =>
      let contact := mk_contact (pl_normal g) (zero, zero)
        (dot (p_velocity pd) (pl_normal g)) 0 0 in
      Some (solve_contact_ps sqrt h0 pd sd contact (pl_separation g))
  | None => None
  end.

Definition solve_neighbor_pair_rr (h0 h1 : N) (d0 d1 : Rigid_body_data)
  : option (Contact * list Position_update) :=
  let transform0 := rigid (r_position d0) (r_orientation d0) in
  let transform1 := rigid (r_position d1) (r_orientation d1) in
  match shape_shape_contact_geometry (r_shape d0) transform0 (rigid_inverse transform0)
          (r_shape d1) transform1 (rigid_inverse transform1) with
  | Some g =>
      let r0 := vsub (pf_position g) (r_position d0) in
      let r1 := vsub (pf_position g) (r_position d1) in
      let contact := mk_contact (pf_normal g) (r0, r1)
        (dot (vsub (get_velocity (Rigid_body_object d0) r0)
                   (get_velocity (Rigid_body_object d1) r1)) (pf_normal g)) 0 0 in
      Some (solve_contact_rr sqrt h0 h1 d0 d1 contact (pf_separation g))
  | None => None
  end.

Definition solve_neighbor_pair_rs (h0 : N) (bd : Rigid_body_data) (sd : Static_body_data)
  : option (Contact * list Position_update) :=
  let transform := rigid (r_position bd) (r_orientation bd) in
  match shape_shape_contact_geometry (r_shape bd) transform (rigid_inverse transform)
          (s_shape sd) (s_transform sd) (s_inverse_transform sd) with
  | Some g =>
      let r := vsub (pf_position g) (r_position bd) in
      let contact := mk_contact (pf_normal g) (r, zero)
        (dot (get_velocity (Rigid_body_object bd) r) (pf_normal g)) 0 0 in
      Some (solve_contact_rs sqrt h0 bd sd contact (pf_separation g))
  | None => None
  end.

Definition solve_neighbor_pair (w : World) (p : Neighbor_pair)
  : option (Contact * list Position_update) :=
  let '(o0, o1) := objects p in
  match type p with
  | particle_particle =>
      d0 ← st_data (particles w) !! o0; d1 ← st_data (particles w) !! o1;
      solve_neighbor_pair_pp sqrt o0 o1 d0 d1
  | particle_rigid_body =>
      d0 ← st_data (particles w) !! o0; d1 ← st_data (rigid_bodies w) !! o1;
      solve_neighbor_pair_pr o0 o1 d0 d1
  | particle_static_body =>
      d0 ← st_data (particles w) !! o0; d1 ← st_data (static_bodies w) !! o1;
      solve_neighbor_pair_ps o0 d0 d1
  | rigid_body_rigid_body =>
      d0 ← st_data (rigid_bodies w) !! o0; d1 ← st_data (rigid_bodies w) !! o1;
      solve_neighbor_pair_rr o0 o1 d0 d1
  | rigid_body_static_body =>
      d0 ← st_data (rigid_bodies w) !! o0; d1 ← st_data (static_bodies w) !! o1;
      solve_neighbor_pair_rs o0 d0 d1
  end.

Definition apply_position_update (w : World) (u : Position_update) : World :=
  match u with
  | Update_particle h dp =>
      set_particles w (storage_alter (fun d => update_particle_position d dp) h (particles w))
  | Update_rigid_body h dp dor =>
      set_rigid_bodies w
        (storage_alter (fun d => update_rigid_body_position sqrt d dp dor) h (rigid_bodies w))
  end.

(** [Position_solve_task::run] on one entry; [None] stands for the contact
    whose normal is set to zero. *)
Definition position_solve_entry (pairs : list Neighbor_pair)
    (acc : World * list (option Contact)) (entry : option nat)
  : World * list (option Contact) :=
  let '(w, contacts) := acc in
  match entry ≫= (fun k => pairs !! k) with
  | Some p =>
      match solve_neighbor_pair w p with
      | Some (contact, updates) => (fold_left apply_position_update updates w, contacts ++ [Some contact])
      | None => (w, contacts ++ [None])
      end
  | None => (w, contacts ++ [None])
  end.

(** [Velocity_solve_task::run] on one entry and its contact. *)
Definition velocity_solve_entry (inverse_delta_time threshold : Q)
    (pairs : list Neighbor_pair) (w : World) (entry : option nat * option Contact) : World :=
  match entry with
  | (Some k, Some contact) =>
      if veq (normal contact) zero then w
      else
        match pairs !! k with
        | None => w
        | Some p =>
            let '(o1, o2) := pair_object_handles p in
            match object_data w o1, object_data w o2 with
            | Some d1, Some d2 =>
                match velocity_solve_impulse sqrt inverse_delta_time threshold d1 d2 contact with
                | Some (I_inv_1, I_inv_2, impulse) =>
                    let '(r1, r2) := relative_positions contact in
                    apply_impulse_to (apply_impulse_to w o1 I_inv_1 r1 impulse)
                      o2 I_inv_2 r2 (vneg impulse)
                | None => w
                end
            | _, _ => w
            end
        end
  | _ => w
  end.

(** One substep: [integrate], [solve_positions], [derive_velocities],
    [solve_velocities]. *)
Definition substep (delta_time inverse_delta_time threshold damping smoothing : Q)
    (ng : Neighbor_group_storage) (awake_indices : list nat) (pairs : list Neighbor_pair)
    (entries : list (option nat)) (w : World) : World :=
  let w := for_awake_objects
             (integrate_object (gravitational_acceleration w) delta_time damping smoothing)
             ng awake_indices w in
  let '(w, contacts) := fold_left (position_solve_entry pairs) entries (w, []) in
  let w := for_awake_objects (derive_object_velocity inverse_delta_time) ng awake_indices w in
  fold_left (velocity_solve_entry inverse_delta_time threshold pairs) (combine entries contacts) w.

(** [World::Impl::simulate] (lines 1634-1699). *)
Definition simulate (w : World) (delta_time : Q) (substep_count : nat)
  : Simulate_error + World :=
  match color_frame w (for_each_overlapping_leaf_pair w delta_time) with
  | inl e => inl e
  | inr (w, pairs, ng, awake_indices, cg) =>
      let h := delta_time / inject_Z (Z.of_nat substep_count) in
      let h_inv := 1 / h in
      let threshold := 2 * length sqrt (gravitational_acceleration w) * h in
      let entries := concat (map (color_group cg) (dispatch_colors cg)) in
      let damping := pow velocity_damping_factor h in
      let smoothing := 1 - pow (1 - waking_motion_smoothing_factor) h in
      inr (Nat.iter substep_count
             (substep h h_inv threshold damping smoothing ng awake_indices pairs entries) w)
  end.

(** The world states reached from a new world by [create], by [destroy]
    of a live handle and by [simulate] calls that return. *)
Inductive reachable (create_info : World_create_info) : World -> Prop :=
| reachable_make : reachable create_info (make_world create_info)
| reachable_create_particle w ci h w' :
    reachable create_info w -> create_particle w ci = inr (h, w') -> reachable create_info w'
| reachable_create_rigid_body w ci h w' :
    reachable create_info w -> create_rigid_body w ci = inr (h, w') -> reachable create_info w'
| reachable_create_static_body w ci h w' :
    reachable create_info w -> create_static_body w ci = inr (h, w') -> reachable create_info w'
| reachable_destroy_particle w h :
    reachable create_info w -> occupied (particles w) h = true ->
    reachable create_info (destroy_particle w h)
| reachable_destroy_rigid_body w h :
    reachable create_info w -> occupied (rigid_bodies w) h = true ->
    reachable create_info (destroy_rigid_body w h)
| reachable_destroy_static_body w h :
    reachable create_info w -> occupied (static_bodies w) h = true ->
    reachable create_info (destroy_static_body w h)
| reachable_simulate w delta_time substep_count w' :
    reachable create_info w -> simulate w delta_time substep_count = inr w' ->
    reachable create_info w'.

End Simulate.

End World.

(** ** Concrete inputs for the arena and the world. *)
Module ArenaScenarios.
Import Arena.

(** The arena state after creating in a one-slot arena and then
    destroying the same handle twice and creating again. *)
Definition double_destroy_state : storage unit :=
  match create (make_storage 1) tt with
  | inr (h, s1) =>
      match create (destroy (destroy s1 h) h) tt with
      | inr (_, s2) => s2
      | inl _ => s1
      end
  | inl _ => make_storage 1
  end.

End ArenaScenarios.

Module WorldScenarios.
Import Arena Math Data Kernels World.

(** [math::pow] where it is exact: at an integer exponent. *)
Definition exact_pow (base exponent : Q) : Q :=
  if Pos.eqb (Qden exponent) 1 then Qpower base (Qnum exponent) else 1.

(** A broadphase that reports no overlapping leaves, and shape queries
    that find no contact. *)
Definition no_overlaps : World -> Q -> list (Object_handle * Object_handle) :=
  fun _ _ => [].
Definition no_positionful_contact :
  Vec3 -> Q -> Shape -> Mat3x4 -> Mat3x4 -> option Positionful_contact_geometry :=
  fun _ _ _ _ _ => None.
Definition no_positionless_contact :
  Vec3 -> Q -> Shape -> Mat3x4 -> Mat3x4 -> option Positionless_contact_geometry :=
  fun _ _ _ _ _ => None.
Definition no_shape_shape_contact :
  Shape -> Mat3x4 -> Mat3x4 -> Shape -> Mat3x4 -> Mat3x4 -> option Positionful_contact_geometry :=
  fun _ _ _ _ _ _ => None.

Definition plain : Material := material 0 0 0.

(** A unit particle at rest at the origin. *)
Definition resting_particle_info : Particle_create_info :=
  particle_create_info false 1 1 plain zero zero.

Definition unit_box_info : Static_body_create_info :=
  static_body_create_info (Box 1 1 1) plain zero (quat 1 zero).

Definition created (r : create_error + (N * World)) (w : World) : World :=
  match r with
  | inr (_, w') => w'
  | inl _ => w
  end.

(** A world without gravity holding one resting particle. *)
Definition lone_particle_world : World :=
  let w := make_world (world_create_info 1 1 1 zero) in
  created (create_particle w resting_particle_info) w.

Definition simulate_lone (w : World) (delta_time : Q) (substep_count : nat)
  : Simulate_error + World :=
  simulate exact_sqrt exact_pow no_overlaps no_positionful_contact
    no_positionless_contact no_shape_shape_contact w delta_time substep_count.

(** [lone_particle_world] after [simulate(1, 1)]. *)
Definition settled_world : World :=
  match simulate_lone lone_particle_world 1 1 with
  | inr w => w
  | inl _ => lone_particle_world
  end.

(** [settled_world] after [simulate(0, 1)]: its particle is asleep. *)
Definition slept_world : World :=
  match simulate_lone settled_world 0 1 with
  | inr w => w
  | inl _ => settled_world
  end.

(** Two particles and one static body. *)
Definition shared_ground_world : World :=
  let w := make_world (world_create_info 2 1 0 zero) in
  let w := created (create_particle w resting_particle_info) w in
  let w := created (create_particle w resting_particle_info) w in
  created (create_static_body w unit_box_info) w.

(** The broadphase reports both particles overlapping the static body. *)
Definition shared_ground_overlaps : list (Object_handle * Object_handle) :=
  [(Particle_handle 0, Static_body_handle 0); (Particle_handle 1, Static_body_handle 0)].

(** The coloring of [shared_ground_world] under [shared_ground_overlaps]. *)
Definition shared_ground_frame
  : World * list Neighbor_pair * Neighbor_group_storage * list nat * Color_group_storage :=
  match color_frame shared_ground_world shared_ground_overlaps with
  | inr r => r
  | inl _ => (shared_ground_world, [], neighbor_group_storage [] [] [], [],
              empty_color_group_storage)
  end.

Definition frame_world : World :=
  let '(w, _, _, _, _) := shared_ground_frame in w.
Definition frame_pairs : list Neighbor_pair :=
  let '(_, pairs, _, _, _) := shared_ground_frame in pairs.
Definition frame_groups : Neighbor_group_storage :=
  let '(_, _, ng, _, _) := shared_ground_frame in ng.
Definition frame_awake : list nat :=
  let '(_, _, _, aw, _) := shared_ground_frame in aw.
Definition frame_color_groups : Color_group_storage :=
  let '(_, _, _, _, cg) := shared_ground_frame in cg.

End WorldScenarios.

(** * Proofs *)

Module ArenaFacts.
Import Arena.

(** Free indices are exactly the slots whose occupancy bit is false, each
    listed once. *)
Definition arena_inv {T} (s : storage T) : Prop :=
  NoDup (st_free_indices s) /\
  forall h : N, h ∈ st_free_indices s <-> st_occupancy_bits s !! N.to_nat h = Some false.

Lemma init_free_indices_spec (size : nat) (h : N) :
  h ∈ init_free_indices size <-> (N.to_nat h < size)%nat.
Proof.
  unfold init_free_indices. rewrite list_elem_of_fmap. split.
  - intros (i & -> & Hi). apply elem_of_seq in Hi. lia.
  - intros Hh. exists (size - N.to_nat h - 1)%nat. split; [lia|].
    apply elem_of_seq. lia.
Qed.

Lemma init_free_indices_NoDup (size : nat) : NoDup (init_free_indices size).
Proof.
  unfold init_free_indices. apply NoDup_fmap_2_strong; [|apply NoDup_seq].
  intros x y Hx Hy E. apply elem_of_seq in Hx, Hy. lia.
Qed.

Lemma arena_inv_init {T} (n : nat) : arena_inv (make_storage (T:=T) n).
Proof.
  split; [apply init_free_indices_NoDup|]. intros h. simpl.
  rewrite init_free_indices_spec, lookup_replicate. split.
  - intros Hh. split; done.
  - intros [_ Hh]. done.
Qed.

Lemma last_Some_app {A} (l : list A) (x : A) :
  last l = Some x -> l = removelast l ++ [x].
Proof.
  intros H. induction l as [|a l IH]; [done|].
  destruct l as [|b l]; simpl in *.
  - by inversion H.
  - rewrite <- IH by done. reflexivity.
Qed.

Lemma arena_inv_create {T} (s : storage T) d h s' :
  arena_inv s -> create s d = inr (h, s') -> arena_inv s'.
Proof.
  unfold create. intros [Hnd Hfree] Hc.
  destruct (last (st_free_indices s)) as [index|] eqn:Hl; [|done].
  inversion Hc; subst; clear Hc. simpl.
  pose proof (last_Some_app _ _ Hl) as Hsplit.
  assert (Hin : h ∈ st_free_indices s).
  { rewrite Hsplit. apply elem_of_app. right. by apply list_elem_of_singleton. }
  pose proof (proj1 (Hfree h) Hin) as Hocc.
  assert (Hnd' : NoDup (removelast (st_free_indices s) ++ [h])) by (by rewrite <- Hsplit).
  apply NoDup_app in Hnd' as (Hnd1 & Hdis & _).
  split; [done|]. intros g. cbn [st_free_indices st_occupancy_bits st_data].
  destruct (decide (g = h)) as [->|Hne].
  - rewrite list_lookup_insert_eq by (by apply lookup_lt_Some in Hocc).
    split; [|done]. intros Hg. exfalso. apply (Hdis h Hg). by apply list_elem_of_singleton.
  - rewrite list_lookup_insert_ne by (intros E; apply Hne; lia).
    rewrite <- Hfree.
    transitivity (g ∈ removelast (st_free_indices s) ++ [h]); [|by rewrite <- Hsplit].
    rewrite elem_of_app, list_elem_of_singleton. naive_solver.
Qed.

Lemma arena_inv_destroy {T} (s : storage T) h :
  arena_inv s -> occupied s h = true -> arena_inv (destroy s h).
Proof.
  unfold occupied, destroy, arena_inv. intros [Hnd Hfree] Hocc. cbn [st_free_indices st_occupancy_bits st_data].
  destruct (st_occupancy_bits s !! N.to_nat h) as [b|] eqn:Hb; [|done]. subst b.
  assert (Hnotin : h ∉ st_free_indices s).
  { rewrite Hfree, Hb. done. }
  split.
  - apply NoDup_app. split; [done|]. split; [|apply NoDup_singleton].
    intros x Hx Hx'. apply list_elem_of_singleton in Hx'. subst. done.
  - intros g. rewrite elem_of_app, list_elem_of_singleton.
    destruct (decide (g = h)) as [->|Hne].
    + rewrite list_lookup_insert_eq by (by apply lookup_lt_Some in Hb). naive_solver.
    + rewrite list_lookup_insert_ne by (intros E; apply Hne; lia).
      rewrite <- Hfree. naive_solver.
Qed.

Lemma arena_inv_reachable {T} n (s : storage T) : reachable n s -> arena_inv s.
Proof.
  induction 1.
  - apply arena_inv_init.
  - eapply arena_inv_create; eauto.
  - by apply arena_inv_destroy.
Qed.

Lemma last_None {A} (l : list A) : last l = None <-> l = [].
Proof.
  split; [|by intros ->].
  induction l as [|a l IH]; [done|]. destruct l; simpl; [done|].
  intros H. specialize (IH H). done.
Qed.

Lemma full_iff_no_free {T} (s : storage T) :
  arena_inv s -> (st_free_indices s = [] <-> full s).
Proof.
  intros [_ Hfree]. unfold full. rewrite Forall_lookup. split.
  - intros Hnil i b Hi. destruct b; [done|].
    assert (N.of_nat i ∈ st_free_indices s) as Hin.
    { apply Hfree. by rewrite Nat2N.id. }
    rewrite Hnil in Hin. by apply not_elem_of_nil in Hin.
  - intros Hall. destruct (st_free_indices s) as [|h l]; [done|].
    exfalso. assert (h ∈ h :: l) as Hin by left.
    apply Hfree in Hin. apply Hall in Hin. done.
Qed.

End ArenaFacts.

Module ArenaClaims.
Import Arena ArenaFacts ArenaScenarios.

(** Claim C8 (as amended): in an arena reached from a fresh arena of
    capacity [n] by creates and by destroys of live handles, [create]
    fails exactly when all slots are occupied; otherwise it returns a slot
    that was unoccupied and is now occupied and holds the new data. *)
Theorem create_fails_iff_full {T} (n : nat) (s : storage T) (d : T) :
  reachable n s ->
  (create s d = inl Capacity_exceeded <-> full s) /\
  (forall h s', create s d = inr (h, s') ->
     occupied s h = false /\ occupied s' h = true /\ st_data s' !! h = Some d).
Proof.
  intros Hr. pose proof (arena_inv_reachable _ _ Hr) as Hinv.
  split.
  - rewrite <- full_iff_no_free by done. unfold create. rewrite <- last_None.
    destruct (last (st_free_indices s)); done.
  - intros h s' Hc. unfold create in Hc.
    destruct (last (st_free_indices s)) as [index|] eqn:Hl; [|done].
    inversion Hc; subst; clear Hc.
    destruct Hinv as [_ Hfree].
    assert (Hin : h ∈ st_free_indices s).
    { rewrite (last_Some_app _ _ Hl), elem_of_app. right. by apply list_elem_of_singleton. }
    apply Hfree in Hin. unfold occupied. cbn [st_occupancy_bits st_data].
    rewrite Hin, list_lookup_insert_eq by (by apply lookup_lt_Some in Hin).
    split; [done|]. split; [done|]. apply lookup_insert_eq.
Qed.

Lemma create_fails_iff_full_witness :
  reachable 1 (make_storage (T:=unit) 1) /\
  ((create (make_storage 1) tt = inl Capacity_exceeded <-> full (make_storage (T:=unit) 1)) /\
   (forall h s', create (make_storage 1) tt = inr (h, s') ->
      occupied (make_storage (T:=unit) 1) h = false /\ occupied s' h = true /\
      st_data s' !! h = Some tt)).
Proof.
  split; [apply reach_init|].
  apply (create_fails_iff_full 1 (make_storage 1) tt). apply reach_init.
Defined.

(** Claim C8 fails as stated: destroying a handle twice leaves its index
    twice on the free stack, so the one-slot arena is full (slot 0 is
    occupied) and still [create] succeeds, returning the occupied slot 0. *)
Lemma create_succeeds_on_full_arena :
  full double_destroy_state /\
  occupied double_destroy_state 0 = true /\
  exists s', create double_destroy_state tt = inr (0%N, s').
Proof.
  vm_compute. split; [repeat constructor|]. split; [reflexivity|].
  eexists. reflexivity.
Qed.

(** Claim C10 (arena level): [create] right after [destroy h] returns [h]. *)
Lemma create_after_destroy_storage {T} (s : storage T) (h : N) (d : T) :
  exists s', create (destroy s h) d = inr (h, s').
Proof.
  unfold create, destroy. cbn [st_free_indices]. rewrite last_snoc.
  eexists. reflexivity.
Qed.

End ArenaClaims.

Module KernelFacts.
Import Math Data Kernels FrictionSpec.

Lemma Qltb_iff (a b : Q) : Qltb a b = true <-> a < b.
Proof.
  unfold Qltb. rewrite negb_true_iff.
  split; intro H.
  - apply Qnot_le_lt. intro H'. apply Qle_bool_iff in H'. congruence.
  - destruct (Qle_bool b a) eqn:E; [|reflexivity].
    apply Qle_bool_iff in E. exfalso. apply (Qlt_not_le _ _ H E).
Qed.

Lemma Qltb_compat (a a' b b' : Q) : a == a' -> b == b' -> Qltb a b = Qltb a' b'.
Proof.
  intros Ha Hb. destruct (Qltb a b) eqn:E, (Qltb a' b') eqn:E'; try reflexivity.
  - apply Qltb_iff in E. rewrite Ha, Hb in E. apply Qltb_iff in E. congruence.
  - apply Qltb_iff in E'. rewrite <- Ha, <- Hb in E'. apply Qltb_iff in E'. congruence.
Qed.

Lemma Qpos_sum (a b : Q) : 0 < a -> 0 < b -> 0 < a + b.
Proof.
  intros Ha Hb. apply Qlt_trans with a; [assumption|].
  rewrite <- (Qplus_0_r a) at 1. apply Qplus_lt_r. assumption.
Qed.

Lemma half_sum_mean (a b l : Q) : 1 / 2 * (a + b) * l == mean a b * l.
Proof. unfold mean. field. Qed.

Lemma pr_friction (sqrt : Q -> Q) : pr_friction_rule sqrt.
Proof.
  intros h0 h1 pd bd c sep.
  cbv beta zeta delta [solve_contact_pr rotated_inverse_inertia_tensor friction_problem
    contact_point_movement particle_movement friction_accepted].
  cbn [set_lambda_n set_lambda_t normal relative_positions lambda_n lambda_t].
  destruct (delta_position _) as [dp0 dp1].
  destruct (veq _ zero); cbn [negb andb]; [reflexivity|].
  rewrite <- (Qltb_compat _ _ _ _ (Qeq_refl _) (half_sum_mean _ _ _)).
  destruct (Qltb _ _); reflexivity.
Qed.

Lemma ps_friction (sqrt : Q -> Q) : ps_friction_rule sqrt.
Proof.
  intros h0 pd sd c sep.
  cbv beta zeta delta [solve_contact_ps friction_problem particle_movement friction_accepted].
  cbn [set_lambda_n set_lambda_t normal relative_positions lambda_n lambda_t].
  destruct (veq _ zero); cbn [negb andb]; [reflexivity|].
  rewrite <- (Qltb_compat _ _ _ _ (Qeq_refl _) (half_sum_mean _ _ _)).
  destruct (Qltb _ _); reflexivity.
Qed.

Lemma rr_friction (sqrt : Q -> Q) : rr_friction_rule sqrt.
Proof.
  intros h0 h1 d0 d1 c sep.
  cbv beta zeta delta [solve_contact_rr rotated_inverse_inertia_tensor friction_problem
    contact_point_movement friction_accepted].
  destruct c as [n [r0 r1] vs ln lt].
  cbn [set_lambda_n set_lambda_t normal relative_positions lambda_n lambda_t fst snd].
  destruct (delta_position _) as [dp0 dp1].
  destruct (delta_orientation _) as [dor0 dor1].
  destruct (veq _ zero); cbn [negb andb]; [reflexivity|].
  rewrite <- (Qltb_compat _ _ _ _ (Qeq_refl _) (half_sum_mean _ _ _)).
  destruct (Qltb _ _); reflexivity.
Qed.

Lemma rs_friction (sqrt : Q -> Q) : rs_friction_rule sqrt.
Proof.
  intros h0 bd sd c sep.
  cbv beta zeta delta [solve_contact_rs rotated_inverse_inertia_tensor friction_problem
    contact_point_movement friction_accepted].
  cbn [set_lambda_n set_lambda_t normal relative_positions lambda_n lambda_t].
  destruct (veq _ zero); cbn [negb andb]; [reflexivity|].
  rewrite <- (Qltb_compat _ _ _ _ (Qeq_refl _) (half_sum_mean _ _ _)).
  destruct (Qltb _ _); reflexivity.
Qed.

Lemma veq_true (a b : Vec3) : x a == x b -> y a == y b -> z a == z b -> veq a b = true.
Proof.
  intros Hx Hy Hz. unfold veq.
  apply Qeq_bool_iff in Hx, Hy, Hz. now rewrite Hx, Hy, Hz.
Qed.

Lemma pp_no_friction : pp_no_friction_rule.
Proof.
  intros h0 h1 d0 d1 c sep. cbn. split; [reflexivity|].
  set (l := - sep * (1 / (p_inverse_mass d0 + p_inverse_mass d1))).
  exists (p_inverse_mass d0 * l), (- p_inverse_mass d1 * l).
  do 2 eexists. split; [reflexivity|].
  split; apply veq_true; cbn; ring.
Qed.

End KernelFacts.

Module KernelClaims.
Import Math Data Kernels FrictionSpec KernelScenarios KernelFacts.

(** C2 (corrected): in the velocity solve the restitution update is
    [n (-v_n + min(-e v_n0, 0))] with [v_n0] the separating velocity
    recorded at position-solve time, but the coefficient [e] is the mean of
    the two restitution coefficients exactly when the CURRENT separating
    velocity [v_n] (the one computed from the objects' velocities in the
    velocity solve) exceeds [2 |g| h] in absolute value, and 0 otherwise. *)
Theorem restitution_gated_on_current_velocity (sqrt : Q -> Q) (g : Vec3) (h : Q)
    (d1 d2 : Object_data) (c : Contact) :
  let v_n := dot (normal c) (vsub (get_velocity d1 (fst (relative_positions c)))
                                  (get_velocity d2 (snd (relative_positions c)))) in
  let threshold := 2 * length sqrt g * h in
  let e := if Qltb threshold (Qabs v_n)
           then mean (get_restitution_coefficient d1) (get_restitution_coefficient d2)
           else 0 in
  veq (get_restitution_velocity_update threshold d1 d2 c v_n)
      (vscale (- v_n + Qmin (- e * separating_velocity c) 0) (normal c)) = true.
Proof.
  intros v_n threshold e. unfold get_restitution_velocity_update, e.
  destruct (Qltb threshold (Qabs v_n)); apply veq_true; cbn;
    try reflexivity.
  all: unfold mean; apply Qmult_comp; try reflexivity;
       apply Qplus_comp; try reflexivity;
       apply Q.min_compat; try reflexivity; field.
Qed.

(** C2 counterexample: a particle at rest on a static body, whose contact
    recorded a separating velocity of 10 at position-solve time, with
    threshold [2 |g| h = 1]: the spec's [e] is the mean restitution 1 and its
    target velocity change is [-10 n], but the code gates on the current
    separating velocity 0, takes [e = 0], and applies no impulse. *)
Lemma restitution_gate_not_on_recorded_velocity :
  let d1 := Particle_object bouncy_particle in
  let d2 := Static_body_object bouncy_ground in
  let c := rebound_contact in
  let v_n := dot (normal c) (vsub (get_velocity d1 zero) (get_velocity d2 zero)) in
  Qltb unit_threshold (Qabs (separating_velocity c)) = true /\
  veq (vscale (- v_n + Qmin (- mean (get_restitution_coefficient d1)
                                     (get_restitution_coefficient d2) * separating_velocity c) 0)
              (normal c)) zero = false /\
  velocity_solve_impulse exact_sqrt 1 unit_threshold d1 d2 c = None.
Proof. vm_compute. repeat split. Qed.

(** C3 (corrected): for particle-rigid body, particle-static body, rigid
    body-rigid body and rigid body-static body pairs, a tangential correction
    along the tangential contact movement [t], of distance [|t|], is
    attempted when [t] is non-zero, and accepted ([lambda_t] set to its
    lambda, positions and orientations corrected) exactly when its lambda is
    below the mean static friction coefficient times [lambda_n]; otherwise
    only the separation correction is applied.  Particle-particle pairs never
    get a tangential correction: [lambda_t] is set to 0 and both particles
    move along the contact normal only. *)
Theorem static_friction_by_pair_kind (sqrt : Q -> Q) :
  pr_friction_rule sqrt /\ ps_friction_rule sqrt /\ rr_friction_rule sqrt /\
  rs_friction_rule sqrt /\ pp_no_friction_rule.
Proof.
  exact (conj (pr_friction sqrt) (conj (ps_friction sqrt) (conj (rr_friction sqrt)
    (conj (rs_friction sqrt) pp_no_friction)))).
Qed.

(** C3 counterexample: two unit particles in contact along X, one of which
    moved one unit along Y during the substep.  The tangential movement is
    non-zero and the friction correction's lambda 1/2 is below
    [mu_s lambda_n = 2 * 1/2], so the spec accepts it with [lambda_t = 1/2];
    the particle-particle [solve_contact] sets [lambda_t = 0]. *)
Lemma pp_pair_skips_static_friction :
  exists c updates,
    solve_neighbor_pair_pp exact_sqrt 0 1 sliding_particle resting_neighbor = Some (c, updates) /\
    let t := perp_unit (vsub (particle_movement sliding_particle)
                             (particle_movement resting_neighbor)) (normal c) in
    let fr := solve_positional_constraint
      (friction_problem exact_sqrt t (zero, zero) (1, 1) (mzero, mzero)) in
    friction_accepted t (delta_lambda fr) (mean 2 2) (lambda_n c) = true /\
    ~ (lambda_t c == delta_lambda fr).
Proof.
  do 2 eexists. split; [vm_compute; reflexivity|].
  vm_compute. split; [reflexivity|]. intro H. discriminate H.
Qed.

(** C5 (code bug): the particle-ball query divides the displacement by its
    length with no guard, so for a particle centred on the ball the reported
    normal is [0/0] per component (NaN in IEEE floats, 0 over [Q]) and never
    the +X axis, whatever [sqrt] returns. *)
Lemma ball_contact_at_centre_normal_not_x (sqrt : Q -> Q) :
  exists c, find_particle_contact_ball sqrt zero 1 1 zero = Some c /\
            veq (pc_normal c) (vec3 1 0 0) = false.
Proof. eexists. split; reflexivity. Qed.

(** C6: two particles with positive radii at the same position give one
    contact, with normal +X (unit length) and separation [-(r0 + r1)] < 0. *)
Theorem coincident_particles_separating_contact (sqrt : Q -> Q) (d0 d1 : Particle_data) :
  veq (p_position d0) (p_position d1) = true -> 0 < p_radius d0 -> 0 < p_radius d1 ->
  exists g, get_contact_geometry_pp sqrt d0 d1 = Some g /\
            length_squared (pl_normal g) == 1 /\ pl_separation g < 0.
Proof.
  intros Hp H0 H1. unfold get_contact_geometry_pp.
  destruct (p_position d0) as [x0 y0 z0], (p_position d1) as [x1 y1 z1].
  unfold veq in Hp; cbn in Hp.
  apply andb_prop in Hp as [Hp Hz]. apply andb_prop in Hp as [Hx Hy].
  apply Qeq_bool_iff in Hx, Hy, Hz.
  assert (Hd : length_squared (vsub (vec3 x0 y0 z0) (vec3 x1 y1 z1)) == 0).
  { unfold length_squared, dot, vsub; cbn. rewrite Hx, Hy, Hz. ring. }
  assert (Hs : 0 < p_radius d0 + p_radius d1) by (apply Qpos_sum; assumption).
  assert (Hc : 0 < (p_radius d0 + p_radius d1) * (p_radius d0 + p_radius d1))
    by (apply Qmult_lt_0_compat; assumption).
  cbv zeta.
  replace (Qltb _ _) with true.
  2:{ symmetry. apply Qltb_iff. rewrite Hd. exact Hc. }
  replace (Qeq_bool _ 0) with true.
  2:{ symmetry. apply Qeq_bool_iff. exact Hd. }
  eexists. split; [reflexivity|]. cbn [pl_normal pl_separation]. split; [reflexivity|].
  exact (Qopp_lt_compat 0 _ Hs).
Qed.

(** Witness of C6: particles of radii 1 and 2 at the origin. *)
Lemma coincident_particles_separating_contact_witness :
  veq (p_position (coincident_particle 1)) (p_position (coincident_particle 2)) = true /\
  exists g, get_contact_geometry_pp exact_sqrt (coincident_particle 1) (coincident_particle 2) = Some g /\
            length_squared (pl_normal g) == 1 /\ pl_separation g < 0.
Proof.
  split; [reflexivity|].
  apply (coincident_particles_separating_contact exact_sqrt);
    [reflexivity | vm_compute; reflexivity | vm_compute; reflexivity].
Defined.

End KernelClaims.


(** ** The world: coloring, sleeping and the substeps. *)

Module WorldFacts.
Import Arena Math Data Kernels World WorldScenarios.
Local Abbreviation length := List.length (only parsing).

(** Generic facts. *)
Lemma fold_m_inv {A B} (f : A -> B -> Simulate_error + A) (P : A -> Prop) l a a' :
  P a -> (forall b a1 a2, b ∈ l -> P a1 -> f a1 b = inr a2 -> P a2) ->
  fold_m f l a = inr a' -> P a'.
Proof.
  revert a. induction l as [|b l IH]; simpl; intros a Ha Hf Hr.
  - injection Hr as <-. exact Ha.
  - destruct (f a b) as [e|a1] eqn:E; [discriminate|].
    apply (IH a1); [eapply Hf; [left|exact Ha|exact E]| |exact Hr].
    intros; eapply Hf; [right|..]; eauto.
Qed.

Lemma fold_m_seq_inv {A} (f : A -> nat -> Simulate_error + A) (P : nat -> A -> Prop)
    start n a a' :
  P start a -> (forall j a1 a2, (start <= j < start + n)%nat -> P j a1 -> f a1 j = inr a2 -> P (S j) a2) ->
  fold_m f (seq start n) a = inr a' -> P (start + n)%nat a'.
Proof.
  revert start a. induction n as [|n IH]; simpl; intros start a Ha Hf Hr.
  - injection Hr as <-. rewrite Nat.add_0_r. exact Ha.
  - destruct (f a start) as [e|a1] eqn:E; [discriminate|].
    replace (start + S n)%nat with (S start + n)%nat by lia.
    apply (IH (S start) a1); [eapply Hf; [lia|exact Ha|exact E]| |exact Hr].
    intros; eapply Hf; [lia|..]; eauto.
Qed.

Definition real_color (c : N) : Prop := c <> color_unmarked /\ c <> color_marked.

Definition pair_key (p : Neighbor_pair) : (N * N) * Object_pair_type := (objects p, type p).

Lemma pair_key_set_color p c : pair_key (set_color p c) = pair_key p.
Proof. reflexivity. Qed.

Lemma pair_dynamic_objects_key p q :
  pair_key p = pair_key q -> pair_dynamic_objects p = pair_dynamic_objects q.
Proof. destruct p, q; unfold pair_key; simpl; intros [= -> ->]; reflexivity. Qed.

Lemma map_alter_invariant {A C} (f : A -> C) (g : A -> A) (i : nat) (l : list A) :
  (forall x, f (g x) = f x) -> map f (alter g i l) = map f l.
Proof.
  intros Hfg. revert i. induction l as [|x l IH]; intros [|i]; simpl; try reflexivity.
  - rewrite Hfg. reflexivity.
  - f_equal. apply IH.
Qed.

Lemma keys_lookup (l1 l2 : list Neighbor_pair) k p :
  map pair_key l1 = map pair_key l2 -> l2 !! k = Some p ->
  exists q, l1 !! k = Some q /\ pair_key q = pair_key p.
Proof.
  revert l2 k. induction l1 as [|x l1 IH]; intros l2 k Hk Hl.
  - destruct l2; [discriminate Hl|discriminate Hk].
  - destruct l2 as [|y l2]; [discriminate Hk|]. cbn [map] in Hk. pose proof (f_equal (hd (pair_key x)) Hk) as Hxy. apply (f_equal (@tl _)) in Hk. cbn [hd tl] in Hxy, Hk.
    destruct k as [|k]; simpl in Hl.
    + injection Hl as ->. exists x. split; [reflexivity|exact Hxy].
    + exact (IH l2 k Hk Hl).
Qed.

(** The spans of [assign_neighbor_pairs]. *)
Lemma assign_neighbor_pair_fold (s : Dynamic_object -> list nat) k0 ds d k :
  k ∈ fold_left (fun s d => assign_neighbor_pair s k0 d) ds s d <->
  k ∈ s d \/ (k = k0 /\ d ∈ ds).
Proof.
  revert s. induction ds as [|d0 ds IH]; intros s; simpl.
  - split; [tauto|]. intros [H|[_ H]]; [exact H|inversion H].
  - rewrite IH. unfold assign_neighbor_pair.
    destruct (decide (d = d0)) as [->|Hne].
    + rewrite elem_of_app, list_elem_of_singleton, elem_of_cons. intuition.
    + rewrite elem_of_cons. intuition.
Qed.

Lemma assign_neighbor_pairs_from_spec k0 pairs s d k :
  k ∈ assign_neighbor_pairs_from k0 pairs s d <->
  k ∈ s d \/ exists i p, pairs !! i = Some p /\ k = (k0 + i)%nat /\ d ∈ pair_dynamic_objects p.
Proof.
  revert k0 s. induction pairs as [|p pairs IH]; intros k0 s; simpl.
  - split; [tauto|]. intros [H|(i & p & Hi & _)]; [exact H|discriminate].
  - rewrite IH, assign_neighbor_pair_fold. split.
    + intros [[H|[-> Hd]]|(i & q & Hi & -> & Hd)].
      * left. exact H.
      * right. exists 0%nat, p. split; [reflexivity|]. split; [lia|exact Hd].
      * right. exists (S i), q. split; [exact Hi|]. split; [lia|exact Hd].
    + intros [H|(i & q & Hi & -> & Hd)]; [left; left; exact H|].
      destruct i as [|i]; simpl in Hi.
      * injection Hi as ->. left. right. split; [lia|exact Hd].
      * right. exists i, q. split; [exact Hi|]. split; [lia|exact Hd].
Qed.

Lemma assign_neighbor_pairs_spec pairs d k :
  k ∈ assign_neighbor_pairs pairs d <->
  exists p, pairs !! k = Some p /\ d ∈ pair_dynamic_objects p.
Proof.
  unfold assign_neighbor_pairs. rewrite assign_neighbor_pairs_from_spec. split.
  - intros [H|(i & p & Hi & -> & Hd)]; [inversion H|]. exists p. split; assumption.
  - intros (p & Hk & Hd). right. exists k, p. split; [exact Hk|]. split; [lia|exact Hd].
Qed.

(** Spans stay correct while the pairs' colors change. *)
Definition slices_of (slices : Dynamic_object -> list nat) (l : list Neighbor_pair) : Prop :=
  forall d k, k ∈ slices d <-> exists p, l !! k = Some p /\ d ∈ pair_dynamic_objects p.

Lemma slices_of_keys slices l1 l2 :
  slices_of slices l1 -> map pair_key l1 = map pair_key l2 -> slices_of slices l2.
Proof.
  unfold slices_of. intros Hs Hk d k. rewrite (Hs d k). split.
  - intros (p & Hp & Hd). destruct (keys_lookup l2 l1 k p (eq_sym Hk) Hp) as (q & Hq & Hpq).
    exists q. split; [exact Hq|]. rewrite (pair_dynamic_objects_key q p Hpq). exact Hd.
  - intros (p & Hp & Hd). destruct (keys_lookup l1 l2 k p Hk Hp) as (q & Hq & Hpq).
    exists q. split; [exact Hq|]. rewrite (pair_dynamic_objects_key q p Hpq). exact Hd.
Qed.

(** Neighbor group storages as lists of groups. *)
Abbreviation View := (list Dynamic_object * list nat)%type.

Fixpoint groups_of_views (ob pb : nat) (vs : list View) : list Group :=
  match vs with
  | [] => []
  | (os, ps) :: vs' =>
      group ob (ob + length os) pb (pb + length ps)
      :: groups_of_views (ob + length os) (pb + length ps) vs'
  end.

Definition view_objects (vs : list View) : list Dynamic_object := concat (map fst vs).
Definition view_pairs (vs : list View) : list nat := concat (map snd vs).

Definition storage_of_views (vs : list View) : Neighbor_group_storage :=
  neighbor_group_storage (view_objects vs) (view_pairs vs) (groups_of_views 0 0 vs).

Lemma length_groups_of_views ob pb vs : length (groups_of_views ob pb vs) = length vs.
Proof.
  revert ob pb. induction vs as [|[os ps] vs IH]; intros ob pb; simpl; [reflexivity|].
  rewrite IH. reflexivity.
Qed.

Lemma groups_of_views_snoc ob pb vs os ps :
  groups_of_views ob pb (vs ++ [(os, ps)]) =
  groups_of_views ob pb vs ++
  [group (ob + length (view_objects vs)) (ob + length (view_objects vs) + length os)
         (pb + length (view_pairs vs)) (pb + length (view_pairs vs) + length ps)].
Proof.
  unfold view_objects, view_pairs.
  revert ob pb. induction vs as [|[os' ps'] vs IH]; intros ob pb; simpl.
  - rewrite !Nat.add_0_r. reflexivity.
  - rewrite IH, !length_app. do 3 f_equal. f_equal; lia.
Qed.

Lemma alter_snoc {A} (f : A -> A) (l : list A) (a : A) :
  alter f (length l) (l ++ [a]) = l ++ [f a].
Proof. induction l as [|b l IH]; simpl; [reflexivity|]. f_equal. exact IH. Qed.

Lemma begin_group_views vs :
  begin_group (storage_of_views vs) = storage_of_views (vs ++ [([], [])]).
Proof.
  unfold begin_group, storage_of_views. simpl.
  rewrite groups_of_views_snoc. unfold view_objects, view_pairs.
  rewrite !map_app, !concat_app. simpl. rewrite !app_nil_r, !Nat.add_0_r. reflexivity.
Qed.

Lemma add_object_to_group_views vs os ps d :
  add_object_to_group (storage_of_views (vs ++ [(os, ps)])) d =
  storage_of_views (vs ++ [(os ++ [d], ps)]).
Proof.
  unfold add_object_to_group, storage_of_views, alter_back. simpl.
  rewrite !groups_of_views_snoc. unfold view_objects, view_pairs.
  rewrite !map_app, !concat_app. simpl. rewrite !app_nil_r, !app_assoc.
  rewrite length_app, length_groups_of_views. simpl.
  rewrite Nat.add_1_r, Nat.pred_succ, <- (length_groups_of_views 0 0 vs).
  rewrite alter_snoc. simpl. rewrite length_app. simpl.
  do 3 f_equal. f_equal; lia.
Qed.

Lemma add_pair_to_group_views vs os ps k :
  add_pair_to_group (storage_of_views (vs ++ [(os, ps)])) k =
  storage_of_views (vs ++ [(os, ps ++ [k])]).
Proof.
  unfold add_pair_to_group, storage_of_views, alter_back. simpl.
  rewrite !groups_of_views_snoc. unfold view_objects, view_pairs.
  rewrite !map_app, !concat_app. simpl. rewrite !app_nil_r, !app_assoc.
  rewrite length_app, length_groups_of_views. simpl.
  rewrite Nat.add_1_r, Nat.pred_succ, <- (length_groups_of_views 0 0 vs).
  rewrite alter_snoc. simpl. rewrite length_app. simpl.
  do 3 f_equal. f_equal; lia.
Qed.

Lemma list_range_app_l {A} (pre l rest : list A) :
  list_range (length pre) (length pre + length l) (pre ++ l ++ rest) = l.
Proof.
  unfold list_range. rewrite drop_app_length.
  replace (length pre + length l - length pre)%nat with (length l) by lia.
  apply take_app_length.
Qed.

Lemma groups_of_views_lookup vs : forall ob pb pre_o pre_p j,
  length pre_o = ob -> length pre_p = pb ->
  match groups_of_views ob pb vs !! j with
  | Some g =>
      exists os ps, vs !! j = Some (os, ps) /\
      list_range (objects_begin g) (objects_end g) (pre_o ++ view_objects vs) = os /\
      list_range (neighbor_pairs_begin g) (neighbor_pairs_end g) (pre_p ++ view_pairs vs) = ps
  | None => vs !! j = None
  end.
Proof.
  unfold view_objects, view_pairs.
  induction vs as [|[os ps] vs IH]; intros ob pb pre_o pre_p j Ho Hp; simpl.
  - destruct j; reflexivity.
  - destruct j as [|j]; simpl.
    + exists os, ps. split; [reflexivity|]. subst. split; apply list_range_app_l.
    + specialize (IH (ob + length os)%nat (pb + length ps)%nat (pre_o ++ os) (pre_p ++ ps) j).
      rewrite !length_app, Ho, Hp, <- !app_assoc in IH. apply IH; reflexivity.
Qed.

Lemma group_objects_views vs j :
  group_objects (storage_of_views vs) j = default [] (fst <$> vs !! j).
Proof.
  unfold group_objects, storage_of_views. cbn [ng_groups ng_objects].
  pose proof (groups_of_views_lookup vs 0 0 [] [] j eq_refl eq_refl) as H.
  destruct (groups_of_views 0 0 vs !! j) as [g|].
  - destruct H as (os & ps & Hj & Ho & _). rewrite Hj. exact Ho.
  - rewrite H. reflexivity.
Qed.

Lemma group_neighbor_pairs_views vs j :
  group_neighbor_pairs (storage_of_views vs) j = default [] (snd <$> vs !! j).
Proof.
  unfold group_neighbor_pairs, storage_of_views. cbn [ng_groups ng_neighbor_pairs].
  pose proof (groups_of_views_lookup vs 0 0 [] [] j eq_refl eq_refl) as H.
  destruct (groups_of_views 0 0 vs !! j) as [g|].
  - destruct H as (os & ps & Hj & _ & Ho). rewrite Hj. exact Ho.
  - rewrite H. reflexivity.
Qed.

Lemma view_objects_app vs1 vs2 : view_objects (vs1 ++ vs2) = view_objects vs1 ++ view_objects vs2.
Proof. unfold view_objects. rewrite map_app, concat_app. reflexivity. Qed.

Lemma view_pairs_app vs1 vs2 : view_pairs (vs1 ++ vs2) = view_pairs vs1 ++ view_pairs vs2.
Proof. unfold view_pairs. rewrite map_app, concat_app. reflexivity. Qed.

Lemma view_objects_snoc vs os ps : view_objects (vs ++ [(os, ps)]) = view_objects vs ++ os.
Proof. rewrite view_objects_app. unfold view_objects at 2. simpl. rewrite app_nil_r. reflexivity. Qed.

Lemma view_pairs_snoc vs os ps : view_pairs (vs ++ [(os, ps)]) = view_pairs vs ++ ps.
Proof. rewrite view_pairs_app. unfold view_pairs at 2. simpl. rewrite app_nil_r. reflexivity. Qed.

Lemma elem_of_view_objects vs d :
  d ∈ view_objects vs <-> exists i os ps, vs !! i = Some (os, ps) /\ d ∈ os.
Proof.
  unfold view_objects. induction vs as [|[os ps] vs IH]; simpl.
  - split; [intros H; inversion H|]. intros (i & os & ps & Hi & _). destruct i; discriminate.
  - rewrite elem_of_app, IH. split.
    + intros [H|(i & os' & ps' & Hi & H)]; [exists 0%nat, os, ps; auto|].
      exists (S i), os', ps'. auto.
    + intros ([|i] & os' & ps' & Hi & H); simpl in Hi.
      * injection Hi as -> ->. left. exact H.
      * right. exists i, os', ps'. auto.
Qed.

Lemma elem_of_view_pairs vs k :
  k ∈ view_pairs vs <-> exists i os ps, vs !! i = Some (os, ps) /\ k ∈ ps.
Proof.
  unfold view_pairs. induction vs as [|[os ps] vs IH]; simpl.
  - split; [intros H; inversion H|]. intros (i & os & ps & Hi & _). destruct i; discriminate.
  - rewrite elem_of_app, IH. split.
    + intros [H|(i & os' & ps' & Hi & H)]; [exists 0%nat, os, ps; auto|].
      exists (S i), os', ps'. auto.
    + intros ([|i] & os' & ps' & Hi & H); simpl in Hi.
      * injection Hi as -> ->. left. exact H.
      * right. exists i, os', ps'. auto.
Qed.

Lemma view_objects_unique vs i j os ps os' ps' d :
  NoDup (view_objects vs) -> vs !! i = Some (os, ps) -> vs !! j = Some (os', ps') ->
  d ∈ os -> d ∈ os' -> i = j.
Proof.
  unfold view_objects. revert i j. induction vs as [|[os0 ps0] vs IH]; intros i j Hnd Hi Hj Hd Hd'.
  - destruct i; discriminate.
  - simpl in Hnd. apply NoDup_app in Hnd as (_ & Hdis & Hnd).
    destruct i as [|i], j as [|j]; simpl in Hi, Hj; try reflexivity.
    + injection Hi as -> ->. exfalso. apply (Hdis d Hd).
      apply elem_of_view_objects. exists j, os', ps'. auto.
    + injection Hj as -> ->. exfalso. apply (Hdis d Hd').
      apply elem_of_view_objects. exists i, os, ps. auto.
    + f_equal. eapply IH; eauto.
Qed.

(** The object at a position of the current group belongs to it; one
    before it belongs to an earlier group. *)
Lemma view_objects_snoc_lookup done os ps n d :
  view_objects (done ++ [(os, ps)]) !! n = Some d ->
  (length (view_objects done) <= n)%nat -> d ∈ os.
Proof.
  rewrite view_objects_snoc. intros Hn Hle. rewrite lookup_app_r in Hn by exact Hle.
  eapply list_elem_of_lookup_2. exact Hn.
Qed.

Lemma view_objects_position vs d :
  d ∈ view_objects vs -> exists n, view_objects vs !! n = Some d /\ (n < length (view_objects vs))%nat.
Proof.
  intros H. apply list_elem_of_lookup in H as (n & Hn). exists n. split; [exact Hn|].
  eapply lookup_lt_Some. exact Hn.
Qed.

Lemma pair_dynamic_objects_nonempty p : exists d, d ∈ pair_dynamic_objects p.
Proof.
  destruct p as [[o0 o1] t c]. unfold pair_dynamic_objects. simpl.
  destruct t; eexists; left.
Qed.

Lemma visit_neighbor_pair_cases st h k p :
  gr_pairs st !! k = Some p -> h ∈ pair_dynamic_objects p ->
  (visit_neighbor_pair h st k = grouping_add_pair st k /\ pair_dynamic_objects p = [h]) \/
  (exists n, n ∈ pair_dynamic_objects p /\
     (forall d, d ∈ pair_dynamic_objects p -> d = h \/ d = n) /\
     visit_neighbor_pair h st k = visit_neighbor st n k p).
Proof.
  intros Hk Hh. unfold visit_neighbor_pair. rewrite Hk.
  destruct p as [[o0 o1] t c]. unfold pair_dynamic_objects in *. cbn [objects type] in *.
  destruct h as [h|h], t; rewrite ?elem_of_cons, ?elem_of_nil in Hh.
  - right. destruct (N.eqb_spec o0 h) as [->|Hne].
    + exists (Dynamic_particle o1). rewrite !elem_of_cons, elem_of_nil.
      split; [tauto|]. split; [|reflexivity]. intros d. rewrite !elem_of_cons, elem_of_nil. tauto.
    + exists (Dynamic_particle o0). rewrite !elem_of_cons, elem_of_nil.
      split; [tauto|]. split; [|reflexivity]. intros d. rewrite !elem_of_cons, elem_of_nil.
      intuition congruence.
  - right. exists (Dynamic_rigid_body o1). rewrite !elem_of_cons, elem_of_nil.
    split; [tauto|]. split; [|reflexivity]. intros d. rewrite !elem_of_cons, elem_of_nil.
    intuition congruence.
  - left. split; [reflexivity|]. destruct Hh as [[= ->]|[]]. reflexivity.
  - exfalso. intuition congruence.
  - exfalso. intuition congruence.
  - exfalso. intuition congruence.
  - right. exists (Dynamic_particle o0). rewrite !elem_of_cons, elem_of_nil.
    split; [tauto|]. split; [|reflexivity]. intros d. rewrite !elem_of_cons, elem_of_nil.
    intuition congruence.
  - exfalso. intuition congruence.
  - right. destruct (N.eqb_spec o0 h) as [->|Hne].
    + exists (Dynamic_rigid_body o1). rewrite !elem_of_cons, elem_of_nil.
      split; [tauto|]. split; [|reflexivity]. intros d. rewrite !elem_of_cons, elem_of_nil. tauto.
    + exists (Dynamic_rigid_body o0). rewrite !elem_of_cons, elem_of_nil.
      split; [tauto|]. split; [|reflexivity]. intros d. rewrite !elem_of_cons, elem_of_nil.
      intuition congruence.
  - left. split; [reflexivity|]. destruct Hh as [[= ->]|[]]. reflexivity.
Qed.

Section Grouping_invariant.
Variable slices : Dynamic_object -> list nat.
Variable pairs0 : list Neighbor_pair.
Hypothesis slices_pairs0 : slices_of slices pairs0.

Definition visited (vs : list View) (fi : nat) (d : Dynamic_object) : Prop :=
  exists n, view_objects vs !! n = Some d /\ (n < fi)%nat.

Record bfs_inv (st : Grouping) (fi : nat) (vs : list View) : Prop := {
  bi_storage : gr_storage st = storage_of_views vs;
  bi_marked : forall d, gr_marked st d = true <-> d ∈ view_objects vs;
  bi_nodup : NoDup (view_objects vs);
  bi_keys : map pair_key (gr_pairs st) = map pair_key pairs0;
  bi_colors : forall k p, gr_pairs st !! k = Some p ->
    color p = color_unmarked \/ color p = color_marked;
  bi_marked_pairs : forall k p, gr_pairs st !! k = Some p -> color p = color_marked ->
    k ∈ view_pairs vs;
  bi_pairs_in : forall i os ps k, vs !! i = Some (os, ps) -> k ∈ ps ->
    exists p, gr_pairs st !! k = Some p /\
      forall d, d ∈ pair_dynamic_objects p -> d ∈ os;
  bi_closed : forall i os ps d k, vs !! i = Some (os, ps) -> d ∈ os -> visited vs fi d ->
    k ∈ slices d -> k ∈ ps;
  bi_fringe : (fi <= length (view_objects vs))%nat;
}.

Lemma bfs_inv_slices st fi vs : bfs_inv st fi vs -> slices_of slices (gr_pairs st).
Proof. intros Hi. eapply slices_of_keys; [exact slices_pairs0|]. symmetry. apply (bi_keys _ _ _ Hi). Qed.

(** While the object [h] at position [fi] of the current group is visited. *)
Definition visiting (st : Grouping) (fi : nat) (done : list View) (os : list Dynamic_object)
    (ps : list nat) (h : Dynamic_object) : Prop :=
  bfs_inv st fi (done ++ [(os, ps)]) /\ (length (view_objects done) <= fi)%nat /\
  view_objects (done ++ [(os, ps)]) !! fi = Some h.

Lemma lookup_snoc_last {A} (l : list A) (a : A) : (l ++ [a]) !! length l = Some a.
Proof. rewrite lookup_app_r by lia. rewrite Nat.sub_diag. reflexivity. Qed.

Lemma lookup_snoc_Some {A} (l : list A) (a b : A) i :
  (l ++ [a]) !! i = Some b -> (l !! i = Some b /\ (i < length l)%nat) \/ (i = length l /\ b = a).
Proof.
  intros H. destruct (decide (i < length l)%nat) as [Hlt|Hge].
  - left. rewrite lookup_app_l in H by exact Hlt. auto.
  - right. rewrite lookup_app_r in H by lia.
    destruct (i - length l)%nat as [|m] eqn:E; simpl in H; [|destruct m; discriminate].
    injection H as ->. split; [lia|reflexivity].
Qed.

(** The current group is the last one. *)
Lemma current_group_index done os ps i os' ps' d :
  NoDup (view_objects (done ++ [(os, ps)])) ->
  (done ++ [(os, ps)]) !! i = Some (os', ps') -> d ∈ os' -> d ∈ os ->
  i = length done /\ os' = os /\ ps' = ps.
Proof.
  intros Hnd Hi Hd' Hd.
  pose proof (view_objects_unique _ _ _ _ _ _ _ d Hnd Hi (lookup_snoc_last done (os, ps)) Hd' Hd) as ->.
  rewrite lookup_snoc_last in Hi. injection Hi as -> ->. auto.
Qed.

(** An object of an earlier group has been visited. *)
Lemma earlier_group_visited done os ps fi i os' ps' d :
  (length (view_objects done) <= fi)%nat ->
  (done ++ [(os, ps)]) !! i = Some (os', ps') -> (i < length done)%nat -> d ∈ os' ->
  visited (done ++ [(os, ps)]) fi d.
Proof.
  intros Hfi Hi Hlt Hd.
  rewrite lookup_app_l in Hi by exact Hlt.
  assert (Hdone : d ∈ view_objects done) by (apply elem_of_view_objects; eauto).
  apply list_elem_of_lookup in Hdone as (n & Hn).
  exists n. split.
  - rewrite view_objects_snoc. apply lookup_app_l_Some. exact Hn.
  - apply lookup_lt_Some in Hn. lia.
Qed.

Lemma visited_snoc_objects done os ps ext ps' fi d :
  (fi <= length (view_objects (done ++ [(os, ps)])))%nat ->
  visited (done ++ [(os ++ ext, ps')]) fi d <-> visited (done ++ [(os, ps)]) fi d.
Proof.
  rewrite !view_objects_snoc. intros Hfi. unfold visited. rewrite !view_objects_snoc.
  split; intros (n & Hn & Hlt); exists n; split; try exact Hlt.
  - rewrite app_assoc, lookup_app_l in Hn by (rewrite length_app in *; lia). exact Hn.
  - rewrite app_assoc. apply lookup_app_l_Some. exact Hn.
Qed.

Lemma inv_add_pair st fi done os ps k p :
  bfs_inv st fi (done ++ [(os, ps)]) -> gr_pairs st !! k = Some p ->
  (forall d, d ∈ pair_dynamic_objects p -> d ∈ os) ->
  bfs_inv (grouping_add_pair st k) fi (done ++ [(os, ps ++ [k])]).
Proof.
  intros [Hs Hm Hnd Hk Hc Hmp Hpi Hcl Hfi] Hkp Hdyn.
  assert (Hobj : view_objects (done ++ [(os, ps ++ [k])]) = view_objects (done ++ [(os, ps)]))
    by (rewrite !view_objects_snoc; reflexivity).
  split; unfold grouping_add_pair; cbn [gr_pairs gr_marked gr_storage]; rewrite ?Hobj.
  - rewrite Hs, add_pair_to_group_views. reflexivity.
  - exact Hm.
  - exact Hnd.
  - exact Hk.
  - exact Hc.
  - intros k' p' Hk' Hc'. rewrite view_pairs_snoc, elem_of_app.
    specialize (Hmp k' p' Hk' Hc'). rewrite view_pairs_snoc, elem_of_app in Hmp. rewrite elem_of_app. tauto.
  - intros i os' ps' k' Hi Hk'. apply lookup_snoc_Some in Hi as [[Hi Hlt]|[-> [= -> ->]]].
    + apply (Hpi i os' ps' k'); [rewrite lookup_app_l by exact Hlt; exact Hi|exact Hk'].
    + rewrite elem_of_app, list_elem_of_singleton in Hk'. destruct Hk' as [Hk'| ->].
      * apply (Hpi (length done) os ps k'); [apply lookup_snoc_last|exact Hk'].
      * exists p. auto.
  - intros i os' ps' d k' Hi Hd Hv Hk'.
    unfold visited in Hv. rewrite Hobj in Hv.
    apply lookup_snoc_Some in Hi as [[Hi Hlt]|[-> [= -> ->]]].
    + apply (Hcl i os' ps' d k'); [rewrite lookup_app_l by exact Hlt; exact Hi|exact Hd|exact Hv|exact Hk'].
    + rewrite elem_of_app. left.
      apply (Hcl (length done) os ps d k'); [apply lookup_snoc_last|exact Hd|exact Hv|exact Hk'].
  - exact Hfi.
Qed.


Lemma inv_add_object st fi done os ps n :
  bfs_inv st fi (done ++ [(os, ps)]) -> gr_marked st n = false ->
  bfs_inv (grouping (gr_pairs st) (mark (gr_marked st) n) (add_object_to_group (gr_storage st) n))
    fi (done ++ [(os ++ [n], ps)]).
Proof.
  intros [Hs Hm Hnd Hk Hc Hmp Hpi Hcl Hfi] Hn.
  assert (Hnot : n ∉ view_objects (done ++ [(os, ps)])).
  { intros Hin. apply Hm in Hin. congruence. }
  assert (Hobj : view_objects (done ++ [(os ++ [n], ps)]) = view_objects (done ++ [(os, ps)]) ++ [n])
    by (rewrite !view_objects_snoc, app_assoc; reflexivity).
  assert (Hpairs : view_pairs (done ++ [(os ++ [n], ps)]) = view_pairs (done ++ [(os, ps)]))
    by (rewrite !view_pairs_snoc; reflexivity).
  split; cbn [gr_pairs gr_marked gr_storage].
  - rewrite Hs, add_object_to_group_views. reflexivity.
  - intros d. unfold mark. rewrite Hobj, elem_of_app, list_elem_of_singleton, <- Hm.
    destruct (decide (d = n)); intuition congruence.
  - rewrite Hobj. apply NoDup_app. split; [exact Hnd|]. split; [|apply NoDup_singleton].
    intros x Hx Hx'. apply list_elem_of_singleton in Hx' as ->. contradiction.
  - exact Hk.
  - exact Hc.
  - intros k p Hkp Hcp. rewrite Hpairs. eauto.
  - intros i os' ps' k Hi Hk'. apply lookup_snoc_Some in Hi as [[Hi Hlt]|[-> [= -> ->]]].
    + apply (Hpi i os' ps' k); [rewrite lookup_app_l by exact Hlt; exact Hi|exact Hk'].
    + destruct (Hpi (length done) os ps k (lookup_snoc_last _ _) Hk') as (p & Hp & Hd).
      exists p. split; [exact Hp|]. intros d Hd'. apply elem_of_app. left. auto.
  - intros i os' ps' d k Hi Hd Hv Hk'.
    apply (visited_snoc_objects done os ps [n] ps fi d Hfi) in Hv.
    apply lookup_snoc_Some in Hi as [[Hi Hlt]|[-> [= -> ->]]].
    + apply (Hcl i os' ps' d k); [rewrite lookup_app_l by exact Hlt; exact Hi|exact Hd|exact Hv|exact Hk'].
    + apply elem_of_app in Hd as [Hd|Hd].
      * apply (Hcl (length done) os ps d k); [apply lookup_snoc_last|exact Hd|exact Hv|exact Hk'].
      * apply list_elem_of_singleton in Hd as ->. exfalso. apply Hnot.
        destruct Hv as (m & Hm' & _). eapply list_elem_of_lookup_2. exact Hm'.
  - rewrite Hobj, length_app. lia.
Qed.

Lemma lookup_alter_set_color (l : list Neighbor_pair) k c k' p' :
  alter (fun q => set_color q c) k l !! k' = Some p' ->
  exists p, l !! k' = Some p /\ pair_dynamic_objects p' = pair_dynamic_objects p /\
    ((k' = k /\ p' = set_color p c) \/ (k' <> k /\ p' = p)).
Proof.
  intros H. rewrite list_lookup_alter in H. destruct (decide (k = k')) as [->|Hne].
  - destruct (l !! k') as [p|] eqn:E; [|discriminate]. injection H as <-.
    exists p. split; [reflexivity|]. split; [apply pair_dynamic_objects_key; reflexivity|]. auto.
  - exists p'. split; [exact H|]. split; [reflexivity|]. right. auto.
Qed.

Lemma lookup_alter_set_color_2 (l : list Neighbor_pair) k c k' p :
  l !! k' = Some p ->
  exists p', alter (fun q => set_color q c) k l !! k' = Some p' /\
    pair_dynamic_objects p' = pair_dynamic_objects p.
Proof.
  intros H. rewrite list_lookup_alter. destruct (decide (k = k')) as [->|Hne]; rewrite H.
  - eexists. split; [reflexivity|]. apply pair_dynamic_objects_key. reflexivity.
  - eexists. split; [reflexivity|reflexivity].
Qed.

Lemma inv_mark_pair st fi done os ps k p :
  bfs_inv st fi (done ++ [(os, ps)]) -> gr_pairs st !! k = Some p ->
  (forall d, d ∈ pair_dynamic_objects p -> d ∈ os) ->
  bfs_inv (grouping (alter (fun q => set_color q color_marked) k (gr_pairs st)) (gr_marked st)
             (add_pair_to_group (gr_storage st) k)) fi (done ++ [(os, ps ++ [k])]).
Proof.
  intros Hinv Hkp Hdyn.
  pose proof (inv_add_pair st fi done os ps k p Hinv Hkp Hdyn) as [Hs Hm Hnd Hk Hc Hmp Hpi Hcl Hfi].
  unfold grouping_add_pair in *; cbn [gr_pairs gr_marked gr_storage] in *.
  split; cbn [gr_pairs gr_marked gr_storage].
  - exact Hs.
  - exact Hm.
  - exact Hnd.
  - rewrite map_alter_invariant by (intros; reflexivity). exact Hk.
  - intros k' p' Hk'. apply lookup_alter_set_color in Hk' as (p0 & Hp0 & _ & [[-> ->]|[_ ->]]).
    + right. reflexivity.
    + eauto.
  - intros k' p' Hk' Hc'. apply lookup_alter_set_color in Hk' as (p0 & Hp0 & _ & [[-> ->]|[_ ->]]).
    + rewrite view_pairs_snoc, !elem_of_app, list_elem_of_singleton. right. right. reflexivity.
    + eauto.
  - intros i os' ps' k' Hi Hk'. destruct (Hpi i os' ps' k' Hi Hk') as (p0 & Hp0 & Hd).
    destruct (lookup_alter_set_color_2 (gr_pairs st) k color_marked k' p0 Hp0) as (p1 & Hp1 & Hd1).
    exists p1. split; [exact Hp1|]. rewrite Hd1. exact Hd.
  - exact Hcl.
  - exact Hfi.
Qed.


Lemma visiting_lookup done os ps ext ps' fi h :
  view_objects (done ++ [(os, ps)]) !! fi = Some h ->
  view_objects (done ++ [(os ++ ext, ps')]) !! fi = Some h.
Proof.
  rewrite !view_objects_snoc, app_assoc. intros H. apply lookup_app_l_Some. exact H.
Qed.

(** The pair [k] through which the neighbor [n] of the visited object is
    reached: after [n] is marked, it is in the current group. *)
Lemma neighbor_in_current_group st fi done os ps h n k p :
  visiting st fi done os ps h -> gr_pairs st !! k = Some p ->
  h ∈ pair_dynamic_objects p -> n ∈ pair_dynamic_objects p ->
  gr_marked st n = true -> n ∈ os.
Proof.
  intros (Hinv & Hle & Hh) Hkp Hhp Hnp Hmn.
  pose proof (bfs_inv_slices _ _ _ Hinv) as Hsl.
  pose proof (view_objects_snoc_lookup _ _ _ _ _ Hh Hle) as Hhos.
  apply (bi_marked _ _ _ Hinv), elem_of_view_objects in Hmn as (i & os' & ps' & Hi & Hn).
  destruct (lookup_snoc_Some _ _ _ _ Hi) as [[Hi' Hlt]|[-> [= -> ->]]]; [|exact Hn].
  exfalso.
  assert (Hv : visited (done ++ [(os, ps)]) fi n) by (eapply earlier_group_visited; eauto).
  assert (Hks : k ∈ slices n) by (apply Hsl; eauto).
  pose proof (bi_closed _ _ _ Hinv i os' ps' n k Hi Hn Hv Hks) as Hkps.
  destruct (bi_pairs_in _ _ _ Hinv i os' ps' k Hi Hkps) as (p' & Hp' & Hd).
  rewrite Hkp in Hp'. injection Hp' as <-.
  pose proof (view_objects_unique _ _ _ _ _ _ _ h (bi_nodup _ _ _ Hinv) Hi (lookup_snoc_last done (os, ps))
    (Hd h Hhp) Hhos). lia.
Qed.

Lemma neighbor_step st fi done os ps h n k p :
  visiting st fi done os ps h -> gr_pairs st !! k = Some p ->
  h ∈ pair_dynamic_objects p -> n ∈ pair_dynamic_objects p ->
  exists ext, visiting (if gr_marked st n then st
                        else grouping (gr_pairs st) (mark (gr_marked st) n)
                               (add_object_to_group (gr_storage st) n)) fi done (os ++ ext) ps h /\
    n ∈ os ++ ext /\
    gr_pairs (if gr_marked st n then st
              else grouping (gr_pairs st) (mark (gr_marked st) n)
                     (add_object_to_group (gr_storage st) n)) = gr_pairs st.
Proof.
  intros Hvis Hkp Hhp Hnp. destruct (gr_marked st n) eqn:Hmn.
  - exists []. rewrite app_nil_r. split; [exact Hvis|]. split; [|reflexivity].
    eapply neighbor_in_current_group; eauto.
  - exists [n]. destruct Hvis as (Hinv & Hle & Hh). split; [split; [|split]|split].
    + apply inv_add_object; assumption.
    + exact Hle.
    + apply (visiting_lookup done os ps). exact Hh.
    + apply elem_of_app. right. apply list_elem_of_singleton. reflexivity.
    + reflexivity.
Qed.

Lemma visit_pair_step st fi done os ps h k :
  visiting st fi done os ps h -> k ∈ slices h ->
  exists ext ps', visiting (visit_neighbor_pair h st k) fi done (os ++ ext) ps' h /\ k ∈ ps' /\
    (forall k', k' ∈ ps -> k' ∈ ps').
Proof.
  intros Hvis Hk. pose proof Hvis as (Hinv & Hle & Hh).
  pose proof (bfs_inv_slices _ _ _ Hinv) as Hsl.
  pose proof (view_objects_snoc_lookup _ _ _ _ _ Hh Hle) as Hhos.
  apply Hsl in Hk as (p & Hkp & Hhp).
  destruct (visit_neighbor_pair_cases st h k p Hkp Hhp) as [[-> Hd]|(n & Hnp & Hnd & ->)].
  - exists [], (ps ++ [k]). rewrite app_nil_r. split; [split; [|split]|split].
    + apply (inv_add_pair st fi done os ps k p Hinv Hkp).
      intros d. rewrite Hd, list_elem_of_singleton. intros ->. exact Hhos.
    + exact Hle.
    + rewrite view_objects_snoc in *. exact Hh.
    + apply elem_of_app. right. apply list_elem_of_singleton. reflexivity.
    + intros k' Hk'. apply elem_of_app. left. exact Hk'.
  - destruct (neighbor_step st fi done os ps h n k p Hvis Hkp Hhp Hnp) as (ext & Hvis1 & Hn1 & Hp1).
    unfold visit_neighbor.
    revert Hvis1 Hn1 Hp1.
    generalize (if gr_marked st n then st
                else grouping (gr_pairs st) (mark (gr_marked st) n)
                       (add_object_to_group (gr_storage st) n)) as st1.
    intros st1 Hvis1 Hn1 Hp1. cbv zeta.
    destruct Hvis1 as (Hinv1 & Hle1 & Hh1).
    pose proof (view_objects_snoc_lookup _ _ _ _ _ Hh1 Hle1) as Hhos1.
    destruct (N.eqb_spec (color p) color_unmarked) as [Hu|Hu].
    + exists ext, (ps ++ [k]). split; [split; [|split]|split].
      * apply (inv_mark_pair st1 fi done (os ++ ext) ps k p Hinv1); [rewrite Hp1; exact Hkp|].
        intros d Hd. destruct (Hnd d Hd) as [->| ->]; assumption.
      * exact Hle1.
      * rewrite !view_objects_snoc in *. exact Hh1.
      * apply elem_of_app. right. apply list_elem_of_singleton. reflexivity.
      * intros k' Hk'. apply elem_of_app. left. exact Hk'.
    + exists ext, ps. split; [split; [exact Hinv1|split; assumption]|split; [|tauto]].
      assert (Hkp1 : gr_pairs st1 !! k = Some p) by (rewrite Hp1; exact Hkp).
      destruct (bi_colors _ _ _ Hinv1 k p Hkp1) as [Hc|Hc]; [contradiction|].
      pose proof (bi_marked_pairs _ _ _ Hinv1 k p Hkp1 Hc) as Hkv.
      apply elem_of_view_pairs in Hkv as (i & os' & ps' & Hi & Hkps).
      destruct (bi_pairs_in _ _ _ Hinv1 i os' ps' k Hi Hkps) as (p' & Hp' & Hd).
      rewrite Hkp1 in Hp'. injection Hp' as <-.
      destruct (current_group_index _ _ _ _ _ _ _ (bi_nodup _ _ _ Hinv1) Hi (Hd h Hhp) Hhos1)
        as (_ & _ & ->).
      exact Hkps.
Qed.


Lemma visit_fold ks st fi done os ps h :
  visiting st fi done os ps h -> (forall k, k ∈ ks -> k ∈ slices h) ->
  exists ext ps', visiting (fold_left (visit_neighbor_pair h) ks st) fi done (os ++ ext) ps' h /\
    (forall k, k ∈ ks -> k ∈ ps') /\ (forall k, k ∈ ps -> k ∈ ps').
Proof.
  revert st os ps. induction ks as [|k ks IH]; intros st os ps Hvis Hks; simpl.
  - exists [], ps. rewrite app_nil_r. split; [exact Hvis|]. split; [|tauto].
    intros k Hk. apply elem_of_nil in Hk as [].
  - assert (Hk : k ∈ slices h) by (apply Hks, elem_of_cons; left; reflexivity).
    destruct (visit_pair_step st fi done os ps h k Hvis Hk) as (ext1 & ps1 & Hv1 & Hk1 & Hps1).
    assert (Hks' : forall k', k' ∈ ks -> k' ∈ slices h)
      by (intros k' Hk'; apply Hks, elem_of_cons; right; exact Hk').
    destruct (IH _ _ _ Hv1 Hks') as (ext2 & ps2 & Hv2 & Hk2 & Hps2).
    exists (ext1 ++ ext2), ps2. rewrite app_assoc. split; [exact Hv2|]. split.
    + intros k' Hk'. apply elem_of_cons in Hk' as [->|Hk']; auto.
    + auto.
Qed.

(** After the visit of the object at the fringe index, the fringe index
    moves past it. *)
Lemma visit_complete st fi done os ps h :
  visiting st fi done os ps h ->
  exists ext ps', bfs_inv (visit slices st h) (S fi) (done ++ [(os ++ ext, ps')]).
Proof.
  intros Hvis. unfold visit.
  destruct (visit_fold (slices h) st fi done os ps h Hvis (fun k Hk => Hk))
    as (ext & ps' & (Hinv & Hle & Hh) & Hall & _).
  exists ext, ps'. destruct Hinv as [Hs Hm Hnd Hk Hc Hmp Hpi Hcl Hfi].
  split; try assumption.
  - intros i os1 ps1 d k Hi Hd (n & Hn & Hlt) Hkd.
    destruct (decide (n < fi)%nat) as [Hlt'|Hge].
    + apply (Hcl i os1 ps1 d k Hi Hd); [exists n; split; assumption|exact Hkd].
    + assert (n = fi) as -> by lia.
      assert (d = h) as -> by congruence.
      pose proof (view_objects_snoc_lookup _ _ _ _ _ Hh Hle) as Hhos.
      destruct (current_group_index _ _ _ _ _ _ _ Hnd Hi Hd Hhos) as (_ & _ & ->).
      apply Hall. exact Hkd.
  - apply lookup_lt_Some in Hh. lia.
Qed.

Lemma ng_objects_views vs : ng_objects (storage_of_views vs) = view_objects vs.
Proof. reflexivity. Qed.

Lemma loop_inv fuel fi st done os ps fi' st' :
  bfs_inv st fi (done ++ [(os, ps)]) -> (length (view_objects done) <= fi)%nat ->
  (fi < length (view_objects (done ++ [(os, ps)])))%nat ->
  find_neighbor_group_loop slices fuel fi st = inr (fi', st') ->
  exists os' ps', bfs_inv st' fi' (done ++ [(os', ps')]) /\
    fi' = length (view_objects (done ++ [(os', ps')])).
Proof.
  revert fi st os ps. induction fuel as [|fuel IH]; intros fi st os ps Hinv Hle Hlt Hr;
    cbn [find_neighbor_group_loop] in Hr; [discriminate|].
  rewrite (bi_storage _ _ _ Hinv), ng_objects_views in Hr.
  destruct (lookup_lt_is_Some_2 _ _ Hlt) as [h Hh]. rewrite Hh in Hr.
  destruct (visit_complete st fi done os ps h (conj Hinv (conj Hle Hh))) as (ext & ps' & Hinv').
  rewrite (bi_storage _ _ _ Hinv'), ng_objects_views in Hr.
    destruct (Nat.eqb_spec (S fi) (length (view_objects (done ++ [(os ++ ext, ps')])))) as [Heq|Hne].
  - injection Hr as <- <-. eauto.
  - pose proof (bi_fringe _ _ _ Hinv').
    eapply IH; [exact Hinv'|lia|lia|exact Hr].
Qed.

Lemma inv_begin st fi vs :
  bfs_inv st fi vs -> fi = length (view_objects vs) ->
  bfs_inv (grouping (gr_pairs st) (gr_marked st) (begin_group (gr_storage st))) fi (vs ++ [([], [])]).
Proof.
  intros [Hs Hm Hnd Hk Hc Hmp Hpi Hcl Hfi] ->.
  assert (Ho : view_objects (vs ++ [([], [])]) = view_objects vs)
    by (rewrite view_objects_snoc, app_nil_r; reflexivity).
  split; cbn [gr_pairs gr_marked gr_storage]; rewrite ?Ho; try assumption.
  - rewrite Hs. apply begin_group_views.
  - intros k p Hkp Hcm. rewrite view_pairs_snoc, app_nil_r. eauto.
  - intros i os ps k Hi Hkps. apply lookup_snoc_Some in Hi as [[Hi _]|[_ [= -> ->]]];
      [eauto|apply elem_of_nil in Hkps as []].
  - intros i os ps d k Hi Hd Hv Hkd. apply lookup_snoc_Some in Hi as [[Hi _]|[_ [= -> ->]]];
      [|apply elem_of_nil in Hd as []].
    apply (Hcl i os ps d k Hi Hd); [|exact Hkd].
    destruct Hv as (n & Hn & Hlt). exists n. rewrite Ho in Hn. auto.
Qed.

Lemma seed_inv fuel fi st seed fi' st' vs :
  bfs_inv st fi vs -> fi = length (view_objects vs) ->
  find_neighbor_group slices fuel (fi, st) seed = inr (fi', st') ->
  exists vs', bfs_inv st' fi' vs' /\ fi' = length (view_objects vs').
Proof.
  intros Hinv Hfi Hr. unfold find_neighbor_group in Hr.
  destruct (gr_marked st seed) eqn:Hm.
  - injection Hr as <- <-. eauto.
  - pose proof (inv_begin st fi vs Hinv Hfi) as Hb.
    pose proof (inv_add_object _ fi vs [] [] seed Hb Hm) as Ha.
    cbn [gr_pairs gr_marked gr_storage app] in Ha.
    destruct (loop_inv fuel fi _ vs [seed] [] fi' st' Ha) as (os' & ps' & H1 & H2).
    + lia.
    + rewrite view_objects_snoc, length_app. simpl. lia.
    + exact Hr.
    + eauto.
Qed.

Lemma find_neighbor_groups_inv w pairs' ng :
  (forall k p, pairs0 !! k = Some p -> color p = color_unmarked) ->
  find_neighbor_groups w pairs0 slices = inr (pairs', ng) ->
  exists st vs, gr_pairs st = pairs' /\ gr_storage st = ng /\
    bfs_inv st (length (view_objects vs)) vs.
Proof.
  intros Hun Hr. unfold find_neighbor_groups in Hr.
  destruct (fold_m _ _ _) as [e|[fi st]] eqn:Hf; [discriminate|].
  injection Hr as <- <-.
  assert (exists vs, bfs_inv st fi vs /\ fi = length (view_objects vs)) as (vs & Hinv & ->).
  { refine (fold_m_inv _ (fun a => exists vs, bfs_inv (snd a) (fst a) vs /\
                                     fst a = length (view_objects vs)) _ _ _ _ _ Hf).
    - exists []. split; [|reflexivity]. split; cbn [snd fst gr_pairs gr_marked gr_storage].
      + reflexivity.
      + intros d. split; [discriminate|intros Hd; apply elem_of_nil in Hd as []].
      + constructor.
      + reflexivity.
      + intros k p Hkp. left. eauto.
      + intros k p Hkp Hc. rewrite (Hun k p Hkp) in Hc. discriminate.
      + intros i os ps k Hi. destruct i; discriminate.
      + intros i os ps d k Hi. destruct i; discriminate.
      + simpl. lia.
    - intros seed [fi1 st1] [fi2 st2] _ (vs & H1 & H2) H. eapply seed_inv; eauto. }
  exists st, vs. auto.
Qed.
End Grouping_invariant.

Lemma find_neighbor_pairs_unmarked leaf_pairs k p :
  find_neighbor_pairs leaf_pairs !! k = Some p -> color p = color_unmarked.
Proof.
  revert k. induction leaf_pairs as [|[a b] l IH]; intros k Hk; [discriminate|].
  unfold find_neighbor_pairs in *. simpl in Hk.
  destruct (make_neighbor_pair a b) as [q|] eqn:E; [|exact (IH k Hk)].
  destruct k as [|k]; [|exact (IH k Hk)].
  injection Hk as <-. destruct a, b; simpl in E; try discriminate; injection E as <-; reflexivity.
Qed.

(** The groups as the rest of the frame uses them. *)
Record group_structure (slices : Dynamic_object -> list nat) (pairs : list Neighbor_pair)
    (ng : Neighbor_group_storage) : Prop := {
  gs_slices : slices_of slices pairs;
  gs_disjoint : forall i j d, d ∈ group_objects ng i -> d ∈ group_objects ng j -> i = j;
  gs_pairs_in : forall j k, k ∈ group_neighbor_pairs ng j ->
    exists p, pairs !! k = Some p /\
      forall d, d ∈ pair_dynamic_objects p -> d ∈ group_objects ng j;
  gs_closed : forall j d k, d ∈ group_objects ng j -> k ∈ slices d ->
    k ∈ group_neighbor_pairs ng j;
}.

Lemma group_structure_keys slices pairs1 pairs2 ng :
  group_structure slices pairs1 ng -> map pair_key pairs1 = map pair_key pairs2 ->
  group_structure slices pairs2 ng.
Proof.
  intros [Hs Hd Hp Hc] Hk. split; try assumption.
  - eapply slices_of_keys; eauto.
  - intros j k Hj. destruct (Hp j k Hj) as (p & Hkp & Hdp).
    destruct (keys_lookup pairs2 pairs1 k p (eq_sym Hk) Hkp) as (q & Hq & Hpq).
    exists q. split; [exact Hq|]. rewrite (pair_dynamic_objects_key q p Hpq). exact Hdp.
Qed.

Lemma group_pairs_disjoint slices pairs ng i j k :
  group_structure slices pairs ng ->
  k ∈ group_neighbor_pairs ng i -> k ∈ group_neighbor_pairs ng j -> i = j.
Proof.
  intros Hgs Hi Hj.
  destruct (gs_pairs_in _ _ _ Hgs i k Hi) as (p & Hp & Hdi).
  destruct (gs_pairs_in _ _ _ Hgs j k Hj) as (p' & Hp' & Hdj).
  rewrite Hp in Hp'. injection Hp' as <-.
  destruct (pair_dynamic_objects_nonempty p) as (d & Hd).
  exact (gs_disjoint _ _ _ Hgs i j d (Hdi d Hd) (Hdj d Hd)).
Qed.

Lemma visited_all vs d : d ∈ view_objects vs -> visited vs (length (view_objects vs)) d.
Proof.
  intros Hd. apply list_elem_of_lookup in Hd as (n & Hn).
  exists n. split; [exact Hn|]. eapply lookup_lt_Some. exact Hn.
Qed.

Lemma bfs_inv_structure slices pairs0 st vs :
  slices_of slices pairs0 -> bfs_inv slices pairs0 st (length (view_objects vs)) vs ->
  group_structure slices (gr_pairs st) (gr_storage st).
Proof.
  intros Hsl Hinv. rewrite (bi_storage _ _ _ _ _ Hinv).
  split.
  - eapply bfs_inv_slices; eauto.
  - intros i j d. rewrite !group_objects_views.
    destruct (vs !! i) as [[os ps]|] eqn:Hi; [|intros Hd; apply elem_of_nil in Hd as []].
    destruct (vs !! j) as [[os' ps']|] eqn:Hj; [|intros _ Hd; apply elem_of_nil in Hd as []].
    simpl. intros Hd Hd'. exact (view_objects_unique _ _ _ _ _ _ _ d (bi_nodup _ _ _ _ _ Hinv) Hi Hj Hd Hd').
  - intros j k. rewrite group_neighbor_pairs_views, group_objects_views.
    destruct (vs !! j) as [[os ps]|] eqn:Hj; [|intros Hd; apply elem_of_nil in Hd as []].
    simpl. intros Hk. exact (bi_pairs_in _ _ _ _ _ Hinv j os ps k Hj Hk).
  - intros j d k. rewrite group_neighbor_pairs_views, group_objects_views.
    destruct (vs !! j) as [[os ps]|] eqn:Hj; [|intros Hd; apply elem_of_nil in Hd as []].
    simpl. intros Hd Hk. apply (bi_closed _ _ _ _ _ Hinv j os ps d k Hj Hd); [|exact Hk].
    apply visited_all, elem_of_view_objects. eauto.
Qed.

(** What [find_neighbor_groups] hands to the rest of the frame. *)
Lemma find_neighbor_groups_structure w leaf_pairs pairs ng :
  find_neighbor_groups w (find_neighbor_pairs leaf_pairs)
    (assign_neighbor_pairs (find_neighbor_pairs leaf_pairs)) = inr (pairs, ng) ->
  group_structure (assign_neighbor_pairs (find_neighbor_pairs leaf_pairs)) pairs ng /\
  map pair_key pairs = map pair_key (find_neighbor_pairs leaf_pairs) /\
  (forall k p, pairs !! k = Some p -> color p = color_unmarked \/ color p = color_marked).
Proof.
  intros Hr.
  assert (Hsl : slices_of (assign_neighbor_pairs (find_neighbor_pairs leaf_pairs))
                  (find_neighbor_pairs leaf_pairs))
    by (intros d k; apply assign_neighbor_pairs_spec).
  destruct (find_neighbor_groups_inv _ _ Hsl w pairs ng
              (find_neighbor_pairs_unmarked leaf_pairs) Hr) as (st & vs & <- & <- & Hinv).
  split; [eapply bfs_inv_structure; eauto|].
  split; [exact (bi_keys _ _ _ _ _ Hinv)|exact (bi_colors _ _ _ _ _ Hinv)].
Qed.

(** ** Coloring: pairs of one color share no dynamic object. *)

Definition color_separated (pairs : list Neighbor_pair) : Prop :=
  forall k1 k2 p q, k1 <> k2 -> pairs !! k1 = Some p -> pairs !! k2 = Some q ->
    real_color (color p) -> color p = color q ->
    forall d, d ∈ pair_dynamic_objects p -> d ∉ pair_dynamic_objects q.

(** [pairs'] has the keys of [pairs], and each pair of [pairs'] with a
    real color is the pair of [pairs]. *)
Definition no_new_colors (pairs pairs' : list Neighbor_pair) : Prop :=
  map pair_key pairs' = map pair_key pairs /\
  forall k p, pairs' !! k = Some p -> real_color (color p) -> pairs !! k = Some p.

Lemma no_new_colors_refl pairs : no_new_colors pairs pairs.
Proof. split; auto. Qed.

Lemma no_new_colors_trans p1 p2 p3 :
  no_new_colors p1 p2 -> no_new_colors p2 p3 -> no_new_colors p1 p3.
Proof.
  intros [Hk1 H1] [Hk2 H2]. split; [congruence|]. intros k p Hp Hr. auto.
Qed.

Lemma no_new_colors_alter pairs k c :
  ~ real_color c -> no_new_colors pairs (alter (fun q => set_color q c) k pairs).
Proof.
  intros Hc. split; [apply map_alter_invariant; reflexivity|].
  intros k' p Hp Hr.
  destruct (lookup_alter_set_color _ _ _ _ _ Hp) as (q & Hq & _ & [[_ ->]|[_ ->]]);
    [contradiction (Hc Hr)|exact Hq].
Qed.

Lemma no_new_colors_fold_alter ks pairs c :
  ~ real_color c ->
  no_new_colors pairs (fold_left (fun pairs k => alter (fun q => set_color q c) k pairs) ks pairs).
Proof.
  intros Hc. revert pairs. induction ks as [|k ks IH]; intros pairs; simpl.
  - apply no_new_colors_refl.
  - eapply no_new_colors_trans; [apply no_new_colors_alter, Hc|apply IH].
Qed.

Lemma color_separated_no_new_colors pairs pairs' :
  color_separated pairs -> no_new_colors pairs pairs' -> color_separated pairs'.
Proof.
  intros Hs [_ Hn] k1 k2 p q Hne Hp Hq Hr Hpq.
  apply Hn in Hp; [|exact Hr]. apply Hn in Hq; [|rewrite <- Hpq; exact Hr].
  eapply Hs; eauto.
Qed.

Lemma unmarked_not_real : ~ real_color color_unmarked.
Proof. intros [H _]. apply H. reflexivity. Qed.

Lemma marked_not_real : ~ real_color color_marked.
Proof. intros [_ H]. apply H. reflexivity. Qed.

Lemma real_color_dec c : real_color c \/ c = color_unmarked \/ c = color_marked.
Proof.
  unfold real_color. destruct (N.eq_dec c color_unmarked); [tauto|].
  destruct (N.eq_dec c color_marked); tauto.
Qed.

(** The fold of [color_neighbor] over the neighbors of a pair. *)
Lemma color_neighbor_fold ns pairs fringe bits pairs' fringe' bits' :
  fold_left color_neighbor ns (pairs, fringe, bits) = (pairs', fringe', bits') ->
  no_new_colors pairs pairs' /\ (forall c, c ∈ bits -> c ∈ bits') /\
  (forall n q, n ∈ ns -> pairs' !! n = Some q -> real_color (color q) -> color q ∈ bits').
Proof.
  revert pairs fringe bits. induction ns as [|n ns IH]; intros pairs fringe bits Hf;
    cbn [fold_left] in Hf.
  - injection Hf as <- <- <-. split; [apply no_new_colors_refl|]. split; [tauto|].
    intros n q Hn. apply elem_of_nil in Hn as [].
  - destruct (color_neighbor (pairs, fringe, bits) n) as [[pairs1 fringe1] bits1] eqn:E.
    assert (Hstep : no_new_colors pairs pairs1 /\ (forall c, c ∈ bits -> c ∈ bits1) /\
              (forall q, pairs1 !! n = Some q -> real_color (color q) -> color q ∈ bits1)).
    { unfold color_neighbor in E. destruct (pairs !! n) as [q0|] eqn:Hq0.
      - destruct (N.eqb_spec (color q0) color_unmarked) as [Hu|Hu].
        + injection E as <- <- <-. split; [apply no_new_colors_alter, marked_not_real|].
          split; [tauto|]. intros q Hq Hr.
          destruct (lookup_alter_set_color _ _ _ _ _ Hq) as (q1 & _ & _ & [[_ ->]|[Hne _]]);
            [contradiction (marked_not_real Hr)|congruence].
        + destruct (N.eqb_spec (color q0) color_marked) as [Hm|Hm].
          * injection E as <- <- <-. split; [apply no_new_colors_refl|]. split; [tauto|].
            intros q Hq Hr. rewrite Hq0 in Hq. injection Hq as <-. rewrite Hm in Hr.
            contradiction (marked_not_real Hr).
          * injection E as <- <- <-. split; [apply no_new_colors_refl|].
            split; [intros c Hc; apply elem_of_cons; right; exact Hc|].
            intros q Hq Hr. rewrite Hq0 in Hq. injection Hq as <-.
            apply elem_of_cons. left. reflexivity.
      - injection E as <- <- <-. split; [apply no_new_colors_refl|]. split; [tauto|].
        intros q Hq. rewrite Hq0 in Hq. discriminate. }
    destruct Hstep as (Hn1 & Hb1 & Hc1).
    destruct (IH _ _ _ Hf) as (Hn2 & Hb2 & Hc2).
    split; [eapply no_new_colors_trans; eauto|]. split; [auto|].
    intros n' q Hn' Hq Hr. apply elem_of_cons in Hn' as [->|Hn']; [|eauto].
    apply Hb2. apply Hc1; [|exact Hr]. apply (proj2 Hn2 _ _ Hq Hr).
Qed.

Lemma find_unset_color_spec bits start fuel c :
  find_unset_color bits start fuel = Some c ->
  c ∉ bits /\ (start <= c)%N /\ (c < start + N.of_nat fuel)%N /\
  (forall c', (start <= c' < c)%N -> c' ∈ bits).
Proof.
  revert start. induction fuel as [|fuel IH]; intros start Hf; simpl in Hf; [discriminate|].
  case_bool_decide as Hin.
  - destruct (IH _ Hf) as (Hc & Hle & Hlt & Hall). split; [exact Hc|].
    split; [lia|]. split; [lia|]. intros c' Hc'.
    destruct (N.eq_dec c' start) as [->|Hne]; [exact Hin|]. apply Hall. lia.
  - injection Hf as <-. split; [exact Hin|]. split; [lia|]. split; [lia|]. intros c' Hc'. lia.
Qed.

Lemma elem_of_concat_map {A B} (f : A -> list B) l a x :
  a ∈ l -> x ∈ f a -> x ∈ concat (map f l).
Proof.
  induction l as [|a' l IH]; simpl; intros Ha Hx; [apply elem_of_nil in Ha as []|].
  apply elem_of_app. apply elem_of_cons in Ha as [->|Ha]; [left; exact Hx|right; auto].
Qed.

Lemma elem_of_concat_map_inv {A B} (f : A -> list B) l x :
  x ∈ concat (map f l) -> exists a, a ∈ l /\ x ∈ f a.
Proof.
  induction l as [|a l IH]; simpl; intros Hx; [apply elem_of_nil in Hx as []|].
  apply elem_of_app in Hx as [Hx|Hx].
  - exists a. split; [apply elem_of_cons; left; reflexivity|exact Hx].
  - destruct (IH Hx) as (a' & Ha' & Hx'). exists a'.
    split; [apply elem_of_cons; right; exact Ha'|exact Hx'].
Qed.

Lemma neighbors_of_pair (slices : Dynamic_object -> list nat) p d (k' : nat) :
  d ∈ pair_dynamic_objects p ->
  k' ∈ slices d -> k' ∈ concat (map slices (pair_dynamic_objects p)).
Proof. apply elem_of_concat_map. Qed.

Lemma color_step_separated slices pairs fringe cg pairs2 fringe2 cg2 :
  slices_of slices pairs -> color_separated pairs ->
  color_step slices (pairs, fringe, cg) = inr (pairs2, fringe2, cg2) ->
  color_separated pairs2 /\ map pair_key pairs2 = map pair_key pairs.
Proof.
  intros Hsl Hsep Hst. unfold color_step in Hst.
  destruct fringe as [|k fringe']; [discriminate|].
  destruct (pairs !! k) as [p|] eqn:Hkp; [|discriminate].
  destruct (fold_left color_neighbor _ _) as [[pairs1 fringe1] bits] eqn:Hf.
  destruct (find_unset_color bits 0 _) as [c|] eqn:Hc; [|discriminate].
  injection Hst as <- <- <-.
  destruct (color_neighbor_fold _ _ _ _ _ _ _ Hf) as ([Hk1 Hn1] & _ & Hbits).
  destruct (find_unset_color_spec _ _ _ _ Hc) as (Hcb & _).
  assert (Hsl1 : slices_of slices pairs1) by (eapply slices_of_keys; [exact Hsl|symmetry; exact Hk1]).
  assert (Hsep1 : color_separated pairs1)
    by (eapply color_separated_no_new_colors; [exact Hsep|split; assumption]).
  destruct (keys_lookup pairs1 pairs k p Hk1 Hkp) as (p1 & Hkp1 & Hp1key).
  (* a pair other than [k] sharing a dynamic object with [k] has a color in [bits] *)
  assert (Hother : forall k' q, k' <> k -> pairs1 !! k' = Some q -> real_color (color q) ->
            color q = c -> forall d, d ∈ pair_dynamic_objects p -> d ∈ pair_dynamic_objects q -> False).
  { intros k' q Hne Hq Hr Hqc d Hdp Hdq.
    assert (Hk' : k' ∈ slices d) by (apply Hsl1; eauto).
    apply Hcb. rewrite <- Hqc. eapply Hbits; [|exact Hq|exact Hr].
    eapply neighbors_of_pair; eauto. }
  assert (Hdyn : forall q, pair_dynamic_objects (set_color q c) = pair_dynamic_objects q)
    by (intros q; apply pair_dynamic_objects_key; reflexivity).
  split; [|rewrite map_alter_invariant by reflexivity; exact Hk1].
  intros k1 k2 q1 q2 Hne Hq1 Hq2 Hr Hc12 d Hd1 Hd2.
  destruct (lookup_alter_set_color _ _ _ _ _ Hq1) as (r1 & Hr1 & Hd1e & [[-> ->]|[Hne1 ->]]);
  destruct (lookup_alter_set_color _ _ _ _ _ Hq2) as (r2 & Hr2 & Hd2e & [[-> ->]|[Hne2 ->]]).
  - contradiction.
  - rewrite Hkp1 in Hr1. injection Hr1 as ->.
    rewrite Hdyn, (pair_dynamic_objects_key _ _ Hp1key) in Hd1.
    apply (Hother k2 r2 Hne2 Hr2 ltac:(rewrite <- Hc12; exact Hr) ltac:(rewrite <- Hc12; reflexivity) d);
      assumption.
  - rewrite Hkp1 in Hr2. injection Hr2 as ->.
    rewrite Hdyn, (pair_dynamic_objects_key _ _ Hp1key) in Hd2.
    exact (Hother k1 r1 Hne1 Hr1 Hr Hc12 d Hd2 Hd1).
  - exact (Hsep1 k1 k2 r1 r2 Hne Hr1 Hr2 Hr Hc12 d Hd1 Hd2).
Qed.

Lemma color_loop_separated slices fuel pairs fringe cg pairs' cg' :
  slices_of slices pairs -> color_separated pairs ->
  color_loop slices fuel (pairs, fringe, cg) = inr (pairs', cg') ->
  color_separated pairs' /\ map pair_key pairs' = map pair_key pairs.
Proof.
  revert pairs fringe cg. induction fuel as [|fuel IH]; intros pairs fringe cg Hsl Hsep Hl;
    cbn [color_loop] in Hl; [discriminate|].
  destruct (color_step slices (pairs, fringe, cg)) as [e|[[pairs1 fringe1] cg1]] eqn:Hst;
    [discriminate|].
  destruct (color_step_separated _ _ _ _ _ _ _ Hsl Hsep Hst) as (Hsep1 & Hk1).
  assert (Hsl1 : slices_of slices pairs1) by (eapply slices_of_keys; [exact Hsl|symmetry; exact Hk1]).
  destruct fringe1 as [|k1 fringe1].
  - injection Hl as <- <-. auto.
  - destruct (IH _ _ _ Hsl1 Hsep1 Hl) as (Hsep2 & Hk2). split; [exact Hsep2|congruence].
Qed.

Lemma reset_no_new_colors (ks : list nat) (seed : nat) pairs :
  no_new_colors pairs
    (alter (fun q => set_color q color_marked) seed
       (fold_left (fun pairs k => alter (fun q => set_color q color_unmarked) k pairs) ks pairs)).
Proof.
  eapply no_new_colors_trans; [apply no_new_colors_fold_alter, unmarked_not_real|].
  apply no_new_colors_alter, marked_not_real.
Qed.

Lemma color_neighbor_group_separated slices ng pairs cg j pairs' cg' :
  slices_of slices pairs -> color_separated pairs ->
  color_neighbor_group slices ng pairs cg j = inr (pairs', cg') ->
  color_separated pairs' /\ map pair_key pairs' = map pair_key pairs.
Proof.
  intros Hsl Hsep Hc. unfold color_neighbor_group in Hc.
  destruct (group_neighbor_pairs ng j) as [|seed rest] eqn:Hg.
  - injection Hc as <- <-. auto.
  - pose proof (reset_no_new_colors (seed :: rest) seed pairs) as Hn.
    revert Hc Hn. cbv zeta.
    generalize (alter (fun q => set_color q color_marked) seed
      (fold_left (fun pairs k => alter (fun q => set_color q color_unmarked) k pairs)
         (seed :: rest) pairs)) as pairs1.
    intros pairs1 Hc Hn.
    assert (Hsl1 : slices_of slices pairs1) by (eapply slices_of_keys; [exact Hsl|symmetry; apply Hn]).
    destruct (color_loop_separated _ _ _ _ _ _ _ Hsl1
                (color_separated_no_new_colors _ _ Hsep Hn) Hc) as (Hsep' & Hk').
    split; [exact Hsep'|]. rewrite Hk'. apply Hn.
Qed.

Lemma update_and_color_groups_separated slices ng w pairs w' pairs' aw cg :
  slices_of slices pairs -> color_separated pairs ->
  update_and_color_groups slices ng w pairs = inr (w', pairs', aw, cg) ->
  color_separated pairs' /\ map pair_key pairs' = map pair_key pairs.
Proof.
  intros Hsl Hsep Hu. unfold update_and_color_groups in Hu.
  refine (fold_m_inv _ (fun '(_, pairs1, _, _) =>
            color_separated pairs1 /\ map pair_key pairs1 = map pair_key pairs) _ _ _ _ _ Hu).
  - split; [exact Hsep|reflexivity].
  - intros j [[[w1 pairs1] aw1] cg1] [[[w2 pairs2] aw2] cg2] _ (Hsep1 & Hk1) Hs.
    unfold update_and_color_group in Hs.
    destruct (update_neighbor_group_awake_states w1 (group_objects ng j)) as [w3 awake].
    destruct awake.
    + destruct (color_neighbor_group slices ng pairs1 cg1 j) as [e|[pairs3 cg3]] eqn:Hc;
        [discriminate|].
      injection Hs as <- <- <- <-.
      assert (Hsl1 : slices_of slices pairs1)
        by (eapply slices_of_keys; [exact Hsl|symmetry; exact Hk1]).
      destruct (color_neighbor_group_separated _ _ _ _ _ _ _ Hsl1 Hsep1 Hc) as (Hsep3 & Hk3).
      split; [exact Hsep3|congruence].
    + injection Hs as <- <- <- <-. auto.
Qed.

Lemma color_frame_separated w leaf_pairs w' pairs ng aw cg :
  color_frame w leaf_pairs = inr (w', pairs, ng, aw, cg) ->
  color_separated pairs.
Proof.
  unfold color_frame. intros Hf.
  destruct (find_neighbor_groups _ _ _) as [e|[pairs1 ng1]] eqn:Hg; [discriminate|].
  destruct (update_and_color_groups _ _ _ _) as [e|[[[w2 pairs2] aw2] cg2]] eqn:Hu; [discriminate|].
  destruct (assign_color_groups _ _ _ _) as [e|cg3] eqn:Ha; [discriminate|].
  injection Hf as <- <- <- <- <-.
  destruct (find_neighbor_groups_structure _ _ _ _ Hg) as (Hgs & Hk & Hcol).
  refine (proj1 (update_and_color_groups_separated _ _ _ _ _ _ _ _ (gs_slices _ _ _ Hgs) _ Hu)).
  intros k1 k2 p q _ Hp _ [Hu1 Hm1]. destruct (Hcol k1 p Hp); contradiction.
Qed.

(** ** Idle substeps. *)




(** ** Coloring: the colors in use are downward closed. *)

(** The fold of [color_neighbor], exactly: the pairs it puts in the
    fringe were unmarked and are now marked, every other pair is left as
    it was, and the bits are the real colors of the neighbors. *)
Lemma color_neighbor_fold_exact ns pairs fringe bits pairs1 fringe1 bits1 :
  fold_left color_neighbor ns (pairs, fringe, bits) = (pairs1, fringe1, bits1) ->
  exists new, fringe1 = fringe ++ new /\ NoDup new /\
    (forall n, n ∈ new -> n ∈ ns /\ exists p, pairs !! n = Some p /\ color p = color_unmarked /\
                 pairs1 !! n = Some (set_color p color_marked)) /\
    (forall n, n ∉ new -> pairs1 !! n = pairs !! n) /\
    (forall c, c ∈ bits1 -> c ∈ bits \/
       exists n p, n ∈ ns /\ pairs !! n = Some p /\ color p = c /\ real_color c).
Proof.
  revert pairs fringe bits. induction ns as [|n ns IH]; intros pairs fringe bits Hf;
    cbn [fold_left] in Hf.
  - injection Hf as <- <- <-. exists []. rewrite app_nil_r.
    split; [reflexivity|]. split; [constructor|]. split; [intros n Hn; apply elem_of_nil in Hn as []|].
    split; [reflexivity|]. auto.
  - destruct (color_neighbor (pairs, fringe, bits) n) as [[pairs' fringe'] bits'] eqn:E.
    destruct (IH _ _ _ Hf) as (new2 & -> & Hnd2 & Hnew2 & Hsame2 & Hbits2).
    unfold color_neighbor in E. destruct (pairs !! n) as [q|] eqn:Hq.
    2:{ injection E as <- <- <-. exists new2. split; [reflexivity|]. split; [exact Hnd2|].
        split; [intros n' Hn'; destruct (Hnew2 n' Hn') as (Hn'' & Hp); split;
                  [apply elem_of_cons; right; exact Hn''|exact Hp]|].
        split; [exact Hsame2|].
        intros c Hc. destruct (Hbits2 c Hc) as [H|(n' & p & Hn' & H)]; [auto|].
        right. exists n', p. split; [apply elem_of_cons; right; exact Hn'|exact H]. }
    destruct (N.eqb_spec (color q) color_unmarked) as [Hu|Hu].
    + injection E as <- <- <-.
      assert (Hn_marked : alter (fun q => set_color q color_marked) n pairs !! n =
                          Some (set_color q color_marked))
        by (rewrite list_lookup_alter, decide_True, Hq by reflexivity; reflexivity).
      assert (Hnot : n ∉ new2).
      { intros Hin. destruct (Hnew2 n Hin) as (_ & p & Hp & Hpu & _).
        rewrite Hn_marked in Hp. injection Hp as <-. discriminate. }
      exists (n :: new2). rewrite <- app_assoc. split; [reflexivity|].
      split; [constructor; assumption|]. split.
      * intros n' Hn'. apply elem_of_cons in Hn' as [->|Hn'].
        -- split; [apply elem_of_cons; left; reflexivity|]. exists q. split; [exact Hq|].
           split; [exact Hu|]. rewrite (Hsame2 n Hnot). exact Hn_marked.
        -- destruct (Hnew2 n' Hn') as (Hn'' & p & Hp & Hpu & Hp1).
           split; [apply elem_of_cons; right; exact Hn''|].
           assert (n' <> n) by (intros ->; contradiction).
           exists p. rewrite list_lookup_alter_ne in Hp by congruence. auto.
      * split.
        -- intros n' Hn'. rewrite Hsame2 by (intros H; apply Hn', elem_of_cons; right; exact H).
           rewrite list_lookup_alter_ne; [reflexivity|].
           intros ->. apply Hn', elem_of_cons. left. reflexivity.
        -- intros c Hc. destruct (Hbits2 c Hc) as [H|(n' & p & Hn' & Hp & Hpc & Hr)]; [auto|].
           right. exists n', p. split; [apply elem_of_cons; right; exact Hn'|].
           split; [|auto]. destruct (decide (n' = n)) as [->|Hne].
           ++ rewrite Hn_marked in Hp. injection Hp as <-. exfalso. exact (proj2 Hr (eq_sym Hpc)).
           ++ rewrite list_lookup_alter_ne in Hp by congruence. exact Hp.
    + destruct (N.eqb_spec (color q) color_marked) as [Hm|Hm].
      * injection E as <- <- <-. exists new2. split; [reflexivity|]. split; [exact Hnd2|].
        split; [intros n' Hn'; destruct (Hnew2 n' Hn') as (Hn'' & Hp); split;
                  [apply elem_of_cons; right; exact Hn''|exact Hp]|].
        split; [exact Hsame2|].
        intros c Hc. destruct (Hbits2 c Hc) as [H|(n' & p & Hn' & H)]; [auto|].
        right. exists n', p. split; [apply elem_of_cons; right; exact Hn'|exact H].
      * injection E as <- <- <-. exists new2. split; [reflexivity|]. split; [exact Hnd2|].
        split; [intros n' Hn'; destruct (Hnew2 n' Hn') as (Hn'' & Hp); split;
                  [apply elem_of_cons; right; exact Hn''|exact Hp]|].
        split; [exact Hsame2|].
        intros c Hc. destruct (Hbits2 c Hc) as [H|(n' & p & Hn' & H)].
        -- apply elem_of_cons in H as [->|H]; [|auto].
           right. exists n, q. split; [apply elem_of_cons; left; reflexivity|].
           split; [exact Hq|]. split; [reflexivity|]. split; assumption.
        -- right. exists n', p. split; [apply elem_of_cons; right; exact Hn'|exact H].
Qed.

Definition counted (cg : Color_group_storage) (c : N) : Prop :=
  (1 <= snd (color_group_bounds cg c))%nat.

Lemma count_groups cg c c' :
  cg_groups (count cg c) !! c' =
  if decide (c = c') then Some (fst (color_group_bounds cg c), S (snd (color_group_bounds cg c)))
  else cg_groups cg !! c'.
Proof. unfold count. destruct (color_group_bounds cg c) as [b e]. apply lookup_insert. Qed.

Lemma count_counted cg c c' : counted (count cg c) c' <-> c' = c \/ counted cg c'.
Proof.
  unfold counted. unfold color_group_bounds at 1. rewrite count_groups.
  case_decide as H; [subst; simpl; split; [auto|lia]|].
  split; [auto|]. intros [->|H']; [congruence|exact H'].
Qed.

Lemma real_of_lt_max c : (c < max_colors)%N -> real_color c.
Proof. unfold real_color, color_unmarked, color_marked, max_colors. lia. Qed.

Section Coloring_invariant.
Variable slices : Dynamic_object -> list nat.
Variable pairsA : list Neighbor_pair.
Variable ng : Neighbor_group_storage.
Hypothesis gsA : group_structure slices pairsA ng.

Record frame_inv (pairs : list Neighbor_pair) (cg : Color_group_storage) : Prop := {
  fr_keys : map pair_key pairs = map pair_key pairsA;
  fr_closed : forall k p c', pairs !! k = Some p -> real_color (color p) -> (c' < color p)%N ->
    exists k' p', pairs !! k' = Some p' /\ color p' = c';
  fr_range : forall k p, pairs !! k = Some p -> real_color (color p) -> (color p < max_colors)%N;
  fr_counted : forall k p, pairs !! k = Some p -> real_color (color p) -> counted cg (color p);
  fr_witness : forall c, counted cg c ->
    (c < max_colors)%N /\ exists k p, pairs !! k = Some p /\ color p = c;
  fr_stored : forall c v, cg_groups cg !! c = Some v -> (1 <= snd v)%nat;
}.

Record color_loop_inv (j : nat) (aw : list nat) (pairs : list Neighbor_pair) (fringe : list nat)
    (cg : Color_group_storage) : Prop := {
  lp_frame : frame_inv pairs cg;
  lp_fresh : forall j' k p, (j < j')%nat -> k ∈ group_neighbor_pairs ng j' ->
    pairs !! k = Some p -> ~ real_color (color p);
  lp_placed : forall k p, pairs !! k = Some p -> real_color (color p) ->
    (exists j', j' ∈ aw /\ k ∈ group_neighbor_pairs ng j') \/ k ∈ group_neighbor_pairs ng j;
  lp_nodup : NoDup fringe;
  lp_fringe : forall k, k ∈ fringe -> k ∈ group_neighbor_pairs ng j /\
    exists p, pairs !! k = Some p /\ color p = color_marked;
}.

(** The neighbors of a pair of group [j] are pairs of group [j]. *)
Lemma neighbors_in_group pairs j k p n :
  map pair_key pairs = map pair_key pairsA -> k ∈ group_neighbor_pairs ng j ->
  pairs !! k = Some p -> n ∈ concat (map slices (pair_dynamic_objects p)) ->
  n ∈ group_neighbor_pairs ng j.
Proof.
  intros Hk Hkj Hkp Hn.
  destruct (elem_of_concat_map_inv _ _ _ Hn) as (d & Hd & Hnd).
  destruct (gs_pairs_in _ _ _ gsA j k Hkj) as (pA & HpA & Hdyn).
  destruct (keys_lookup pairs pairsA k pA Hk HpA) as (q & Hq & Hqkey).
  rewrite Hkp in Hq. injection Hq as <-.
  rewrite (pair_dynamic_objects_key _ _ Hqkey) in Hd.
  exact (gs_closed _ _ _ gsA j d n (Hdyn d Hd) Hnd).
Qed.

Lemma color_step_inv j aw pairs fringe cg pairs2 fringe2 cg2 :
  color_loop_inv j aw pairs fringe cg ->
  color_step slices (pairs, fringe, cg) = inr (pairs2, fringe2, cg2) ->
  color_loop_inv j aw pairs2 fringe2 cg2.
Proof.
  intros [[Hkeys Hclosed Hrange Hcounted Hwit Hstored] Hfresh Hplaced Hnd Hfr] Hst.
  unfold color_step in Hst.
  destruct fringe as [|k fringe']; [discriminate|].
  destruct (pairs !! k) as [p|] eqn:Hkp; [|discriminate].
  destruct (fold_left color_neighbor _ _) as [[pairs1 fringe1] bits] eqn:Hf.
  destruct (find_unset_color bits 0 _) as [c|] eqn:Hc; [|discriminate].
  injection Hst as <- <- <-.
  destruct (color_neighbor_fold_exact _ _ _ _ _ _ _ Hf)
    as (new & -> & Hndnew & Hnew & Hsame & Hbits).
  destruct (color_neighbor_fold _ _ _ _ _ _ _ Hf) as ([Hk1 _] & _ & _).
  destruct (find_unset_color_spec _ _ _ _ Hc) as (Hcb & _ & Hcmax & Hbelow).
  rewrite N2Nat.id in Hcmax. simpl in Hcmax.
  assert (Hcreal : real_color c) by (apply real_of_lt_max; exact Hcmax).
  destruct (Hfr k ltac:(apply elem_of_cons; left; reflexivity)) as (Hkj & pk & Hpk & Hpkm).
  rewrite Hkp in Hpk. injection Hpk as <-.
  apply NoDup_cons in Hnd as [Hk_notin Hnd'].
  assert (Hk_new : k ∉ new).
  { intros Hin. destruct (Hnew k Hin) as (_ & q & Hq & Hqu & _).
    rewrite Hkp in Hq. injection Hq as <-. rewrite Hpkm in Hqu. discriminate. }
  assert (Hk1p : pairs1 !! k = Some p) by (rewrite (Hsame k Hk_new); exact Hkp).
  assert (Hlk : alter (fun q => set_color q c) k pairs1 !! k = Some (set_color p c))
    by (rewrite list_lookup_alter, decide_True, Hk1p by reflexivity; reflexivity).
  (* the pairs with a real color *)
  assert (H2to0 : forall n q, alter (fun q => set_color q c) k pairs1 !! n = Some q ->
            real_color (color q) -> (n = k /\ q = set_color p c) \/ (n <> k /\ pairs !! n = Some q)).
  { intros n q Hq Hr. destruct (decide (n = k)) as [->|Hne].
    - left. rewrite Hlk in Hq. injection Hq as <-. auto.
    - right. split; [exact Hne|]. rewrite list_lookup_alter_ne in Hq by congruence.
      destruct (decide (n ∈ new)) as [Hin|Hnin].
      + destruct (Hnew n Hin) as (_ & q0 & _ & _ & Hq0). rewrite Hq0 in Hq.
        injection Hq as <-. contradiction (marked_not_real Hr).
      + rewrite <- (Hsame n Hnin). exact Hq. }
  assert (H0to2 : forall n q, pairs !! n = Some q -> real_color (color q) ->
            alter (fun q => set_color q c) k pairs1 !! n = Some q).
  { intros n q Hq Hr. assert (Hne : n <> k).
    { intros ->. rewrite Hkp in Hq. injection Hq as <-. rewrite Hpkm in Hr.
      contradiction (marked_not_real Hr). }
    rewrite list_lookup_alter_ne by congruence.
    assert (Hnin : n ∉ new).
    { intros Hin. destruct (Hnew n Hin) as (_ & q0 & Hq0 & Hq0u & _).
      rewrite Hq in Hq0. injection Hq0 as <-. rewrite Hq0u in Hr.
      contradiction (unmarked_not_real Hr). }
    rewrite (Hsame n Hnin). exact Hq. }
  split; [split|..].
  - rewrite map_alter_invariant by reflexivity. congruence.
  - intros n q c' Hq Hr Hlt.
    destruct (H2to0 n q Hq Hr) as [[-> ->]|[Hne Hq0]].
    + simpl in Hlt. destruct (Hbits c' (Hbelow c' ltac:(lia))) as [Hnil|(n' & p' & _ & Hp' & Hp'c & Hr')];
        [apply elem_of_nil in Hnil as []|].
      exists n', p'. split; [apply H0to2; [exact Hp'|rewrite Hp'c; exact Hr']|exact Hp'c].
    + destruct (Hclosed n q c' Hq0 Hr Hlt) as (k' & p' & Hp' & Hp'c).
      exists k', p'. split; [|exact Hp'c]. apply H0to2; [exact Hp'|].
      rewrite Hp'c. apply real_of_lt_max. pose proof (Hrange n q Hq0 Hr). lia.
  - intros n q Hq Hr. destruct (H2to0 n q Hq Hr) as [[-> ->]|[Hne Hq0]]; [exact Hcmax|eauto].
  - intros n q Hq Hr. apply count_counted.
    destruct (H2to0 n q Hq Hr) as [[-> ->]|[Hne Hq0]]; [left; reflexivity|right; eauto].
  - intros c' Hc'. apply count_counted in Hc' as [->|Hc'].
    + split; [exact Hcmax|]. exists k, (set_color p c). split; [exact Hlk|reflexivity].
    + destruct (Hwit c' Hc') as (Hc'max & k' & p' & Hp' & Hp'c). split; [exact Hc'max|].
      exists k', p'. split; [|exact Hp'c]. apply H0to2; [exact Hp'|].
      rewrite Hp'c. apply real_of_lt_max. exact Hc'max.
  - intros c' v Hv. rewrite count_groups in Hv. case_decide.
    + injection Hv as <-. simpl. lia.
    + eauto.
  - intros j' n q Hlt Hn Hq Hr. destruct (H2to0 n q Hq Hr) as [[-> ->]|[Hne Hq0]].
    + pose proof (group_pairs_disjoint _ _ _ _ _ _ gsA Hkj Hn). lia.
    + exact (Hfresh j' n q Hlt Hn Hq0 Hr).
  - intros n q Hq Hr. destruct (H2to0 n q Hq Hr) as [[-> ->]|[Hne Hq0]]; [right; exact Hkj|eauto].
  - apply NoDup_app. split; [exact Hnd'|]. split; [|exact Hndnew].
    intros x Hx Hxnew.
    destruct (Hfr x ltac:(apply elem_of_cons; right; exact Hx)) as (_ & px & Hpx & Hpxm).
    destruct (Hnew x Hxnew) as (_ & q & Hq & Hqu & _). rewrite Hpx in Hq. injection Hq as <-.
    rewrite Hpxm in Hqu. discriminate.
  - intros x Hx. apply elem_of_app in Hx as [Hx|Hx].
    + destruct (Hfr x ltac:(apply elem_of_cons; right; exact Hx)) as (Hxj & px & Hpx & Hpxm).
      split; [exact Hxj|]. exists px. split; [|exact Hpxm].
      assert (Hne : x <> k) by (intros ->; contradiction).
      rewrite list_lookup_alter_ne by congruence.
      assert (Hnin : x ∉ new).
      { intros Hin. destruct (Hnew x Hin) as (_ & q & Hq & Hqu & _). rewrite Hpx in Hq.
        injection Hq as <-. rewrite Hpxm in Hqu. discriminate. }
      rewrite (Hsame x Hnin). exact Hpx.
    + destruct (Hnew x Hx) as (Hxns & q & Hq & Hqu & Hq1).
      split; [exact (neighbors_in_group pairs j k p x Hkeys Hkj Hkp Hxns)|].
      exists (set_color q color_marked). split; [|reflexivity].
      assert (Hne : x <> k) by (intros ->; contradiction).
      rewrite list_lookup_alter_ne by congruence. exact Hq1.
Qed.


Lemma color_loop_inv_preserved fuel j aw pairs fringe cg pairs' cg' :
  color_loop_inv j aw pairs fringe cg ->
  color_loop slices fuel (pairs, fringe, cg) = inr (pairs', cg') ->
  color_loop_inv j aw pairs' [] cg'.
Proof.
  revert pairs fringe cg. induction fuel as [|fuel IH]; intros pairs fringe cg Hinv Hl;
    cbn [color_loop] in Hl; [discriminate|].
  destruct (color_step slices (pairs, fringe, cg)) as [e|[[pairs1 fringe1] cg1]] eqn:Hst;
    [discriminate|].
  pose proof (color_step_inv _ _ _ _ _ _ _ _ Hinv Hst) as Hinv1.
  destruct fringe1 as [|k1 fringe1].
  - injection Hl as <- <-. exact Hinv1.
  - exact (IH _ _ _ Hinv1 Hl).
Qed.

Record phase_inv (j : nat) (aw : list nat) (pairs : list Neighbor_pair)
    (cg : Color_group_storage) : Prop := {
  ph_frame : frame_inv pairs cg;
  ph_fresh : forall j' k p, (j <= j')%nat -> k ∈ group_neighbor_pairs ng j' ->
    pairs !! k = Some p -> ~ real_color (color p);
  ph_placed : forall k p, pairs !! k = Some p -> real_color (color p) ->
    exists j', j' ∈ aw /\ k ∈ group_neighbor_pairs ng j';
}.

Definition same_real (pairs pairs1 : list Neighbor_pair) : Prop :=
  map pair_key pairs1 = map pair_key pairs /\
  forall n q, real_color (color q) -> pairs !! n = Some q <-> pairs1 !! n = Some q.

Lemma same_real_trans p1 p2 p3 : same_real p1 p2 -> same_real p2 p3 -> same_real p1 p3.
Proof.
  intros [Hk1 H1] [Hk2 H2]. split; [congruence|]. intros n q Hr. rewrite H1, H2 by exact Hr. tauto.
Qed.

Lemma same_real_alter pairs k c :
  (forall q, pairs !! k = Some q -> ~ real_color (color q)) -> ~ real_color c ->
  same_real pairs (alter (fun q => set_color q c) k pairs).
Proof.
  intros Hk Hc. split; [apply map_alter_invariant; reflexivity|].
  intros n q Hr. destruct (decide (n = k)) as [->|Hne].
  - rewrite list_lookup_alter, decide_True by reflexivity. split.
    + intros Hq. contradiction (Hk q Hq Hr).
    + intros Hq. apply fmap_Some in Hq as (q0 & _ & ->). contradiction.
  - rewrite list_lookup_alter_ne by congruence. tauto.
Qed.

Lemma same_real_fold_alter ks pairs c :
  (forall k q, k ∈ ks -> pairs !! k = Some q -> ~ real_color (color q)) -> ~ real_color c ->
  same_real pairs (fold_left (fun pairs k => alter (fun q => set_color q c) k pairs) ks pairs) /\
  (forall k q, k ∈ ks ->
     fold_left (fun pairs k => alter (fun q => set_color q c) k pairs) ks pairs !! k = Some q ->
     ~ real_color (color q)).
Proof.
  intros Hks Hc. revert pairs Hks. induction ks as [|k ks IH]; intros pairs Hks; simpl.
  - split; [split; [reflexivity|tauto]|]. intros k q Hk. apply elem_of_nil in Hk as [].
  - assert (Hks' : forall k' q, k' ∈ ks -> alter (fun q => set_color q c) k pairs !! k' = Some q ->
                     ~ real_color (color q)).
    { intros k' q Hk' Hq. destruct (decide (k' = k)) as [->|Hne].
      - rewrite list_lookup_alter, decide_True in Hq by reflexivity.
        apply fmap_Some in Hq as (q0 & _ & ->). exact Hc.
      - rewrite list_lookup_alter_ne in Hq by congruence.
        apply (Hks k' q); [apply elem_of_cons; right; exact Hk'|exact Hq]. }
    destruct (IH _ Hks') as (Hs & Hnr). split.
    + eapply same_real_trans; [|exact Hs]. apply same_real_alter; [|exact Hc].
      intros q Hq. apply (Hks k q); [apply elem_of_cons; left; reflexivity|exact Hq].
    + intros k' q Hk' Hq. apply elem_of_cons in Hk' as [->|Hk'].
      * destruct (decide (k ∈ ks)) as [Hin|Hnin]; [exact (Hnr k q Hin Hq)|].
        (* [k] is not altered again *)
        assert (Hfold : forall ks' (pairs' : list Neighbor_pair), k ∉ ks' ->
          fold_left (fun pairs k => alter (fun q => set_color q c) k pairs) ks' pairs' !! k = pairs' !! k).
        { intros ks'. induction ks' as [|k0 ks' IH']; intros pairs' Hn; simpl; [reflexivity|].
          rewrite IH' by (intros H; apply Hn, elem_of_cons; right; exact H).
          apply list_lookup_alter_ne. intros ->. apply Hn, elem_of_cons. left. reflexivity. }
        rewrite Hfold in Hq by exact Hnin.
        rewrite list_lookup_alter, decide_True in Hq by reflexivity.
        apply fmap_Some in Hq as (q0 & _ & ->). exact Hc.
      * exact (Hnr k' q Hk' Hq).
Qed.

Lemma frame_inv_same_real pairs pairs1 cg :
  frame_inv pairs cg -> same_real pairs pairs1 -> frame_inv pairs1 cg.
Proof.
  intros [Hk Hcl Hr Hc Hw Hs] [Hk1 Hsame].
  assert (Hto1 : forall n q, pairs !! n = Some q -> (color q < max_colors)%N -> pairs1 !! n = Some q)
    by (intros n q Hq Hlt; apply Hsame; [apply real_of_lt_max; exact Hlt|exact Hq]).
  split.
  - congruence.
  - intros n q c' Hq Hrq Hlt. apply Hsame in Hq; [|exact Hrq].
    destruct (Hcl n q c' Hq Hrq Hlt) as (k' & p' & Hp' & <-).
    exists k', p'. split; [|reflexivity]. apply Hto1; [exact Hp'|]. pose proof (Hr n q Hq Hrq). lia.
  - intros n q Hq Hrq. apply Hsame in Hq; [|exact Hrq]. eauto.
  - intros n q Hq Hrq. apply Hsame in Hq; [|exact Hrq]. eauto.
  - intros c Hcc. destruct (Hw c Hcc) as (Hlt & k' & p' & Hp' & <-). split; [exact Hlt|].
    exists k', p'. split; [apply Hto1; assumption|reflexivity].
  - exact Hs.
Qed.

Lemma color_neighbor_group_inv j aw pairs cg pairs' cg' :
  phase_inv j aw pairs cg ->
  color_neighbor_group slices ng pairs cg j = inr (pairs', cg') ->
  phase_inv (S j) (aw ++ [j]) pairs' cg'.
Proof.
  intros [Hfr Hfresh Hplaced] Hc. unfold color_neighbor_group in Hc.
  assert (Hgrow : forall k, (exists j', j' ∈ aw /\ k ∈ group_neighbor_pairs ng j') ->
            exists j', j' ∈ aw ++ [j] /\ k ∈ group_neighbor_pairs ng j').
  { intros k (j' & Hj' & Hk). exists j'. split; [apply elem_of_app; left; exact Hj'|exact Hk]. }
  destruct (group_neighbor_pairs ng j) as [|seed rest] eqn:Hg.
  - injection Hc as <- <-. split; [exact Hfr| |].
    + intros j' k p Hle. apply Hfresh. lia.
    + intros k p Hk Hr. apply Hgrow. eauto.
  - cbv zeta in Hc.
    set (pairs0 := fold_left (fun pairs k => alter (fun q => set_color q color_unmarked) k pairs)
                     (seed :: rest) pairs) in Hc.
    assert (Hnr : forall k q, k ∈ seed :: rest -> pairs !! k = Some q -> ~ real_color (color q))
      by (intros k q Hk; apply (Hfresh j); [lia|rewrite Hg; exact Hk]).
    destruct (same_real_fold_alter (seed :: rest) pairs color_unmarked Hnr unmarked_not_real)
      as (Hs0 & Hnr0).
    fold pairs0 in Hs0, Hnr0.
    assert (Hs1 : same_real pairs (alter (fun q => set_color q color_marked) seed pairs0)).
    { eapply same_real_trans; [exact Hs0|]. apply same_real_alter; [|exact marked_not_real].
      intros q. apply Hnr0. apply elem_of_cons. left. reflexivity. }
    assert (Hseed : seed ∈ group_neighbor_pairs ng j) by (rewrite Hg; apply elem_of_cons; left; reflexivity).
    assert (Hinv : color_loop_inv j aw (alter (fun q => set_color q color_marked) seed pairs0) [seed] cg).
    { destruct Hs1 as [Hk1 Hsame1]. split.
      - apply (frame_inv_same_real pairs); [exact Hfr|split; assumption].
      - intros j' k p Hlt Hk Hp Hr. apply Hsame1 in Hp; [|exact Hr].
        exact (Hfresh j' k p ltac:(lia) Hk Hp Hr).
      - intros k p Hp Hr. apply Hsame1 in Hp; [|exact Hr]. left. eauto.
      - apply NoDup_singleton.
      - intros k Hk. apply list_elem_of_singleton in Hk as ->. split; [exact Hseed|].
        destruct (gs_pairs_in _ _ _ gsA j seed Hseed) as (pA & HpA & _).
        destruct (keys_lookup pairs0 pairsA seed pA (eq_trans (proj1 Hs0) (fr_keys _ _ Hfr)) HpA)
          as (q & Hq & _).
        exists (set_color q color_marked). split; [|reflexivity].
        rewrite list_lookup_alter, decide_True, Hq by reflexivity. reflexivity. }
    pose proof (color_loop_inv_preserved _ _ _ _ _ _ _ _ Hinv Hc) as [Hfr' Hfresh' Hplaced' _ _].
    split; [exact Hfr'| |].
    + intros j' k p Hle. apply Hfresh'. lia.
    + intros k p Hk Hr. destruct (Hplaced' k p Hk Hr) as [H|H]; [apply Hgrow; exact H|].
      exists j. split; [apply elem_of_app; right; apply list_elem_of_singleton; reflexivity|].
      exact H.
Qed.


Lemma update_and_color_group_inv j w aw pairs cg w2 pairs2 aw2 cg2 :
  phase_inv j aw pairs cg ->
  update_and_color_group slices ng (w, pairs, aw, cg) j = inr (w2, pairs2, aw2, cg2) ->
  phase_inv (S j) aw2 pairs2 cg2.
Proof.
  intros Hph Hu. unfold update_and_color_group in Hu.
  destruct (update_neighbor_group_awake_states w (group_objects ng j)) as [w1 awake].
  destruct awake.
  - destruct (color_neighbor_group slices ng pairs cg j) as [e|[pairs1 cg1]] eqn:Hc;
      [discriminate|].
    injection Hu as <- <- <- <-. exact (color_neighbor_group_inv _ _ _ _ _ _ Hph Hc).
  - injection Hu as <- <- <- <-. destruct Hph as [Hfr Hfresh Hplaced].
    split; [exact Hfr| |exact Hplaced].
    intros j' k p Hle. apply Hfresh. lia.
Qed.

Lemma update_and_color_groups_inv w w' pairs' aw cg :
  (forall k p, pairsA !! k = Some p -> ~ real_color (color p)) ->
  update_and_color_groups slices ng w pairsA = inr (w', pairs', aw, cg) ->
  phase_inv (List.length (ng_groups ng)) aw pairs' cg.
Proof.
  intros Hnr Hu. unfold update_and_color_groups in Hu.
  refine (fold_m_seq_inv _
    (fun j st => let '(_, pairs, aw, cg) := st in phase_inv j aw pairs cg)
    0 _ _ _ _ _ Hu).
  - split; [split| |].
    + reflexivity.
    + intros k p c' Hp Hr. contradiction (Hnr k p Hp Hr).
    + intros k p Hp Hr. contradiction (Hnr k p Hp Hr).
    + intros k p Hp Hr. contradiction (Hnr k p Hp Hr).
    + intros c Hc. unfold counted, color_group_bounds in Hc. simpl in Hc.
      rewrite lookup_empty in Hc. simpl in Hc. lia.
    + intros c v Hv. simpl in Hv. rewrite lookup_empty in Hv. discriminate.
    + intros j' k p _ _ Hp. exact (Hnr k p Hp).
    + intros k p Hp Hr. contradiction (Hnr k p Hp Hr).
  - intros j [[[w1 pairs1] aw1] cg1] [[[w2 pairs2] aw2] cg2] _ Hph Hstep.
    exact (update_and_color_group_inv _ _ _ _ _ _ _ _ _ Hph Hstep).
Qed.
End Coloring_invariant.

Lemma counted_insert_ne nps cg c c' (v : nat * nat) :
  c <> c' -> counted (color_group_storage nps (<[c := v]> (cg_groups cg))) c' <-> counted cg c'.
Proof.
  intros Hne. unfold counted, color_group_bounds. simpl.
  rewrite lookup_insert_ne by exact Hne. reflexivity.
Qed.

(** [reserve_from] stops at the first color [m] that was not counted. *)
Lemma reserve_from_spec fuel c cg :
  exists m, (c <= m <= c + N.of_nat fuel)%N /\
    (forall c', (c <= c' < m)%N ->
       counted cg c' /\ exists i, cg_groups (reserve_from fuel c cg) !! c' = Some (i, i)) /\
    ((m < c + N.of_nat fuel)%N -> ~ counted cg m) /\
    (forall c', (c' < c \/ m <= c')%N ->
       cg_groups (reserve_from fuel c cg) !! c' = cg_groups cg !! c').
Proof.
  revert c cg. induction fuel as [|fuel IH]; intros c cg; cbn [reserve_from].
  - exists c. split; [lia|]. split; [intros c' Hc'; lia|]. split; [lia|]. reflexivity.
  - destruct (color_group_bounds cg c) as [b e] eqn:Hb.
    destruct (Nat.eqb_spec e 0) as [He|He].
    + exists c. split; [lia|]. split; [intros c' Hc'; lia|]. split; [|reflexivity].
      intros _. unfold counted. rewrite Hb. simpl. lia.
    + set (cg1 := color_group_storage (cg_neighbor_pairs cg ++ replicate e None)
                    (<[c := (List.length (cg_neighbor_pairs cg), List.length (cg_neighbor_pairs cg))]>
                       (cg_groups cg))).
      destruct (IH (N.succ c) cg1) as (m & Hm & Hbelow & Hstop & Hrest).
      assert (Hcnt : forall c', c <> c' -> counted cg1 c' <-> counted cg c')
        by (intros c' Hne; apply counted_insert_ne; exact Hne).
      exists m. split; [lia|]. split; [|split].
      * intros c' Hc'. destruct (decide (c' = c)) as [->|Hne].
        -- split; [unfold counted; rewrite Hb; simpl; lia|].
           exists (List.length (cg_neighbor_pairs cg)). rewrite Hrest by lia.
           apply lookup_insert_eq.
        -- destruct (Hbelow c' ltac:(lia)) as [Hc1 Hi]. split; [|exact Hi].
           apply (Hcnt c'); [congruence|exact Hc1].
      * intros Hlt Hc. apply Hstop; [lia|]. apply (Hcnt m); [lia|exact Hc].
      * intros c' Hc'. rewrite Hrest by lia. simpl. apply lookup_insert_ne. lia.
Qed.

Lemma reserve_spec cg :
  exists m, (m <= max_colors)%N /\
    (forall c', (c' < m)%N -> counted cg c' /\ exists i, cg_groups (reserve cg) !! c' = Some (i, i)) /\
    ((m < max_colors)%N -> ~ counted cg m) /\
    (forall c', (m <= c')%N -> cg_groups (reserve cg) !! c' = cg_groups cg !! c').
Proof.
  unfold reserve. destruct (reserve_from_spec (N.to_nat max_colors) 0 cg)
    as (m & Hm & Hbelow & Hstop & Hrest).
  rewrite N2Nat.id in Hm, Hstop. exists m. split; [lia|]. split; [|split].
  - intros c' Hc'. apply Hbelow. lia.
  - intros Hlt. apply Hstop. lia.
  - intros c' Hc'. apply Hrest. lia.
Qed.

Definition push_inv (m : N) (pairs : list Neighbor_pair) (done : list nat)
    (cg : Color_group_storage) : Prop :=
  (forall c, (m <= c)%N -> cg_groups cg !! c = None) /\
  (forall c, (c < m)%N -> exists b e, cg_groups cg !! c = Some (b, e) /\ (b <= e)%nat /\
     ((b < e)%nat <-> exists k p, k ∈ done /\ pairs !! k = Some p /\ color p = c)).

Lemma push_back_inv m pairs done cg k cg2 :
  (forall p, pairs !! k = Some p -> (color p < max_colors)%N -> (color p < m)%N) ->
  push_inv m pairs done cg -> push_back pairs cg k = inr cg2 ->
  push_inv m pairs (done ++ [k]) cg2.
Proof.
  intros Hm [Hnone Hsome] Hp. unfold push_back in Hp.
  destruct (pairs !! k) as [p|] eqn:Hk; [|discriminate].
  destruct (N.ltb_spec (color p) max_colors) as [Hlt|]; [|discriminate].
  pose proof (Hm p eq_refl Hlt) as Hcm.
  destruct (Hsome (color p) Hcm) as (b0 & e0 & Hbe & Hle & Hiff).
  unfold color_group_bounds in Hp. rewrite Hbe in Hp. simpl in Hp.
  destruct (Nat.ltb e0 (List.length (cg_neighbor_pairs cg))); [|discriminate].
  injection Hp as <-. split; simpl.
  - intros c Hc. rewrite lookup_insert_ne by lia. apply Hnone. exact Hc.
  - intros c Hc. destruct (decide (color p = c)) as [<-|Hne].
    + exists b0, (S e0). rewrite lookup_insert_eq. split; [reflexivity|]. split; [lia|].
      split; [intros _|lia]. exists k, p. split; [apply elem_of_app; right; apply list_elem_of_singleton; reflexivity|].
      split; [exact Hk|reflexivity].
    + rewrite lookup_insert_ne by exact Hne.
      destruct (Hsome c Hc) as (b & e & Hbe' & Hle' & Hiff'). exists b, e.
      split; [exact Hbe'|]. split; [exact Hle'|]. rewrite Hiff'. split.
      * intros (k' & p' & Hk' & Hp' & Hc'). exists k', p'. split; [apply elem_of_app; left; exact Hk'|auto].
      * intros (k' & p' & Hk' & Hp' & Hc'). exists k', p'. split; [|auto].
        apply elem_of_app in Hk' as [Hk'|Hk']; [exact Hk'|].
        apply list_elem_of_singleton in Hk' as ->. congruence.
Qed.

Lemma push_back_fold_inv m pairs ks done cg cg' :
  (forall k p, k ∈ ks -> pairs !! k = Some p -> (color p < max_colors)%N -> (color p < m)%N) ->
  push_inv m pairs done cg -> fold_m (push_back pairs) ks cg = inr cg' ->
  push_inv m pairs (done ++ ks) cg'.
Proof.
  revert done cg. induction ks as [|k ks IH]; intros done cg Hm Hinv Hf; simpl in Hf.
  - injection Hf as <-. rewrite app_nil_r. exact Hinv.
  - destruct (push_back pairs cg k) as [e|cg1] eqn:Hp; [discriminate|].
    replace (done ++ k :: ks) with ((done ++ [k]) ++ ks) by (rewrite <- app_assoc; reflexivity).
    apply (IH _ cg1); [|eapply push_back_inv; [|exact Hinv|exact Hp]|exact Hf].
    + intros k' p Hk'. apply Hm. apply elem_of_cons. right. exact Hk'.
    + intros p. apply Hm. apply elem_of_cons. left. reflexivity.
Qed.

Lemma dispatch_colors_from_spec cg fuel c x :
  x ∈ dispatch_colors_from cg fuel c <->
  (c <= x < c + N.of_nat fuel)%N /\
  (forall c', (c <= c' <= x)%N -> color_group_size cg c' <> 0%nat).
Proof.
  revert c. induction fuel as [|fuel IH]; intros c; cbn [dispatch_colors_from].
  - split; [intros H; apply elem_of_nil in H as []|]. intros [H _]. lia.
  - destruct (Nat.eqb_spec (color_group_size cg c) 0) as [Hz|Hz].
    + split; [intros H; apply elem_of_nil in H as []|]. intros [Hx Hall].
      exfalso. apply (Hall c); [lia|exact Hz].
    + rewrite elem_of_cons, IH. split.
      * intros [->|[Hx Hall]]; split; [lia| |lia|].
        -- intros c' Hc'. replace c' with c by lia. exact Hz.
        -- intros c' Hc'. destruct (decide (c' = c)) as [->|Hne]; [exact Hz|]. apply Hall. lia.
      * intros [Hx Hall]. destruct (decide (x = c)) as [->|Hne]; [left; reflexivity|right].
        split; [lia|]. intros c' Hc'. apply Hall. lia.
Qed.

(** What the coloring and the color groups of a frame look like. *)
Lemma color_frame_colors w leaf_pairs w' pairs ng aw cg :
  color_frame w leaf_pairs = inr (w', pairs, ng, aw, cg) ->
  (forall k p c', pairs !! k = Some p -> (color p < max_colors)%N -> (c' < color p)%N ->
     exists k' p', pairs !! k' = Some p' /\ color p' = c') /\
  (forall c, (c < max_colors)%N ->
     color_group_size cg c <> 0%nat <-> exists k p, pairs !! k = Some p /\ color p = c) /\
  (forall c c', (c' <= c)%N -> color_group_size cg c <> 0%nat -> color_group_size cg c' <> 0%nat) /\
  (forall c, color_group_size cg c <> 0%nat <-> c ∈ dispatch_colors cg).
Proof.
  unfold color_frame. intros Hc.
  destruct (find_neighbor_groups w _ _) as [e|[pairsA ng0]] eqn:Hg; [discriminate|].
  destruct (find_neighbor_groups_structure _ _ _ _ Hg) as (gs & _ & Hum).
  destruct (update_and_color_groups _ ng0 w pairsA) as [e|[[[w1 pairsB] aw1] cgB]] eqn:Hu;
    [discriminate|].
  destruct (assign_color_groups ng0 pairsB aw1 (reserve cgB)) as [e|cg1] eqn:Ha; [discriminate|].
  injection Hc as <- <- <- <- <-.
  assert (Hnr : forall k p, pairsA !! k = Some p -> ~ real_color (color p))
    by (intros k p Hp [H1 H2]; destruct (Hum k p Hp); contradiction).
  destruct (update_and_color_groups_inv _ _ _ gs _ _ _ _ _ Hnr Hu) as [Hfr _ Hplaced].
  destruct (reserve_spec cgB) as (m & Hm & Hbelow & Hstop & Hrest).
  assert (Hcnt : forall c, counted cgB c <-> (c < m)%N).
  { intros c. split; [|intros Hc; apply Hbelow, Hc].
    intros Hc. destruct (N.lt_ge_cases c m) as [H|H]; [exact H|exfalso].
    destruct (fr_witness _ _ _ Hfr c Hc) as (Hcmax & k & p & Hp & Hpc).
    assert (Hmmax : (m < max_colors)%N) by lia.
    destruct (N.eq_dec m c) as [->|Hne]; [exact (Hstop Hmmax Hc)|].
    destruct (fr_closed _ _ _ Hfr k p m Hp) as (k' & p' & Hp' & Hpm);
      [rewrite Hpc; apply real_of_lt_max; exact Hcmax|lia|].
    apply (Hstop Hmmax). rewrite <- Hpm. apply (fr_counted _ _ _ Hfr k' p' Hp').
    rewrite Hpm. apply real_of_lt_max. exact Hmmax. }
  assert (Hinit : push_inv m pairsB [] (reserve cgB)).
  { split.
    - intros c Hc. rewrite Hrest by exact Hc.
      destruct (cg_groups cgB !! c) as [v|] eqn:Hv; [|reflexivity]. exfalso.
      pose proof (fr_stored _ _ _ Hfr c v Hv) as H1.
      assert (H2 : counted cgB c) by (unfold counted, color_group_bounds; rewrite Hv; exact H1).
      apply Hcnt in H2. lia.
    - intros c Hc. destruct (Hbelow c Hc) as (_ & i & Hi). exists i, i.
      split; [exact Hi|]. split; [lia|]. split; [lia|].
      intros (k & p & Hk & _). apply elem_of_nil in Hk as []. }
  unfold assign_color_groups in Ha.
  destruct (push_back_fold_inv m pairsB _ [] _ _ ltac:(
      intros k p _ Hp Hlt; apply Hcnt; apply (fr_counted _ _ _ Hfr k p Hp);
      apply real_of_lt_max; exact Hlt) Hinit Ha) as [Hnone Hsome].
  assert (Hpairs : forall c, (c < m)%N <-> (c < max_colors)%N /\
                     exists k p, pairsB !! k = Some p /\ color p = c).
  { intros c. rewrite <- Hcnt. split.
    - intros Hc. destruct (fr_witness _ _ _ Hfr c Hc) as (Hlt & H). split; [exact Hlt|exact H].
    - intros (Hlt & k & p & Hp & <-). apply (fr_counted _ _ _ Hfr k p Hp). apply real_of_lt_max. exact Hlt. }
  assert (Hsize : forall c, color_group_size cg1 c <> 0%nat <-> (c < m)%N).
  { intros c. unfold color_group_size, color_group_bounds.
    destruct (N.lt_ge_cases c m) as [Hc|Hc].
    - destruct (Hsome c Hc) as (b & e & Hbe & Hle & Hiff). rewrite Hbe. simpl.
      split; [intros _; exact Hc|]. intros _.
      assert (b < e)%nat; [|lia]. apply Hiff.
      destruct (proj1 (Hpairs c) Hc) as (Hlt & k & p & Hp & Hpc).
      destruct (Hplaced k p Hp) as (j' & Hj' & Hk); [rewrite Hpc; apply real_of_lt_max; exact Hlt|].
      exists k, p. split; [|split; [exact Hp|exact Hpc]].
      simpl. exact (elem_of_concat_map _ _ _ _ Hj' Hk).
    - rewrite Hnone by exact Hc. simpl. split; [intros H; contradiction H; reflexivity|lia]. }
  split; [|split; [|split]].
  - intros k p c' Hp Hlt Hc'.
    exact (fr_closed _ _ _ Hfr k p c' Hp (real_of_lt_max _ Hlt) Hc').
  - intros c Hlt. rewrite Hsize, Hpairs. tauto.
  - intros c c' Hle. rewrite !Hsize. lia.
  - intros c. rewrite Hsize. unfold dispatch_colors. rewrite dispatch_colors_from_spec.
    rewrite N2Nat.id. split.
    + intros Hc. split; [lia|]. intros c' Hc'. apply Hsize. lia.
    + intros [_ Hall]. apply Hsize. apply Hall. lia.
Qed.

(** ** Sleeping objects are at rest. *)

Definition particle_at_rest (d : Particle_data) : Prop :=
  p_awake d = false -> p_velocity d = zero.

Definition rigid_body_at_rest (d : Rigid_body_data) : Prop :=
  r_awake d = false -> r_velocity d = zero /\ r_angular_velocity d = zero.

Definition asleep_at_rest (w : World) : Prop :=
  map_Forall (fun _ d => particle_at_rest d) (st_data (particles w)) /\
  map_Forall (fun _ d => rigid_body_at_rest d) (st_data (rigid_bodies w)).

Definition awake_or_absent (w : World) (o : Dynamic_object) : Prop :=
  forall a m, object_awake_state w o = Some (a, m) -> a = true.

Lemma awake_or_absent_particle w h :
  awake_or_absent w (Dynamic_particle h) <->
  forall d, st_data (particles w) !! h = Some d -> p_awake d = true.
Proof.
  unfold awake_or_absent, object_awake_state. split; intros H.
  - intros d Hd. apply (H _ (p_waking_motion d)). rewrite Hd. reflexivity.
  - intros a m Ha. apply fmap_Some in Ha as (d & Hd & Heq). injection Heq as -> _. exact (H d Hd).
Qed.

Lemma awake_or_absent_rigid_body w h :
  awake_or_absent w (Dynamic_rigid_body h) <->
  forall d, st_data (rigid_bodies w) !! h = Some d -> r_awake d = true.
Proof.
  unfold awake_or_absent, object_awake_state. split; intros H.
  - intros d Hd. apply (H _ (r_waking_motion d)). rewrite Hd. reflexivity.
  - intros a m Ha. apply fmap_Some in Ha as (d & Hd & Heq). injection Heq as -> _. exact (H d Hd).
Qed.

(** A step that leaves the sleeping objects as they are and keeps every
    awake flag. *)
Record keeps_rest (w w' : World) : Prop := {
  kr_particles : forall h d', st_data (particles w') !! h = Some d' ->
    exists d, st_data (particles w) !! h = Some d /\ p_awake d' = p_awake d /\
      (p_awake d = false -> d' = d);
  kr_rigid_bodies : forall h d', st_data (rigid_bodies w') !! h = Some d' ->
    exists d, st_data (rigid_bodies w) !! h = Some d /\ r_awake d' = r_awake d /\
      (r_awake d = false -> d' = d);
}.

Lemma keeps_rest_refl w : keeps_rest w w.
Proof. split; intros h d' Hd'; exists d'; auto. Qed.

Lemma keeps_rest_trans w1 w2 w3 : keeps_rest w1 w2 -> keeps_rest w2 w3 -> keeps_rest w1 w3.
Proof.
  intros [Hp1 Hr1] [Hp2 Hr2]. split.
  - intros h d3 Hd3. destruct (Hp2 h d3 Hd3) as (d2 & Hd2 & Ha2 & He2).
    destruct (Hp1 h d2 Hd2) as (d1 & Hd1 & Ha1 & He1). exists d1.
    split; [exact Hd1|]. split; [congruence|]. intros Hf. rewrite He2 by congruence. auto.
  - intros h d3 Hd3. destruct (Hr2 h d3 Hd3) as (d2 & Hd2 & Ha2 & He2).
    destruct (Hr1 h d2 Hd2) as (d1 & Hd1 & Ha1 & He1). exists d1.
    split; [exact Hd1|]. split; [congruence|]. intros Hf. rewrite He2 by congruence. auto.
Qed.

Lemma keeps_rest_awake w w1 o : keeps_rest w w1 -> awake_or_absent w o -> awake_or_absent w1 o.
Proof.
  intros [Hp Hr] Ho. destruct o as [h|h].
  - rewrite awake_or_absent_particle in Ho |- *. intros d' Hd'.
    destruct (Hp h d' Hd') as (d & Hd & -> & _). exact (Ho d Hd).
  - rewrite awake_or_absent_rigid_body in Ho |- *. intros d' Hd'.
    destruct (Hr h d' Hd') as (d & Hd & -> & _). exact (Ho d Hd).
Qed.

Lemma keeps_rest_at_rest w w1 : keeps_rest w w1 -> asleep_at_rest w -> asleep_at_rest w1.
Proof.
  intros [Hp Hr] [Hwp Hwr]. split.
  - intros h d' Hd' Ha. destruct (Hp h d' Hd') as (d & Hd & Hae & He).
    rewrite He by congruence. apply (Hwp h d Hd). congruence.
  - intros h d' Hd' Ha. destruct (Hr h d' Hd') as (d & Hd & Hae & He).
    rewrite He by congruence. apply (Hwr h d Hd). congruence.
Qed.

Lemma alter_object_keeps fp fr w o :
  (forall d, p_awake (fp d) = p_awake d) -> (forall d, r_awake (fr d) = r_awake d) ->
  awake_or_absent w o -> keeps_rest w (alter_object fp fr w o).
Proof.
  intros Hfp Hfr Ho. destruct o as [h|h]; simpl.
  - rewrite awake_or_absent_particle in Ho. split; simpl; [|intros h' d' Hd'; exists d'; auto].
    intros h' d' Hd'. apply lookup_alter_Some in Hd' as [(<- & d & Hd & ->)|(_ & Hd)].
    + exists d. split; [exact Hd|]. split; [apply Hfp|]. rewrite (Ho d Hd). discriminate.
    + exists d'. auto.
  - rewrite awake_or_absent_rigid_body in Ho. split; simpl; [intros h' d' Hd'; exists d'; auto|].
    intros h' d' Hd'. apply lookup_alter_Some in Hd' as [(<- & d & Hd & ->)|(_ & Hd)].
    + exists d. split; [exact Hd|]. split; [apply Hfr|]. rewrite (Ho d Hd). discriminate.
    + exists d'. auto.
Qed.

(** Object data outside the altered object does not change. *)
Definition same_object (w w1 : World) (o : Dynamic_object) : Prop :=
  match o with
  | Dynamic_particle h => st_data (particles w1) !! h = st_data (particles w) !! h
  | Dynamic_rigid_body h => st_data (rigid_bodies w1) !! h = st_data (rigid_bodies w) !! h
  end.

Lemma same_object_awake w w1 o : same_object w w1 o -> awake_or_absent w o -> awake_or_absent w1 o.
Proof.
  destruct o as [h|h]; simpl; intros Hs.
  - rewrite !awake_or_absent_particle, Hs. tauto.
  - rewrite !awake_or_absent_rigid_body, Hs. tauto.
Qed.

Lemma alter_object_same fp fr w o o' : o <> o' -> same_object w (alter_object fp fr w o) o'.
Proof.
  intros Hne. destruct o as [h|h], o' as [h'|h']; simpl; try reflexivity;
    apply lookup_alter_ne; congruence.
Qed.

Lemma fold_alter_same fp fr objs w o :
  o ∉ objs -> same_object w (fold_left (alter_object fp fr) objs w) o.
Proof.
  revert w. induction objs as [|o1 objs IH]; intros w Hn; simpl.
  - destruct o; reflexivity.
  - assert (Ho1 : o1 <> o) by (intros ->; apply Hn, elem_of_cons; left; reflexivity).
    assert (Hr : o ∉ objs) by (intros H; apply Hn, elem_of_cons; right; exact H).
    pose proof (IH (alter_object fp fr w o1) Hr) as H1.
    pose proof (alter_object_same fp fr w o1 o Ho1) as H2.
    destruct o; simpl in *; congruence.
Qed.

Lemma alter_object_at_rest fp fr w o :
  (forall d, particle_at_rest d -> particle_at_rest (fp d)) ->
  (forall d, rigid_body_at_rest d -> rigid_body_at_rest (fr d)) ->
  asleep_at_rest w -> asleep_at_rest (alter_object fp fr w o).
Proof.
  intros Hfp Hfr [Hp Hr]. destruct o as [h|h]; simpl; split; simpl; try assumption.
  - intros h' d' Hd'. apply lookup_alter_Some in Hd' as [(<- & d & Hd & ->)|(_ & Hd)].
    + apply Hfp. exact (Hp h d Hd).
    + exact (Hp h' d' Hd).
  - intros h' d' Hd'. apply lookup_alter_Some in Hd' as [(<- & d & Hd & ->)|(_ & Hd)].
    + apply Hfr. exact (Hr h d Hd).
    + exact (Hr h' d' Hd).
Qed.

Lemma fold_alter_at_rest fp fr objs w :
  (forall d, particle_at_rest d -> particle_at_rest (fp d)) ->
  (forall d, rigid_body_at_rest d -> rigid_body_at_rest (fr d)) ->
  asleep_at_rest w -> asleep_at_rest (fold_left (alter_object fp fr) objs w).
Proof.
  intros Hfp Hfr. revert w. induction objs as [|o objs IH]; intros w Hw; simpl; [exact Hw|].
  apply IH. apply alter_object_at_rest; assumption.
Qed.

Lemma sleep_particle_at_rest d : particle_at_rest d -> particle_at_rest (sleep_particle d).
Proof. unfold sleep_particle. destruct (p_awake d) eqn:Ha; [intros _ _; reflexivity|exact id]. Qed.

Lemma sleep_rigid_body_at_rest d : rigid_body_at_rest d -> rigid_body_at_rest (sleep_rigid_body d).
Proof.
  unfold sleep_rigid_body. destruct (r_awake d) eqn:Ha; [intros _ _; split; reflexivity|exact id].
Qed.

Lemma wake_particle_at_rest d : particle_at_rest d -> particle_at_rest (wake_particle d).
Proof. unfold wake_particle. destruct (p_awake d) eqn:Ha; [exact id|intros _ H; discriminate]. Qed.

Lemma wake_rigid_body_at_rest d : rigid_body_at_rest d -> rigid_body_at_rest (wake_rigid_body d).
Proof. unfold wake_rigid_body. destruct (r_awake d) eqn:Ha; [exact id|intros _ H; discriminate]. Qed.

(** After a fold that sets the awake flag of each object of a list to
    [b], each of them has flag [b]. *)
Definition object_flag (w : World) (o : Dynamic_object) (b : bool) : Prop :=
  forall a m, object_awake_state w o = Some (a, m) -> a = b.

Lemma fold_alter_flag fp fr b objs w o :
  (forall d, p_awake (fp d) = b) -> (forall d, r_awake (fr d) = b) ->
  o ∈ objs -> object_flag (fold_left (alter_object fp fr) objs w) o b.
Proof.
  intros Hfp Hfr.
  assert (Hset : forall w o, object_flag (alter_object fp fr w o) o b).
  { intros w0 [h|h] a m Ha; simpl in Ha.
    - rewrite lookup_alter_eq in Ha. apply fmap_Some in Ha as (d & Hd & Heq).
      apply fmap_Some in Hd as (d0 & _ & ->). injection Heq as -> _. apply Hfp.
    - rewrite lookup_alter_eq in Ha. apply fmap_Some in Ha as (d & Hd & Heq).
      apply fmap_Some in Hd as (d0 & _ & ->). injection Heq as -> _. apply Hfr. }
  assert (Hkeep : forall w o o', object_flag w o b -> object_flag (alter_object fp fr w o') o b).
  { intros w0 o0 o' Ho. destruct (decide (o' = o0)) as [<-|Hne]; [apply Hset|].
    pose proof (alter_object_same fp fr w0 o' o0 Hne) as Hs.
    intros a m Ha. apply (Ho a m). destruct o0; simpl in Hs, Ha |- *; rewrite <- Hs; exact Ha. }
  revert w. induction objs as [|o1 objs IH]; intros w Ho; simpl; [apply elem_of_nil in Ho as []|].
  apply elem_of_cons in Ho as [->|Ho]; [|exact (IH _ Ho)].
  clear IH. generalize (alter_object fp fr w o1) (Hset w o1).
  induction objs as [|o2 objs IH']; intros w1 H1; simpl; [exact H1|].
  apply IH'. apply Hkeep. exact H1.
Qed.

Lemma fold_wake_awake objs w o :
  o ∈ objs -> awake_or_absent (fold_left (alter_object wake_particle wake_rigid_body) objs w) o.
Proof.
  apply fold_alter_flag.
  - intros d. unfold wake_particle. destruct (p_awake d) eqn:Ha; [exact Ha|reflexivity].
  - intros d. unfold wake_rigid_body. destruct (r_awake d) eqn:Ha; [exact Ha|reflexivity].
Qed.

Lemma scan_sleeping_monotone w objs ca sl ca' cs' sl' :
  scan_neighbor_group w objs ca true sl = (ca', cs', sl') -> cs' = true.
Proof.
  revert ca sl. induction objs as [|o objs IH]; intros ca sl Hs; simpl in Hs.
  - congruence.
  - match type of Hs with context [if ?b then _ else _] => destruct b end; [|congruence].
    destruct (object_awake_state w o) as [[[] m]|]; eapply IH; exact Hs.
Qed.

(** A scan that saw no sleeping object saw only awake or absent ones. *)
Lemma scan_no_sleeping w objs ca sl ca' sl' :
  scan_neighbor_group w objs ca false sl = (ca', false, sl') ->
  forall o, o ∈ objs -> awake_or_absent w o.
Proof.
  revert ca sl. induction objs as [|o1 objs IH]; intros ca sl Hs o Ho;
    [apply elem_of_nil in Ho as []|].
  simpl in Hs. rewrite orb_true_r in Hs.
  destruct (object_awake_state w o1) as [[[] m]|] eqn:Hst.
  - apply elem_of_cons in Ho as [->|Ho].
    + intros a m' Ha. rewrite Hst in Ha. congruence.
    + exact (IH _ _ Hs o Ho).
  - apply scan_sleeping_monotone in Hs. discriminate.
  - apply elem_of_cons in Ho as [->|Ho].
    + intros a m' Ha. rewrite Hst in Ha. discriminate.
    + exact (IH _ _ Hs o Ho).
Qed.

Lemma update_awake_states_spec w objs w1 awake :
  asleep_at_rest w -> update_neighbor_group_awake_states w objs = (w1, awake) ->
  asleep_at_rest w1 /\ (forall o, o ∉ objs -> same_object w w1 o) /\
  (awake = true -> forall o, o ∈ objs -> awake_or_absent w1 o).
Proof.
  intros Hw Hu. unfold update_neighbor_group_awake_states in Hu.
  destruct (scan_neighbor_group w objs false false true) as [[ca cs] sl] eqn:Hs.
  assert (Hid : forall o, same_object w w o) by (intros [h|h]; reflexivity).
  destruct ca; [destruct sl|].
  - injection Hu as <- <-. split; [|split; [|discriminate]].
    + apply fold_alter_at_rest; [exact sleep_particle_at_rest|exact sleep_rigid_body_at_rest|exact Hw].
    + intros o Ho. apply fold_alter_same. exact Ho.
  - injection Hu as <- <-. destruct cs.
    + split; [|split].
      * apply fold_alter_at_rest; [exact wake_particle_at_rest|exact wake_rigid_body_at_rest|exact Hw].
      * intros o Ho. apply fold_alter_same. exact Ho.
      * intros _ o Ho. apply fold_wake_awake. exact Ho.
    + split; [exact Hw|]. split; [intros o _; apply Hid|].
      intros _. exact (scan_no_sleeping _ _ _ _ _ _ Hs).
  - injection Hu as <- <-. split; [exact Hw|]. split; [intros o _; apply Hid|discriminate].
Qed.

(** The coloring only counts: it writes no entry of [_neighbor_pairs]. *)
Lemma color_step_entries slices pairs fringe cg pairs' fringe' cg' :
  color_step slices (pairs, fringe, cg) = inr (pairs', fringe', cg') ->
  cg_neighbor_pairs cg' = cg_neighbor_pairs cg.
Proof.
  unfold color_step. destruct fringe as [|k fringe]; [discriminate|].
  destruct (pairs !! k) as [p|]; [|discriminate].
  destruct (fold_left color_neighbor _ _) as [[pairs1 fringe1] bits].
  destruct (find_unset_color bits 0 _) as [c|]; [|discriminate].
  intros [= _ _ <-]. unfold count. destruct (color_group_bounds cg c). reflexivity.
Qed.

Lemma color_loop_entries slices fuel pairs fringe cg pairs' cg' :
  color_loop slices fuel (pairs, fringe, cg) = inr (pairs', cg') ->
  cg_neighbor_pairs cg' = cg_neighbor_pairs cg.
Proof.
  revert pairs fringe cg. induction fuel as [|fuel IH]; intros pairs fringe cg Hl;
    cbn [color_loop] in Hl; [discriminate|].
  destruct (color_step slices (pairs, fringe, cg)) as [e|[[pairs1 fringe1] cg1]] eqn:Hst;
    [discriminate|].
  rewrite <- (color_step_entries _ _ _ _ _ _ _ Hst).
  destruct fringe1 as [|k1 fringe1]; [injection Hl as _ <-; reflexivity|].
  exact (IH _ _ _ Hl).
Qed.

Lemma color_neighbor_group_entries slices ng pairs cg j pairs' cg' :
  color_neighbor_group slices ng pairs cg j = inr (pairs', cg') ->
  cg_neighbor_pairs cg' = cg_neighbor_pairs cg.
Proof.
  unfold color_neighbor_group. destruct (group_neighbor_pairs ng j) as [|seed rest].
  - intros [= _ <-]. reflexivity.
  - apply color_loop_entries.
Qed.

(** The group loop of a frame: the world stays at rest, every object of an
    awake group is awake, and no entry is written. *)
Lemma update_and_color_groups_awake slices ng w pairs w' pairs' aw cg :
  (forall i j d, d ∈ group_objects ng i -> d ∈ group_objects ng j -> i = j) ->
  asleep_at_rest w ->
  update_and_color_groups slices ng w pairs = inr (w', pairs', aw, cg) ->
  asleep_at_rest w' /\
  (forall j o, j ∈ aw -> o ∈ group_objects ng j -> awake_or_absent w' o) /\
  cg_neighbor_pairs cg = [].
Proof.
  intros Hdis Hw Hu. unfold update_and_color_groups in Hu.
  assert (H : asleep_at_rest w' /\
       (forall j' o, j' ∈ aw -> (j' < 0 + List.length (ng_groups ng))%nat /\
          (o ∈ group_objects ng j' -> awake_or_absent w' o)) /\
       cg_neighbor_pairs cg = []).
  2:{ destruct H as (Hw' & Haw & Hcg). split; [exact Hw'|]. split; [|exact Hcg].
      intros j o Hj Ho. exact (proj2 (Haw j o Hj) Ho). }
  refine (fold_m_seq_inv _
    (fun j st => let '(w, _, aw, cg) := st in
       asleep_at_rest w /\
       (forall j' o, j' ∈ aw -> (j' < j)%nat /\ (o ∈ group_objects ng j' -> awake_or_absent w o)) /\
       cg_neighbor_pairs cg = [])
    0 _ _ _ _ _ Hu).
  - split; [exact Hw|]. split; [|reflexivity]. intros j' o Hj'. apply elem_of_nil in Hj' as [].
  - intros j [[[w1 pairs1] aw1] cg1] [[[w2 pairs2] aw2] cg2] _ (Hw1 & Haw1 & Hcg1) Hstep.
    unfold update_and_color_group in Hstep.
    destruct (update_neighbor_group_awake_states w1 (group_objects ng j)) as [w3 awake] eqn:Hup.
    destruct (update_awake_states_spec _ _ _ _ Hw1 Hup) as (Hw3 & Hsame & Hawake).
    assert (Hold : forall j' o, j' ∈ aw1 -> (j' < S j)%nat /\
              (o ∈ group_objects ng j' -> awake_or_absent w3 o)).
    { intros j' o Hj'. destruct (Haw1 j' o Hj') as [Hlt Ho]. split; [lia|].
      intros Hin. apply (same_object_awake w1); [|exact (Ho Hin)].
      apply Hsame. intros Hin'. pose proof (Hdis _ _ _ Hin Hin'). lia. }
    destruct awake.
    + destruct (color_neighbor_group slices ng pairs1 cg1 j) as [e|[pairs4 cg4]] eqn:Hc;
        [discriminate|].
      injection Hstep as <- <- <- <-. split; [exact Hw3|]. split.
      * intros j' o Hj'. apply elem_of_app in Hj' as [Hj'|Hj']; [exact (Hold j' o Hj')|].
        apply list_elem_of_singleton in Hj' as ->. split; [lia|]. apply Hawake. reflexivity.
      * rewrite (color_neighbor_group_entries _ _ _ _ _ _ _ Hc). exact Hcg1.
    + injection Hstep as <- <- <- <-. split; [exact Hw3|]. split; [exact Hold|exact Hcg1].
Qed.

(** ** The substeps touch only awake objects. *)

Lemma fold_keeps {A} (f : World -> A -> World) (l : list A) w w1 :
  (forall w2 a, a ∈ l -> keeps_rest w w2 -> keeps_rest w2 (f w2 a)) ->
  keeps_rest w w1 -> keeps_rest w (fold_left f l w1).
Proof.
  revert w1. induction l as [|a l IH]; intros w1 Hf H1; simpl; [exact H1|].
  apply IH.
  - intros w2 b Hb. apply Hf. apply elem_of_cons. right. exact Hb.
  - eapply keeps_rest_trans; [exact H1|]. apply Hf; [apply elem_of_cons; left; reflexivity|exact H1].
Qed.

Lemma for_awake_objects_keeps f ng aw w :
  (forall w1 o, awake_or_absent w1 o -> keeps_rest w1 (f w1 o)) ->
  (forall j o, j ∈ aw -> o ∈ group_objects ng j -> awake_or_absent w o) ->
  keeps_rest w (for_awake_objects f ng aw w).
Proof.
  intros Hf Haw. unfold for_awake_objects. apply fold_keeps; [|apply keeps_rest_refl].
  intros w2 j Hj H2. apply fold_keeps; [|apply keeps_rest_refl].
  intros w3 o Ho H3. apply Hf. apply (keeps_rest_awake w2); [exact H3|].
  apply (keeps_rest_awake w); [exact H2|]. exact (Haw j o Hj Ho).
Qed.

Lemma set_particles_keeps fp h w :
  (forall d, p_awake (fp d) = p_awake d) -> awake_or_absent w (Dynamic_particle h) ->
  keeps_rest w (set_particles w (storage_alter fp h (particles w))).
Proof. intros Hfp Ho. exact (alter_object_keeps fp id w _ Hfp (fun _ => eq_refl) Ho). Qed.

Lemma set_rigid_bodies_keeps fr h w :
  (forall d, r_awake (fr d) = r_awake d) -> awake_or_absent w (Dynamic_rigid_body h) ->
  keeps_rest w (set_rigid_bodies w (storage_alter fr h (rigid_bodies w))).
Proof. intros Hfr Ho. exact (alter_object_keeps id fr w _ (fun _ => eq_refl) Hfr Ho). Qed.

Definition update_target (u : Position_update) : Dynamic_object :=
  match u with
  | Update_particle h _ => Dynamic_particle h
  | Update_rigid_body h _ _ => Dynamic_rigid_body h
  end.

Lemma apply_position_update_keeps sqrt w u :
  awake_or_absent w (update_target u) -> keeps_rest w (apply_position_update sqrt w u).
Proof.
  destruct u as [h dp|h dp dor]; simpl; intros Ho.
  - apply set_particles_keeps; [intros d; reflexivity|exact Ho].
  - apply set_rigid_bodies_keeps; [intros d; reflexivity|exact Ho].
Qed.

Ltac solve_targets H :=
  cbv zeta in H;
  repeat match type of H with
  | context [match ?x with _ => _ end] => destruct x
  end; injection H as _ <-; intros u Hu;
  repeat (apply elem_of_cons in Hu as [->|Hu]; [simpl; set_solver|]);
  apply elem_of_nil in Hu as [].

Lemma solve_neighbor_pair_targets sqrt g1 g2 g3 w p c us :
  solve_neighbor_pair sqrt g1 g2 g3 w p = Some (c, us) ->
  forall u, u ∈ us -> update_target u ∈ pair_dynamic_objects p.
Proof.
  unfold solve_neighbor_pair, pair_dynamic_objects.
  destruct (objects p) as [o0 o1]. destruct (type p).
  - destruct (st_data (particles w) !! o0) as [d0|]; [|discriminate]. simpl.
    destruct (st_data (particles w) !! o1) as [d1|]; [|discriminate]. simpl.
    unfold solve_neighbor_pair_pp. destruct (get_contact_geometry_pp _ d0 d1); [|discriminate].
    intros Heq. unfold solve_contact_pp in Heq. solve_targets Heq.
  - destruct (st_data (particles w) !! o0) as [d0|]; [|discriminate]. simpl.
    destruct (st_data (rigid_bodies w) !! o1) as [d1|]; [|discriminate]. simpl.
    unfold solve_neighbor_pair_pr. destruct (g1 _ _ _ _ _); [|discriminate].
    intros Heq. unfold solve_contact_pr in Heq. solve_targets Heq.
  - destruct (st_data (particles w) !! o0) as [d0|]; [|discriminate]. simpl.
    destruct (st_data (static_bodies w) !! o1) as [d1|]; [|discriminate]. simpl.
    unfold solve_neighbor_pair_ps. destruct (g2 _ _ _ _ _); [|discriminate].
    intros Heq. unfold solve_contact_ps in Heq. solve_targets Heq.
  - destruct (st_data (rigid_bodies w) !! o0) as [d0|]; [|discriminate]. simpl.
    destruct (st_data (rigid_bodies w) !! o1) as [d1|]; [|discriminate]. simpl.
    unfold solve_neighbor_pair_rr. destruct (g3 _ _ _ _ _ _); [|discriminate].
    intros Heq. unfold solve_contact_rr in Heq. solve_targets Heq.
  - destruct (st_data (rigid_bodies w) !! o0) as [d0|]; [|discriminate]. simpl.
    destruct (st_data (static_bodies w) !! o1) as [d1|]; [|discriminate]. simpl.
    unfold solve_neighbor_pair_rs. destruct (g3 _ _ _ _ _ _); [|discriminate].
    intros Heq. unfold solve_contact_rs in Heq. solve_targets Heq.
Qed.

(** The objects a pair names, where they are dynamic. *)
Definition handle_dynamic (o : Object_handle) : option Dynamic_object :=
  match o with
  | Particle_handle h => Some (Dynamic_particle h)
  | Rigid_body_handle h => Some (Dynamic_rigid_body h)
  | Static_body_handle _ => None
  end.

Lemma pair_object_handles_dynamic p o1 o2 :
  pair_object_handles p = (o1, o2) ->
  (forall d, handle_dynamic o1 = Some d -> d ∈ pair_dynamic_objects p) /\
  (forall d, handle_dynamic o2 = Some d -> d ∈ pair_dynamic_objects p).
Proof.
  unfold pair_object_handles, pair_dynamic_objects. destruct (objects p) as [h0 h1].
  destruct (type p); intros [= <- <-]; split; intros d [= <-]; set_solver.
Qed.

Lemma apply_impulse_to_keeps w o I_inv r impulse :
  (forall d, handle_dynamic o = Some d -> awake_or_absent w d) ->
  keeps_rest w (apply_impulse_to w o I_inv r impulse).
Proof.
  destruct o as [h|h|h]; simpl; intros Ho.
  - apply set_particles_keeps; [intros d; reflexivity|exact (Ho _ eq_refl)].
  - apply keeps_rest_refl.
  - apply set_rigid_bodies_keeps; [intros d; reflexivity|exact (Ho _ eq_refl)].
Qed.

Section Substep.
Variable sqrt : Q -> Q.
Variables (g1 : Vec3 -> Q -> Shape -> Mat3x4 -> Mat3x4 -> option Positionful_contact_geometry)
  (g2 : Vec3 -> Q -> Shape -> Mat3x4 -> Mat3x4 -> option Positionless_contact_geometry)
  (g3 : Shape -> Mat3x4 -> Mat3x4 -> Shape -> Mat3x4 -> Mat3x4 -> option Positionful_contact_geometry).
Variable pairs : list Neighbor_pair.
Variable entries : list (option nat).

(** Every pair an entry names has awake objects in [w]. *)
Definition entries_awake (w : World) : Prop :=
  forall k p, Some k ∈ entries -> pairs !! k = Some p ->
  forall o, o ∈ pair_dynamic_objects p -> awake_or_absent w o.

Lemma entries_awake_keeps w w1 : keeps_rest w w1 -> entries_awake w -> entries_awake w1.
Proof. intros H1 He k p Hk Hp o Ho. exact (keeps_rest_awake _ _ _ H1 (He k p Hk Hp o Ho)). Qed.

Lemma position_solve_keeps w w1 contacts :
  entries_awake w -> keeps_rest w w1 ->
  keeps_rest w (fst (fold_left (position_solve_entry sqrt g1 g2 g3 pairs) entries (w1, contacts))).
Proof.
  intros He. assert (Hl : forall e, e ∈ entries -> e ∈ entries) by auto.
  revert Hl. generalize entries at 1 3 as es. intros es Hes.
  revert w1 contacts. induction es as [|e es IH]; intros w1 contacts H1; cbn [fold_left];
    [exact H1|].
  destruct (position_solve_entry sqrt g1 g2 g3 pairs (w1, contacts) e) as [w2 cs2] eqn:Hstep.
  apply IH; [intros e' He'; apply Hes, elem_of_cons; right; exact He'|].
  unfold position_solve_entry in Hstep.
  destruct (e ≫= (fun k => pairs !! k)) as [p|] eqn:Hp; [|injection Hstep as <- _; exact H1].
  destruct e as [k|]; [|discriminate]. simpl in Hp.
  destruct (solve_neighbor_pair sqrt g1 g2 g3 w1 p) as [[c us]|] eqn:Hs;
    [|injection Hstep as <- _; exact H1].
  injection Hstep as <- _.
  apply fold_keeps; [|exact H1].
  intros w2 u Hu H2. apply apply_position_update_keeps.
  apply (keeps_rest_awake w); [exact H2|].
  apply (He k p); [apply Hes, elem_of_cons; left; reflexivity|exact Hp|].
  exact (solve_neighbor_pair_targets _ _ _ _ _ _ _ _ Hs u Hu).
Qed.

Lemma velocity_solve_keeps inverse_delta_time threshold contacts w w1 :
  entries_awake w -> keeps_rest w w1 ->
  keeps_rest w (fold_left (velocity_solve_entry sqrt inverse_delta_time threshold pairs)
                  (combine entries contacts) w1).
Proof.
  intros He H1. apply fold_keeps; [|exact H1].
  intros w2 [e c] Hec H2. unfold velocity_solve_entry.
  destruct e as [k|]; [|apply keeps_rest_refl]. destruct c as [c|]; [|apply keeps_rest_refl].
  destruct (veq (normal c) zero); [apply keeps_rest_refl|].
  destruct (pairs !! k) as [p|] eqn:Hp; [|apply keeps_rest_refl].
  destruct (pair_object_handles p) as [o1 o2] eqn:Ho.
  destruct (pair_object_handles_dynamic p o1 o2 Ho) as [Hd1 Hd2].
  destruct (object_data w2 o1), (object_data w2 o2); try apply keeps_rest_refl.
  destruct (velocity_solve_impulse _ _ _ _ _ _) as [[[I1 I2] impulse]|]; [|apply keeps_rest_refl].
  destruct (relative_positions c) as [r1 r2].
  assert (Hk : Some k ∈ entries).
  { apply list_elem_of_In in Hec. apply in_combine_l in Hec. apply list_elem_of_In. exact Hec. }
  assert (Haw : forall w3, keeps_rest w w3 -> forall x d, (x = o1 \/ x = o2) ->
            handle_dynamic x = Some d -> awake_or_absent w3 d).
  { intros w3 H3 x d Hoo Hd. apply (keeps_rest_awake w); [exact H3|].
    apply (He k p Hk Hp). destruct Hoo as [->| ->]; [apply Hd1|apply Hd2]; exact Hd. }
  pose proof (apply_impulse_to_keeps w2 o1 I1 r1 impulse
                (fun d Hd => Haw w2 H2 o1 d (or_introl eq_refl) Hd)) as K1.
  eapply keeps_rest_trans; [exact K1|]. apply apply_impulse_to_keeps.
  intros d Hd. apply (Haw _ (keeps_rest_trans _ _ _ H2 K1) o2 d (or_intror eq_refl) Hd).
Qed.

Lemma substep_keeps delta_time inverse_delta_time threshold damping smoothing ng aw w :
  (forall j o, j ∈ aw -> o ∈ group_objects ng j -> awake_or_absent w o) ->
  entries_awake w ->
  keeps_rest w (substep sqrt g1 g2 g3 delta_time inverse_delta_time threshold damping smoothing
                  ng aw pairs entries w).
Proof.
  intros Haw He. unfold substep.
  assert (K1 : keeps_rest w (for_awake_objects
             (integrate_object sqrt (gravitational_acceleration w) delta_time damping smoothing)
             ng aw w)).
  { apply for_awake_objects_keeps; [|exact Haw].
    intros w1 o Ho. apply alter_object_keeps; [intros d; reflexivity|intros d; reflexivity|exact Ho]. }
  pose proof (position_solve_keeps w _ [] He K1) as K2.
  destruct (fold_left (position_solve_entry sqrt g1 g2 g3 pairs) entries _) as [w2 contacts].
  simpl in K2.
  assert (K3 : keeps_rest w (for_awake_objects (derive_object_velocity inverse_delta_time) ng aw w2)).
  { eapply keeps_rest_trans; [exact K2|]. apply for_awake_objects_keeps.
    - intros w1 o Ho. apply alter_object_keeps; [intros d; reflexivity|intros d; reflexivity|exact Ho].
    - intros j o Hj Ho. exact (keeps_rest_awake _ _ _ K2 (Haw j o Hj Ho)). }
  exact (velocity_solve_keeps _ _ _ _ _ He K3).
Qed.

Lemma substeps_keeps delta_time inverse_delta_time threshold damping smoothing ng aw w n :
  (forall j o, j ∈ aw -> o ∈ group_objects ng j -> awake_or_absent w o) ->
  entries_awake w ->
  keeps_rest w (Nat.iter n (substep sqrt g1 g2 g3 delta_time inverse_delta_time threshold damping
                              smoothing ng aw pairs entries) w).
Proof.
  intros Haw He. induction n as [|n IH]; simpl; [apply keeps_rest_refl|].
  eapply keeps_rest_trans; [exact IH|]. apply substep_keeps.
  - intros j o Hj Ho. exact (keeps_rest_awake _ _ _ IH (Haw j o Hj Ho)).
  - exact (entries_awake_keeps _ _ IH He).
Qed.
End Substep.

(** ** The entries of the color groups. *)

Lemma reserve_from_entries fuel c cg k :
  Some k ∈ cg_neighbor_pairs (reserve_from fuel c cg) -> Some k ∈ cg_neighbor_pairs cg.
Proof.
  revert c cg. induction fuel as [|fuel IH]; intros c cg Hk; cbn [reserve_from] in Hk; [exact Hk|].
  destruct (color_group_bounds cg c) as [b e].
  destruct (Nat.eqb e 0); [exact Hk|].
  apply IH in Hk. simpl in Hk. apply elem_of_app in Hk as [Hk|Hk]; [exact Hk|].
  apply elem_of_replicate_inv in Hk. discriminate.
Qed.

Lemma push_back_fold_entries pairs ks cg cg' k :
  fold_m (push_back pairs) ks cg = inr cg' ->
  Some k ∈ cg_neighbor_pairs cg' -> Some k ∈ cg_neighbor_pairs cg \/ k ∈ ks.
Proof.
  revert cg. induction ks as [|k1 ks IH]; intros cg Hf Hk; simpl in Hf.
  - injection Hf as <-. left. exact Hk.
  - destruct (push_back pairs cg k1) as [e|cg1] eqn:Hp; [discriminate|].
    destruct (IH _ Hf Hk) as [Hk1|Hk1]; [|right; apply elem_of_cons; right; exact Hk1].
    unfold push_back in Hp.
    destruct (pairs !! k1) as [p|]; [|discriminate].
    destruct (N.ltb (color p) max_colors); [|discriminate].
    destruct (color_group_bounds cg (color p)) as [b e].
    destruct (Nat.ltb e _); [|discriminate].
    injection Hp as <-. simpl in Hk1.
    apply list_elem_of_lookup in Hk1 as (i & Hi). rewrite list_lookup_insert in Hi.
    case_decide; [injection Hi as ->; right; apply elem_of_cons; left; reflexivity|].
    left. exact (list_elem_of_lookup_2 _ _ _ Hi).
Qed.

Lemma color_group_entries cg c x : x ∈ color_group cg c -> x ∈ cg_neighbor_pairs cg.
Proof.
  unfold color_group, list_range. destruct (color_group_bounds cg c) as [b e].
  intros Hx. apply elem_of_take in Hx as (i & Hi & _).
  rewrite lookup_drop in Hi. exact (list_elem_of_lookup_2 _ _ _ Hi).
Qed.

(** What a frame hands to the substeps. *)
Lemma color_frame_awake w leaf_pairs w' pairs ng aw cg :
  color_frame w leaf_pairs = inr (w', pairs, ng, aw, cg) -> asleep_at_rest w ->
  asleep_at_rest w' /\
  (forall j o, j ∈ aw -> o ∈ group_objects ng j -> awake_or_absent w' o) /\
  entries_awake pairs (concat (map (color_group cg) (dispatch_colors cg))) w'.
Proof.
  unfold color_frame. intros Hc Hw.
  destruct (find_neighbor_groups w _ _) as [e|[pairsA ng0]] eqn:Hg; [discriminate|].
  destruct (find_neighbor_groups_structure _ _ _ _ Hg) as (gs & _ & Hum).
  destruct (update_and_color_groups _ ng0 w pairsA) as [e|[[[w1 pairsB] aw1] cgB]] eqn:Hu;
    [discriminate|].
  destruct (assign_color_groups ng0 pairsB aw1 (reserve cgB)) as [e|cg1] eqn:Ha; [discriminate|].
  injection Hc as <- <- <- <- <-.
  assert (Hnr : forall k p, pairsA !! k = Some p -> ~ real_color (color p))
    by (intros k p Hp [H1 H2]; destruct (Hum k p Hp); contradiction).
  destruct (update_and_color_groups_inv _ _ _ gs _ _ _ _ _ Hnr Hu) as [Hfr _ _].
  destruct (update_and_color_groups_awake _ _ _ _ _ _ _ _ (gs_disjoint _ _ _ gs) Hw Hu)
    as (Hw1 & Haw & Hcg).
  split; [exact Hw1|]. split; [exact Haw|].
  intros k p Hk Hp o Ho.
  apply elem_of_concat_map_inv in Hk as (c & _ & Hk).
  apply color_group_entries in Hk.
  unfold assign_color_groups in Ha.
  destruct (push_back_fold_entries _ _ _ _ _ Ha Hk) as [Hk'|Hk'].
  - apply reserve_from_entries in Hk'. rewrite Hcg in Hk'. apply elem_of_nil in Hk' as [].
  - apply elem_of_concat_map_inv in Hk' as (j & Hj & Hkj).
    destruct (gs_pairs_in _ _ _ gs j k Hkj) as (pA & HpA & Hdyn).
    destruct (keys_lookup _ _ _ _ (fr_keys _ _ _ Hfr) HpA) as (q & Hq & Hkey).
    rewrite Hp in Hq. injection Hq as <-.
    apply (Haw j o Hj). apply Hdyn. rewrite <- (pair_dynamic_objects_key _ _ Hkey). exact Ho.
Qed.

Lemma simulate_at_rest sqrt pow broadphase g1 g2 g3 w delta_time substep_count w' :
  asleep_at_rest w ->
  simulate sqrt pow broadphase g1 g2 g3 w delta_time substep_count = inr w' ->
  asleep_at_rest w'.
Proof.
  intros Hw Hs. unfold simulate in Hs.
  destruct (color_frame w _) as [e|[[[[w1 pairs] ng] aw] cg]] eqn:Hc; [discriminate|].
  injection Hs as <-.
  destruct (color_frame_awake _ _ _ _ _ _ _ Hc Hw) as (Hw1 & Haw & He).
  eapply keeps_rest_at_rest; [|exact Hw1]. apply substeps_keeps; assumption.
Qed.

Lemma reachable_at_rest sqrt pow broadphase g1 g2 g3 ci w :
  reachable sqrt pow broadphase g1 g2 g3 ci w -> asleep_at_rest w.
Proof.
  induction 1 as [| w ci' h w' _ IH Hc | w ci' h w' _ IH Hc | w ci' h w' _ IH Hc
                 | w h _ IH _ | w h _ IH _ | w h _ IH _ | w dt n w' _ IH Hs].
  - split; apply map_Forall_empty.
  - unfold create_particle, create in Hc.
    destruct (last (st_free_indices (particles w))) as [i|]; [|discriminate].
    injection Hc as <- <-. destruct IH as [Hp Hr]. split; [|exact Hr]. simpl.
    apply map_Forall_insert_2; [|exact Hp]. intros Hf. discriminate.
  - unfold create_rigid_body, create in Hc.
    destruct (last (st_free_indices (rigid_bodies w))) as [i|]; [|discriminate].
    injection Hc as <- <-. destruct IH as [Hp Hr]. split; [exact Hp|]. simpl.
    apply map_Forall_insert_2; [|exact Hr]. intros Hf. discriminate.
  - unfold create_static_body, create in Hc.
    destruct (last (st_free_indices (static_bodies w))) as [i|]; [|discriminate].
    injection Hc as <- <-. exact IH.
  - exact IH.
  - exact IH.
  - exact IH.
  - exact (simulate_at_rest _ _ _ _ _ _ _ _ _ _ IH Hs).
Qed.


(** ** Moving objects and the scan of a group. *)

(** An object that is awake with a waking motion above the sleep epsilon. *)
Definition moving (w : World) (o : Dynamic_object) : Prop :=
  exists m, object_awake_state w o = Some (true, m) /\ waking_motion_epsilon < m.

Lemma scan_spec w objs ca cs sl ca' cs' sl' :
  scan_neighbor_group w objs ca cs sl = (ca', cs', sl') ->
  (sl' = false <-> sl = false \/ exists o, o ∈ objs /\ moving w o) /\
  (ca' = true <-> ca = true \/ exists o m, o ∈ objs /\ object_awake_state w o = Some (true, m)).
Proof.
  revert ca cs sl. induction objs as [|o objs IH]; intros ca cs sl Hs; simpl in Hs.
  - injection Hs as <- <- <-.
    split; split; [intros H; left; exact H| |intros H; left; exact H|].
    + intros [H|(o & Ho & _)]; [exact H|apply elem_of_nil in Ho as []].
    + intros [H|(o & m & Ho & _)]; [exact H|apply elem_of_nil in Ho as []].
  - destruct (sl || negb ca || negb cs) eqn:Hc.
    + destruct (object_awake_state w o) as [[[] m]|] eqn:Ho.
      * destruct (IH _ _ _ Hs) as [H1 H2]. split.
        -- rewrite H1. split.
           ++ intros [H|(o' & Ho' & Hm)].
              ** destruct (Qltb waking_motion_epsilon m) eqn:E.
                 --- right. exists o. split; [apply elem_of_cons; left; reflexivity|].
                     exists m. split; [exact Ho|]. apply KernelFacts.Qltb_iff, E.
                 --- left. exact H.
              ** right. exists o'. split; [apply elem_of_cons; right; exact Ho'|exact Hm].
           ++ intros [H|(o' & Ho' & Hm)].
              ** left. rewrite H. destruct (Qltb _ _); reflexivity.
              ** apply elem_of_cons in Ho' as [->|Ho'].
                 --- left. destruct Hm as (m' & Hm' & Hlt). rewrite Ho in Hm'.
                     injection Hm' as <-. apply KernelFacts.Qltb_iff in Hlt. rewrite Hlt. reflexivity.
                 --- right. exists o'. split; assumption.
        -- rewrite H2. split; [|intros _; left; reflexivity].
           intros _. right. exists o, m. split; [apply elem_of_cons; left; reflexivity|exact Ho].
      * destruct (IH _ _ _ Hs) as [H1 H2]. split.
        -- rewrite H1. split.
           ++ intros [H|(o' & Ho' & Hm)]; [left; exact H|].
              right. exists o'. split; [apply elem_of_cons; right; exact Ho'|exact Hm].
           ++ intros [H|(o' & Ho' & Hm)]; [left; exact H|].
              apply elem_of_cons in Ho' as [->|Ho'].
              ** destruct Hm as (m' & Hm' & _). rewrite Ho in Hm'. discriminate.
              ** right. exists o'. split; assumption.
        -- rewrite H2. split.
           ++ intros [H|(o' & m' & Ho' & Hm)]; [left; exact H|].
              right. exists o', m'. split; [apply elem_of_cons; right; exact Ho'|exact Hm].
           ++ intros [H|(o' & m' & Ho' & Hm)]; [left; exact H|].
              apply elem_of_cons in Ho' as [->|Ho']; [rewrite Ho in Hm; discriminate|].
              right. exists o', m'. split; assumption.
      * destruct (IH _ _ _ Hs) as [H1 H2]. split.
        -- rewrite H1. split.
           ++ intros [H|(o' & Ho' & Hm)]; [left; exact H|].
              right. exists o'. split; [apply elem_of_cons; right; exact Ho'|exact Hm].
           ++ intros [H|(o' & Ho' & Hm)]; [left; exact H|].
              apply elem_of_cons in Ho' as [->|Ho'].
              ** destruct Hm as (m' & Hm' & _). rewrite Ho in Hm'. discriminate.
              ** right. exists o'. split; assumption.
        -- rewrite H2. split.
           ++ intros [H|(o' & m' & Ho' & Hm)]; [left; exact H|].
              right. exists o', m'. split; [apply elem_of_cons; right; exact Ho'|exact Hm].
           ++ intros [H|(o' & m' & Ho' & Hm)]; [left; exact H|].
              apply elem_of_cons in Ho' as [->|Ho']; [rewrite Ho in Hm; discriminate|].
              right. exists o', m'. split; assumption.
    + injection Hs as <- <- <-.
      apply orb_false_iff in Hc as [Hc Hcs]. apply orb_false_iff in Hc as [Hsl Hca].
      apply negb_false_iff in Hca. subst sl ca. split; split; auto.
Qed.


(** ** Live objects. *)


















(** ** Groups with no awake object. *)







(** ** The sleep pass on one group. *)








End WorldFacts.

Module WorldClaims.
Import Arena Math Data Kernels World WorldScenarios WorldFacts.
Local Abbreviation length := List.length (only parsing).

(** C1 (corrected): after coloring, two distinct pairs with the same numeric color
    share no particle and no rigid body. *)
Theorem same_color_pairs_share_no_dynamic_object w leaf_pairs w' pairs ng aw cg
    k1 k2 p q :
  color_frame w leaf_pairs = inr (w', pairs, ng, aw, cg) ->
  k1 <> k2 -> pairs !! k1 = Some p -> pairs !! k2 = Some q ->
  color p = color q -> (color p < max_colors)%N ->
  forall d, d ∈ pair_dynamic_objects p -> d ∉ pair_dynamic_objects q.
Proof.
  intros Hf Hk Hp Hq Hc Hm.
  exact (color_frame_separated _ _ _ _ _ _ _ Hf k1 k2 p q Hk Hp Hq (real_of_lt_max _ Hm) Hc).
Qed.

Lemma same_color_pairs_share_no_dynamic_object_witness :
  color_frame shared_ground_world shared_ground_overlaps = inr shared_ground_frame /\
  frame_pairs !! 0%nat = Some (neighbor_pair (0, 0)%N particle_static_body 0) /\
  frame_pairs !! 1%nat = Some (neighbor_pair (1, 0)%N particle_static_body 0) /\
  Dynamic_particle 0 ∉ pair_dynamic_objects (neighbor_pair (1, 0)%N particle_static_body 0).
Proof.
  assert (Hf : color_frame shared_ground_world shared_ground_overlaps = inr shared_ground_frame).
  { vm_compute. reflexivity. }
  assert (Hp : frame_pairs !! 0%nat = Some (neighbor_pair (0, 0)%N particle_static_body 0)).
  { vm_compute. reflexivity. }
  assert (Hq : frame_pairs !! 1%nat = Some (neighbor_pair (1, 0)%N particle_static_body 0)).
  { vm_compute. reflexivity. }
  split; [exact Hf|]. split; [exact Hp|]. split; [exact Hq|].
  revert Hf Hp Hq. unfold frame_pairs.
  destruct shared_ground_frame as [[[[w' pairs] ng] aw] cg]. intros Hf Hp Hq.
  refine (same_color_pairs_share_no_dynamic_object _ _ _ _ _ _ _ 0%nat 1%nat _ _
            Hf _ Hp Hq eq_refl _ _ _).
  - discriminate.
  - vm_compute. reflexivity.
  - left.
Defined.

(** C1 counterexample: in the coloring of [shared_ground_world], two
    distinct pairs of color 0 share the static body 0. *)
Lemma same_color_pairs_share_static_body :
  color_frame shared_ground_world shared_ground_overlaps = inr shared_ground_frame /\
  frame_pairs !! 0%nat = Some (neighbor_pair (0, 0)%N particle_static_body 0) /\
  frame_pairs !! 1%nat = Some (neighbor_pair (1, 0)%N particle_static_body 0) /\
  snd (pair_object_handles (neighbor_pair (0, 0)%N particle_static_body 0)) = Static_body_handle 0 /\
  snd (pair_object_handles (neighbor_pair (1, 0)%N particle_static_body 0)) = Static_body_handle 0.
Proof. vm_compute. repeat split. Qed.

(** C4: in every world reachable by creates, destroys of live handles and
    simulate calls, a particle or rigid body whose awake flag is false has
    zero velocity (and a rigid body zero angular velocity); and the sleep
    transition of a group leaves each of its members asleep with zero
    velocities. *)
Theorem sleeping_objects_at_rest sqrt pow broadphase g1 g2 g3 ci w :
  reachable sqrt pow broadphase g1 g2 g3 ci w ->
  (forall h d, st_data (particles w) !! h = Some d ->
     p_awake d = false -> p_velocity d = zero) /\
  (forall h d, st_data (rigid_bodies w) !! h = Some d ->
     r_awake d = false -> r_velocity d = zero /\ r_angular_velocity d = zero) /\
  (forall objs,
     let w' := fold_left (alter_object sleep_particle sleep_rigid_body) objs w in
     (forall h d, Dynamic_particle h ∈ objs -> st_data (particles w') !! h = Some d ->
        p_awake d = false /\ p_velocity d = zero) /\
     (forall h d, Dynamic_rigid_body h ∈ objs -> st_data (rigid_bodies w') !! h = Some d ->
        r_awake d = false /\ r_velocity d = zero /\ r_angular_velocity d = zero)).
Proof.
  intros Hr. pose proof (reachable_at_rest _ _ _ _ _ _ _ _ Hr) as [Hp Hb].
  split; [intros h d Hd; exact (Hp h d Hd)|].
  split; [intros h d Hd; exact (Hb h d Hd)|].
  intros objs w'.
  assert (Hfp : forall d, p_awake (sleep_particle d) = false).
  { intros d. unfold sleep_particle. destruct (p_awake d) eqn:Ha; [reflexivity|exact Ha]. }
  assert (Hfr : forall d, r_awake (sleep_rigid_body d) = false).
  { intros d. unfold sleep_rigid_body. destruct (r_awake d) eqn:Ha; [reflexivity|exact Ha]. }
  destruct (fold_alter_at_rest sleep_particle sleep_rigid_body objs w
              sleep_particle_at_rest sleep_rigid_body_at_rest (conj Hp Hb)) as [Hp' Hb'].
  split.
  - intros h d Ho Hd.
    assert (Ha : p_awake d = false).
    { apply (fold_alter_flag _ _ false objs w _ Hfp Hfr Ho (p_awake d) (p_waking_motion d)).
      simpl. fold w'. rewrite Hd. reflexivity. }
    split; [exact Ha|exact (Hp' h d Hd Ha)].
  - intros h d Ho Hd.
    assert (Ha : r_awake d = false).
    { apply (fold_alter_flag _ _ false objs w _ Hfp Hfr Ho (r_awake d) (r_waking_motion d)).
      simpl. fold w'. rewrite Hd. reflexivity. }
    split; [exact Ha|exact (Hb' h d Hd Ha)].
Qed.

Lemma sleeping_objects_at_rest_witness :
  reachable exact_sqrt exact_pow no_overlaps no_positionful_contact no_positionless_contact
    no_shape_shape_contact (world_create_info 1 1 1 zero) slept_world /\
  p_awake <$> st_data (particles slept_world) !! 0%N = Some false /\
  (forall d, st_data (particles slept_world) !! 0%N = Some d ->
     p_awake d = false -> p_velocity d = zero).
Proof.
  assert (Hr : reachable exact_sqrt exact_pow no_overlaps no_positionful_contact
                 no_positionless_contact no_shape_shape_contact
                 (world_create_info 1 1 1 zero) slept_world).
  { apply (reachable_simulate _ _ _ _ _ _ _ settled_world 0 1%nat);
      [|vm_compute; reflexivity].
    apply (reachable_simulate _ _ _ _ _ _ _ lone_particle_world 1 1%nat);
      [|vm_compute; reflexivity].
    apply (reachable_create_particle _ _ _ _ _ _ _ (make_world (world_create_info 1 1 1 zero))
             resting_particle_info 0%N); [apply reachable_make|vm_compute; reflexivity]. }
  split; [exact Hr|]. split; [vm_compute; reflexivity|].
  intros d Hd. exact (proj1 (sleeping_objects_at_rest _ _ _ _ _ _ _ _ Hr) 0%N d Hd).
Defined.




(** C9: after coloring, the numeric colors in use are downward closed;
    for each numeric color, its color group is non-empty exactly when some
    pair has that color; the non-empty color groups form a prefix of the
    color range; and the colors visited by the solve loops, which stop at
    the first empty color group, are exactly those of the non-empty color
    groups. *)
Theorem colors_in_use_downward_closed w leaf_pairs w' pairs ng aw cg :
  color_frame w leaf_pairs = inr (w', pairs, ng, aw, cg) ->
  (forall k p c', pairs !! k = Some p -> (color p < max_colors)%N -> (c' < color p)%N ->
     exists k' p', pairs !! k' = Some p' /\ color p' = c') /\
  (forall c, (c < max_colors)%N ->
     color_group_size cg c <> 0%nat <-> exists k p, pairs !! k = Some p /\ color p = c) /\
  (forall c c', (c' <= c)%N -> color_group_size cg c <> 0%nat -> color_group_size cg c' <> 0%nat) /\
  (forall c, color_group_size cg c <> 0%nat <-> c ∈ dispatch_colors cg).
Proof. apply color_frame_colors. Qed.

Lemma colors_in_use_downward_closed_witness :
  color_frame shared_ground_world shared_ground_overlaps = inr shared_ground_frame /\
  dispatch_colors frame_color_groups = [0%N] /\
  color_group_size frame_color_groups 0 = 2%nat /\
  (forall c, (c < max_colors)%N ->
     color_group_size frame_color_groups c <> 0%nat <->
     exists k p, frame_pairs !! k = Some p /\ color p = c).
Proof.
  assert (Hf : color_frame shared_ground_world shared_ground_overlaps = inr shared_ground_frame).
  { vm_compute. reflexivity. }
  split; [exact Hf|]. split; [vm_compute; reflexivity|]. split; [vm_compute; reflexivity|].
  revert Hf. unfold frame_color_groups, frame_pairs.
  destruct shared_ground_frame as [[[[w' pairs] ng] aw] cg]. intros Hf.
  exact (proj1 (proj2 (colors_in_use_downward_closed _ _ _ _ _ _ _ Hf))).
Defined.

End WorldClaims.

(** ** Further properties of the arena. *)
Module ArenaExtras.
Import Arena ArenaFacts.
Local Open Scope nat_scope.
Local Abbreviation length := List.length (only parsing).

(** A two-slot arena, and the same arena after one [create]. *)
Definition two_slot_arena : storage unit := make_storage 2.

Definition one_created_arena : storage unit :=
  match create two_slot_arena tt with
  | inr (_, s) => s
  | inl _ => two_slot_arena
  end.

Lemma reachable_length {T} n (s : storage T) : reachable n s -> length (st_occupancy_bits s) = n.
Proof.
  induction 1 as [|s d h s' _ IH Hc|s h _ IH _].
  - apply length_replicate.
  - unfold create in Hc. destruct (last _); [|done]. inversion Hc; subst. simpl.
    by rewrite length_insert.
  - simpl. by rewrite length_insert.
Qed.

(** Extra X1: in an arena reached from [make_storage n], a successful
    [create] returns a handle below [n] whose slot was free; afterwards the
    slot is occupied and holds the data, and every other slot keeps its bit
    and its contents. *)
Theorem create_takes_free_slot {T} n (s : storage T) d h s' :
  reachable n s -> create s d = inr (h, s') ->
  (h < N.of_nat n)%N /\ occupied s h = false /\ occupied s' h = true /\
  st_data s' !! h = Some d /\
  forall h', h' <> h -> occupied s' h' = occupied s h' /\ st_data s' !! h' = st_data s !! h'.
Proof.
  intros Hr Hc. pose proof (reachable_length _ _ Hr) as Hlen.
  destruct (arena_inv_reachable _ _ Hr) as [_ Hfree].
  unfold create in Hc. destruct (last (st_free_indices s)) as [i|] eqn:Hl; [|done].
  inversion Hc; subst; clear Hc.
  assert (Hin : h ∈ st_free_indices s).
  { rewrite (last_Some_app _ _ Hl). apply elem_of_app. right. by apply list_elem_of_singleton. }
  apply Hfree in Hin. pose proof (lookup_lt_Some _ _ _ Hin) as Hlt.
  unfold occupied; simpl. split; [lia|]. rewrite Hin. split; [done|].
  rewrite list_lookup_insert_eq by done. split; [done|].
  rewrite lookup_insert_eq. split; [done|].
  intros h' Hne. rewrite list_lookup_insert_ne by (intros E; apply Hne; lia).
  rewrite lookup_insert_ne by done. done.
Qed.

(** The indices of the bits equal to [b0], counted from index [i]. *)
Fixpoint bit_indices (b0 : bool) (bits : list bool) (i : nat) : list N :=
  match bits with
  | [] => []
  | b :: bits' => if Bool.eqb b b0 then N.of_nat i :: bit_indices b0 bits' (S i)
                  else bit_indices b0 bits' (S i)
  end.

Lemma elem_of_bit_indices b0 bits i h :
  h ∈ bit_indices b0 bits i <->
  (i <= N.to_nat h)%nat /\ bits !! (N.to_nat h - i)%nat = Some b0.
Proof.
  revert i. induction bits as [|b bits IH]; intros i; simpl.
  - rewrite elem_of_nil. split; [done|]. intros [_ H]. by rewrite lookup_nil in H.
  - destruct (Bool.eqb b b0) eqn:E.
    + apply Bool.eqb_prop in E. subst b. rewrite elem_of_cons, IH. split.
      * intros [->|[Hle Hb]]; [split; [lia|]; by replace (N.to_nat (N.of_nat i) - i)%nat with 0%nat by lia|].
        split; [lia|]. by replace (N.to_nat h - i)%nat with (S (N.to_nat h - S i)) by lia.
      * intros [Hle Hb]. destruct (decide (N.to_nat h = i)) as [Heq|Hne]; [left; lia|].
        right. split; [lia|]. by replace (N.to_nat h - i)%nat with (S (N.to_nat h - S i)) in Hb by lia.
    + rewrite IH. split.
      * intros [Hle Hb]. split; [lia|]. by replace (N.to_nat h - i)%nat with (S (N.to_nat h - S i)) by lia.
      * intros [Hle Hb]. destruct (decide (N.to_nat h = i)) as [Heq|Hne].
        -- rewrite Heq, Nat.sub_diag in Hb. simpl in Hb. injection Hb as ->.
           by rewrite Bool.eqb_reflx in E.
        -- split; [lia|]. by replace (N.to_nat h - i)%nat with (S (N.to_nat h - S i)) in Hb by lia.
Qed.

Lemma bit_indices_sorted b0 bits i :
  StronglySorted N.lt (bit_indices b0 bits i).
Proof.
  revert i. induction bits as [|b bits IH]; intros i; simpl; [constructor|].
  destruct (Bool.eqb b b0); [|apply IH]. constructor; [apply IH|].
  apply Forall_forall. intros h Hh.
  assert (Hh2 : h ∈ bit_indices b0 bits (S i)) by (first [apply list_elem_of_In; exact Hh | exact Hh]).
  apply elem_of_bit_indices in Hh2. lia.
Qed.

Lemma length_bit_indices bits i :
  length (bit_indices true bits i) + length (bit_indices false bits i) = length bits.
Proof.
  revert i. induction bits as [|[] bits IH]; intros i; simpl; [done| |]; rewrite <- (IH (S i)); lia.
Qed.

Lemma for_each_from_bit_indices bits i k :
  for_each_from bits i k (k + length (bit_indices true bits i)) = bit_indices true bits i.
Proof.
  revert i k. induction bits as [|b bits IH]; intros i k; simpl; [done|].
  destruct b; simpl.
  - rewrite (proj2 (Nat.eqb_neq _ _)) by lia. f_equal.
    replace (k + S (length (bit_indices true bits (S i))))%nat
      with (S k + length (bit_indices true bits (S i)))%nat by lia. apply IH.
  - destruct (Nat.eqb k (k + length (bit_indices true bits (S i)))) eqn:E.
    + apply Nat.eqb_eq in E. destruct (bit_indices true bits (S i)); [done|simpl in E; lia].
    + apply IH.
Qed.

Lemma bit_indices_NoDup b0 bits i : NoDup (bit_indices b0 bits i).
Proof.
  revert i. induction bits as [|b bits IH]; intros i; simpl; [constructor|].
  destruct (Bool.eqb b b0); [|apply IH]. constructor; [|apply IH].
  rewrite elem_of_bit_indices. lia.
Qed.

(** Extra X2: in an arena reached from [make_storage n], [for_each]
    visits exactly the occupied handles, in increasing order and each once. *)
Theorem for_each_visits_live_handles {T} n (s : storage T) :
  reachable n s ->
  (forall h, h ∈ for_each_indices s <-> occupied s h = true) /\
  StronglySorted N.lt (for_each_indices s).
Proof.
  intros Hr. destruct (arena_inv_reachable _ _ Hr) as [Hnd Hfree].
  assert (Hperm : st_free_indices s ≡ₚ bit_indices false (st_occupancy_bits s) 0).
  { apply NoDup_Permutation; [done|apply bit_indices_NoDup|].
    intros h. rewrite Hfree, elem_of_bit_indices, Nat.sub_0_r. split; [intros H; split; [lia|exact H]|intros [_ H]; exact H]. }
  assert (Hm : (length (st_occupancy_bits s) - length (st_free_indices s))%nat
               = (0 + length (bit_indices true (st_occupancy_bits s) 0))%nat).
  { rewrite Hperm. pose proof (length_bit_indices (st_occupancy_bits s) 0). lia. }
  unfold for_each_indices. rewrite Hm, for_each_from_bit_indices.
  split; [|apply bit_indices_sorted].
  intros h. rewrite elem_of_bit_indices, Nat.sub_0_r. unfold occupied.
  destruct (st_occupancy_bits s !! N.to_nat h) as [[]|]; naive_solver lia.
Qed.

Lemma create_takes_free_slot_witness :
  match create two_slot_arena tt with
  | inr (h, s') => reachable 2 two_slot_arena /\ (h < 2)%N /\ occupied s' h = true
  | inl _ => False
  end.
Proof.
  remember (create two_slot_arena tt) as r eqn:E.
  destruct r as [e|[h s']]; [vm_compute in E; discriminate E|].
  assert (Hr : reachable 2 two_slot_arena) by apply reach_init.
  destruct (create_takes_free_slot 2 two_slot_arena tt h s' Hr (eq_sym E)) as (H1 & _ & H2 & _).
  split; [exact Hr|split; assumption].
Defined.

Lemma for_each_visits_live_handles_witness :
  reachable 2 one_created_arena /\
  forall h, h ∈ for_each_indices one_created_arena <-> occupied one_created_arena h = true.
Proof.
  assert (Hr : reachable 2 one_created_arena).
  { apply (reach_create 2 two_slot_arena tt 0%N); [apply reach_init|vm_compute; reflexivity]. }
  split; [exact Hr|]. exact (proj1 (for_each_visits_live_handles 2 one_created_arena Hr)).
Defined.

End ArenaExtras.

(** ** Further properties of the shapes (shape.h). *)
Module ShapeExtras.
Import Arena Math Data Kernels Shapes World KernelFacts.
Local Abbreviation length := List.length (only parsing).

(** The identity placement, and a box placement turned a quarter turn
    about the z axis and moved along x. *)
Definition unit_transform : Mat3x4 :=
  mat3x4 (mat3 (vec3 1 0 0) (vec3 0 1 0) (vec3 0 0 1)) zero.
Definition turned_transform : Mat3x4 :=
  mat3x4 (mat3 (vec3 0 (-1) 0) (vec3 1 0 0) (vec3 0 0 1)) (vec3 5 0 0).

(** The points of a box of the given half extents, in its own space. *)
Definition in_box (half_width half_height half_depth : Q) (p : Vec3) : Prop :=
  - half_width <= x p <= half_width /\ - half_height <= y p <= half_height /\
  - half_depth <= z p <= half_depth.

(** The points of a bounding box. *)
Definition in_bounding_box (b : Bounding_box) (p : Vec3) : Prop :=
  x (bb_min b) <= x p <= x (bb_max b) /\ y (bb_min b) <= y p <= y (bb_max b) /\
  z (bb_min b) <= z p <= z (bb_max b).

(** The points of a shape placed by a transform: the ball around the
    translation, or the image of the box under the transform. *)
Definition shape_contains (shape : Shape) (transform : Mat3x4) (p : Vec3) : Prop :=
  match shape with
  | Ball radius => length_squared (vsub p (translation transform)) <= radius * radius
  | Box hw hh hd => exists q, in_box hw hh hd q /\ p = transform_point transform q
  end.

Lemma std_min_le_l a b : std_min a b <= a.
Proof. unfold std_min. destruct (Qltb b a) eqn:E; [apply Qltb_iff in E; lra|lra]. Qed.
Lemma std_min_le_r a b : std_min a b <= b.
Proof. unfold std_min. destruct (Qltb b a) eqn:E; [lra|]. 
  apply Qnot_lt_le. intros H. apply Qltb_iff in H. congruence. Qed.
Lemma std_max_ge_l a b : a <= std_max a b.
Proof. unfold std_max. destruct (Qltb a b) eqn:E; [apply Qltb_iff in E; lra|lra]. Qed.
Lemma std_max_ge_r a b : b <= std_max a b.
Proof. unfold std_max. destruct (Qltb a b) eqn:E; [lra|].
  apply Qnot_lt_le. intros H. apply Qltb_iff in H. congruence. Qed.

Lemma bounds_fold_contains ps b :
  (forall p, in_bounding_box b p -> in_bounding_box (fold_left bounds_step ps b) p) /\
  (forall p, p ∈ ps -> in_bounding_box (fold_left bounds_step ps b) p).
Proof.
  revert b. induction ps as [|q ps IH]; intros b; simpl.
  - split; [auto|]. intros p Hp. apply elem_of_nil in Hp as [].
  - destruct (IH (bounds_step b q)) as [IH1 IH2]. split.
    + intros p Hp. apply IH1. unfold in_bounding_box in *. simpl.
      pose proof (std_min_le_l (x (bb_min b)) (x q)). pose proof (std_min_le_l (y (bb_min b)) (y q)).
      pose proof (std_min_le_l (z (bb_min b)) (z q)). pose proof (std_max_ge_l (x (bb_max b)) (x q)).
      pose proof (std_max_ge_l (y (bb_max b)) (y q)). pose proof (std_max_ge_l (z (bb_max b)) (z q)).
      lra.
    + intros p Hp. apply elem_of_cons in Hp as [Hpq|Hp]; [subst q|apply IH2, Hp].
      apply IH1. unfold in_bounding_box. simpl.
      pose proof (std_min_le_r (x (bb_min b)) (x p)). pose proof (std_min_le_r (y (bb_min b)) (y p)).
      pose proof (std_min_le_r (z (bb_min b)) (z p)). pose proof (std_max_ge_r (x (bb_max b)) (x p)).
      pose proof (std_max_ge_r (y (bb_max b)) (y p)). pose proof (std_max_ge_r (z (bb_max b)) (z p)).
      lra.
Qed.

Lemma bounds_box_corners hw hh hd transform c :
  c ∈ box_corners hw hh hd ->
  in_bounding_box (bounds_box hw hh hd transform) (transform_point transform c).
Proof.
  unfold bounds_box. simpl map. cbv iota.
  set (ps := map (transform_point transform) (box_corners hw hh hd)).
  intros Hc.
  assert (Hps : transform_point transform c ∈ ps) by (apply list_elem_of_fmap_2; exact Hc).
  unfold ps in Hps. simpl in Hps.
  apply elem_of_cons in Hps as [Hp|Hp].
  - rewrite Hp. apply (proj1 (bounds_fold_contains _ _)). unfold in_bounding_box. simpl. lra.
  - apply (proj2 (bounds_fold_contains _ _)). exact Hp.
Qed.

(** For each row, a corner where the row's linear form is smallest. *)
Lemma corner_choice_min hw hh hd (a b c : Q) p :
  in_box hw hh hd p ->
  exists q, q ∈ box_corners hw hh hd /\ a * x q + b * y q + c * z q <= a * x p + b * y p + c * z p.
Proof.
  intros (Hx & Hy & Hz).
  assert (Ha : exists s, (s == hw \/ s == - hw) /\ a * s <= a * x p /\
                 (s = hw \/ s = - hw)).
  { destruct (Qlt_le_dec a 0).
    - exists hw. split; [left; reflexivity|]. split; [nra|left; reflexivity].
    - exists (- hw). split; [right; reflexivity|]. split; [nra|right; reflexivity]. }
  assert (Hb : exists s, b * s <= b * y p /\ (s = hh \/ s = - hh)).
  { destruct (Qlt_le_dec b 0).
    - exists hh. split; [nra|left; reflexivity].
    - exists (- hh). split; [nra|right; reflexivity]. }
  assert (Hc : exists s, c * s <= c * z p /\ (s = hd \/ s = - hd)).
  { destruct (Qlt_le_dec c 0).
    - exists hd. split; [nra|left; reflexivity].
    - exists (- hd). split; [nra|right; reflexivity]. }
  destruct Ha as (sa & _ & Ha & Hsa), Hb as (sb & Hb & Hsb), Hc as (sc & Hc & Hsc).
  exists (vec3 sa sb sc). split; [|simpl; lra].
  unfold box_corners.
  destruct Hsa as [->| ->], Hsb as [->| ->], Hsc as [->| ->]; set_solver.
Qed.

Lemma sq_nonneg a : 0 <= a * a.
Proof. nra. Qed.

Lemma sq_le_abs r a : 0 <= r -> a * a <= r * r -> - r <= a <= r.
Proof. intros Hr H. split; nra. Qed.

(** Extra X3: the bounding box [bounds] computes for a shape placed by a
    transform contains every point of the shape: the ball of the radius
    around the translation (for a radius that is not negative), or the image
    under the transform of every point of the box. *)
Theorem bounds_contain_shape shape transform p :
  (forall radius, shape = Ball radius -> 0 <= radius) ->
  shape_contains shape transform p -> in_bounding_box (bounds shape transform) p.
Proof.
  destruct shape as [radius|hw hh hd]; simpl.
  - intros Hr H. specialize (Hr radius eq_refl).
    unfold length_squared, dot in H. unfold in_bounding_box. simpl.
    destruct p as [px py pz], (translation transform) as [tx ty tz]. simpl in *.
    pose proof (sq_nonneg (px - tx)). pose proof (sq_nonneg (py - ty)).
    pose proof (sq_nonneg (pz - tz)).
    assert (- radius <= px - tx <= radius) by (apply sq_le_abs; lra).
    assert (- radius <= py - ty <= radius) by (apply sq_le_abs; lra).
    assert (- radius <= pz - tz <= radius) by (apply sq_le_abs; lra).
    repeat split; lra.
  - intros _ (q & Hq & ->).
    unfold in_bounding_box.
    destruct transform as [[r0 r1 r2] t].
    assert (Hlo : forall a b c t0 (sel : Vec3 -> Q),
      (forall v, sel (transform_point (mat3x4 (mat3 r0 r1 r2) t) v) = a * x v + b * y v + c * z v + t0) ->
      (forall v, in_bounding_box (bounds_box hw hh hd (mat3x4 (mat3 r0 r1 r2) t)) v ->
         sel (bb_min (bounds_box hw hh hd (mat3x4 (mat3 r0 r1 r2) t))) <= sel v) ->
      sel (bb_min (bounds_box hw hh hd (mat3x4 (mat3 r0 r1 r2) t)))
        <= sel (transform_point (mat3x4 (mat3 r0 r1 r2) t) q)).
    { intros a b c t0 sel Hsel Hb.
      destruct (corner_choice_min hw hh hd a b c q Hq) as (cq & Hc & Hle).
      eapply Qle_trans; [apply Hb, bounds_box_corners, Hc|]. rewrite !Hsel. lra. }
    assert (Hhi : forall a b c t0 (sel : Vec3 -> Q),
      (forall v, sel (transform_point (mat3x4 (mat3 r0 r1 r2) t) v) = a * x v + b * y v + c * z v + t0) ->
      (forall v, in_bounding_box (bounds_box hw hh hd (mat3x4 (mat3 r0 r1 r2) t)) v ->
         sel v <= sel (bb_max (bounds_box hw hh hd (mat3x4 (mat3 r0 r1 r2) t)))) ->
      sel (transform_point (mat3x4 (mat3 r0 r1 r2) t) q)
        <= sel (bb_max (bounds_box hw hh hd (mat3x4 (mat3 r0 r1 r2) t)))).
    { intros a b c t0 sel Hsel Hb.
      destruct (corner_choice_min hw hh hd (- a) (- b) (- c) q Hq) as (cq & Hc & Hle).
      eapply Qle_trans; [|apply Hb, bounds_box_corners, Hc]. rewrite !Hsel. lra. }
    repeat split;
      [eapply (Hlo _ _ _ _ x) | eapply (Hhi _ _ _ _ x) | eapply (Hlo _ _ _ _ y)
      | eapply (Hhi _ _ _ _ y) | eapply (Hlo _ _ _ _ z) | eapply (Hhi _ _ _ _ z)];
      try (intros v; reflexivity); intros v Hv; apply Hv.
Qed.

Lemma Qltb_false (a b : Q) : Qltb a b = false -> b <= a.
Proof. intros H. apply Qnot_lt_le. intros H'. apply Qltb_iff in H'. congruence. Qed.

Lemma std_clamp_nearest v lo hi :
  lo <= hi ->
  lo <= std_clamp v lo hi <= hi /\
  forall q, lo <= q <= hi ->
    (v - std_clamp v lo hi) * (v - std_clamp v lo hi) <= (v - q) * (v - q).
Proof.
  intros Hlh. unfold std_clamp.
  destruct (Qltb v lo) eqn:E1; [apply Qltb_iff in E1|apply Qltb_false in E1].
  - split; [lra|]. intros q Hq.
    assert (0 <= (q - lo) * ((lo - v) + (q - v))) by (apply Qmult_le_0_compat; lra).
    assert ((v - q) * (v - q) - (v - lo) * (v - lo) == (q - lo) * ((lo - v) + (q - v))) by ring.
    lra.
  - destruct (Qltb hi v) eqn:E2; [apply Qltb_iff in E2|apply Qltb_false in E2].
    + split; [lra|]. intros q Hq.
      assert (0 <= (hi - q) * ((v - hi) + (v - q))) by (apply Qmult_le_0_compat; lra).
      assert ((v - q) * (v - q) - (v - hi) * (v - hi) == (hi - q) * ((v - hi) + (v - q))) by ring.
      lra.
    + split; [lra|]. intros q Hq.
      assert ((v - v) * (v - v) == 0) by ring. pose proof (sq_nonneg (v - q)). lra.
Qed.

Lemma std_clamp_inside v lo hi : lo <= v <= hi -> std_clamp v lo hi = v.
Proof.
  intros [H1 H2]. unfold std_clamp.
  destruct (Qltb v lo) eqn:E1; [apply Qltb_iff in E1; lra|].
  destruct (Qltb hi v) eqn:E2; [apply Qltb_iff in E2; lra|reflexivity].
Qed.

(** Extra X4: for a box with non-negative half extents,
    [find_particle_contact] reports no contact exactly when every point of the
    box, in the box's space, lies farther than the particle radius from the
    particle centre. *)
Theorem box_contact_iff_particle_reaches_box sqrt particle_position particle_radius
    half_width half_height half_depth box_transform box_transform_inverse :
  0 <= half_width -> 0 <= half_height -> 0 <= half_depth ->
  find_particle_contact_box sqrt particle_position particle_radius half_width half_height
    half_depth box_transform box_transform_inverse = None <->
  forall q, in_box half_width half_height half_depth q ->
    particle_radius * particle_radius
    < length_squared (vsub (transform_point box_transform_inverse particle_position) q).
Proof.
  intros Hw Hh Hd. unfold find_particle_contact_box. cbv zeta.
  set (sp := transform_point box_transform_inverse particle_position). clearbody sp.
  destruct (std_clamp_nearest (x sp) (- half_width) half_width) as [Cx Nx]; [lra|].
  destruct (std_clamp_nearest (y sp) (- half_height) half_height) as [Cy Ny]; [lra|].
  destruct (std_clamp_nearest (z sp) (- half_depth) half_depth) as [Cz Nz]; [lra|].
  set (c := vec3 (std_clamp (x sp) (- half_width) half_width)
                 (std_clamp (y sp) (- half_height) half_height)
                 (std_clamp (z sp) (- half_depth) half_depth)).
  assert (Hnear : forall q, in_box half_width half_height half_depth q ->
            length_squared (vsub sp c) <= length_squared (vsub sp q)).
  { intros q (Hqx & Hqy & Hqz). unfold length_squared, dot, vsub, c. cbn [x y z].
    pose proof (Nx _ Hqx). pose proof (Ny _ Hqy). pose proof (Nz _ Hqz). lra. }
  assert (Hc : in_box half_width half_height half_depth c) by (repeat split; simpl; lra).
  clearbody c. pose proof (sq_nonneg particle_radius) as Hr2.
  split.
  - destruct (Qeq_bool (length_squared (vsub sp c)) 0) eqn:Hz; [discriminate|].
    destruct (Qle_bool _ _) eqn:Hle; [discriminate|]. intros _ q Hq.
    apply Qlt_le_trans with (length_squared (vsub sp c)); [|exact (Hnear q Hq)].
    apply Qnot_le_lt. intros H. apply Qle_bool_iff in H. congruence.
  - intros Hall. specialize (Hall c Hc).
    destruct (Qeq_bool (length_squared (vsub sp c)) 0) eqn:Hz.
    + apply Qeq_bool_iff in Hz. rewrite Hz in Hall. lra.
    + destruct (Qle_bool _ _) eqn:Hle; [|reflexivity].
      apply Qle_bool_iff in Hle. lra.
Qed.

Lemma min_element_from_spec (L : list Q) : forall l i smallest s,
  drop i L = l -> (smallest < i)%nat -> (i <= length L)%nat -> nth smallest L 0 = s ->
  (forall j, (j < i)%nat -> s <= nth j L 0) ->
  (min_element_from l i smallest s < length L)%nat /\
  forall j, (j < length L)%nat -> nth (min_element_from l i smallest s) L 0 <= nth j L 0.
Proof.
  induction l as [|v l IH]; intros i smallest s Hd Hlt Hle Hs Hmin; simpl.
  - assert (Hi : (length L <= i)%nat).
    { pose proof (f_equal List.length Hd) as E. rewrite length_drop in E. simpl in E. lia. }
    split; [lia|]. intros j Hj. rewrite Hs. apply Hmin. lia.
  - assert (Hli : L !! i = Some v).
    { replace i with (i + 0)%nat by lia. rewrite <- lookup_drop, Hd. reflexivity. }
    assert (Hn : nth i L 0 = v) by (apply nth_lookup_Some; exact Hli).
    assert (Hd' : drop (S i) L = l).
    { replace (S i) with (i + 1)%nat by lia. rewrite <- drop_drop, Hd. reflexivity. }
    assert (Hil : (i < length L)%nat) by (apply lookup_lt_is_Some_1; eauto).
    destruct (Qltb v s) eqn:E.
    + apply Qltb_iff in E. apply IH; [exact Hd'|lia|lia|exact Hn|].
      intros j Hj. destruct (decide (j = i)) as [->|Hne]; [rewrite Hn; lra|].
      pose proof (Hmin j ltac:(lia)). lra.
    + apply Qltb_false in E. apply IH; [exact Hd'|lia|lia|exact Hs|].
      intros j Hj. destruct (decide (j = i)) as [->|Hne]; [rewrite Hn; lra|].
      apply Hmin. lia.
Qed.

Lemma min_element_spec (L : list Q) :
  L <> [] ->
  (min_element L < length L)%nat /\
  forall j, (j < length L)%nat -> nth (min_element L) L 0 <= nth j L 0.
Proof.
  destruct L as [|v l]; [congruence|]. intros _. simpl.
  apply (min_element_from_spec (v :: l)); [reflexivity|lia|simpl; lia|reflexivity|].
  intros j Hj. assert (j = 0%nat) as -> by lia. simpl. lra.
Qed.

(** Extra X5: when the particle centre lies inside the box, the contact is
    on a face nearest to the centre: its
    normal is that face's outward axis and the separation is minus the face
    distance minus the radius, so never above minus the radius. *)
Theorem box_contact_inside_deepest_face sqrt particle_position particle_radius
    half_width half_height half_depth box_transform box_transform_inverse :
  let sp := transform_point box_transform_inverse particle_position in
  let m := linear box_transform in
  let face_distances :=
    [x sp + half_width; half_width - x sp; y sp + half_height; half_height - y sp;
     z sp + half_depth; half_depth - z sp] in
  let face_normals :=
    [vneg (col0 m); col0 m; vneg (col1 m); col1 m; vneg (col2 m); col2 m] in
  in_box half_width half_height half_depth sp ->
  exists i, (i < 6)%nat /\
    find_particle_contact_box sqrt particle_position particle_radius half_width half_height
      half_depth box_transform box_transform_inverse
    = Some (particle_contact (nth i face_normals zero)
              (- nth i face_distances 0 - particle_radius)) /\
    (forall j, (j < 6)%nat -> nth i face_distances 0 <= nth j face_distances 0) /\
    - nth i face_distances 0 - particle_radius <= - particle_radius.
Proof.
  intros sp m fd fn (Hx & Hy & Hz).
  unfold find_particle_contact_box. cbv zeta. fold sp.
  rewrite (std_clamp_inside (x sp)), (std_clamp_inside (y sp)), (std_clamp_inside (z sp))
    by assumption.
  assert (Hz0 : Qeq_bool (length_squared (vsub sp (vec3 (x sp) (y sp) (z sp)))) 0 = true).
  { apply Qeq_bool_iff. unfold length_squared, dot. simpl. ring. }
  rewrite Hz0. cbn [x y z]. fold m fd fn.
  destruct (min_element_spec fd) as [Hlt Hmin]; [discriminate|].
  exists (min_element fd). split; [exact Hlt|]. split; [reflexivity|].
  split; [exact Hmin|].
  assert (Hfd : Forall (fun q => 0 <= q) fd) by (unfold fd; repeat constructor; lra).
  assert (0 <= nth (min_element fd) fd 0); [|lra].
  rewrite Forall_nth in Hfd. apply Hfd. simpl. exact Hlt.
Qed.

Lemma bounds_contain_shape_witness :
  in_bounding_box (bounds (Box 1 2 3) turned_transform)
    (transform_point turned_transform (vec3 (1/2) (-2) 1)).
Proof.
  apply (bounds_contain_shape (Box 1 2 3) turned_transform).
  - intros radius H. discriminate H.
  - exists (vec3 (1/2) (-2) 1). split; [repeat split; apply Qle_bool_imp_le; vm_compute; reflexivity|reflexivity].
Defined.

Lemma box_contact_iff_particle_reaches_box_witness :
  find_particle_contact_box exact_sqrt (vec3 3 0 0) 1 1 1 1 unit_transform unit_transform = None <->
  forall q, in_box 1 1 1 q ->
    1 * 1 < length_squared (vsub (transform_point unit_transform (vec3 3 0 0)) q).
Proof. apply box_contact_iff_particle_reaches_box; apply Qle_bool_imp_le; reflexivity. Defined.

Lemma box_contact_inside_deepest_face_witness :
  in_box 1 1 1 (transform_point unit_transform (vec3 (1/2) 0 0)) /\
  exists c, find_particle_contact_box exact_sqrt (vec3 (1/2) 0 0) (1/4) 1 1 1
              unit_transform unit_transform = Some c.
Proof.
  assert (Hin : in_box 1 1 1 (transform_point unit_transform (vec3 (1/2) 0 0)))
    by (repeat split; apply Qle_bool_imp_le; vm_compute; reflexivity).
  split; [exact Hin|].
  pose proof (box_contact_inside_deepest_face exact_sqrt (vec3 (1/2) 0 0) (1/4) 1 1 1
                unit_transform unit_transform) as H.
  cbv zeta in H. destruct (H Hin) as (i & _ & E & _). eexists. exact E.
Defined.

End ShapeExtras.

(** ** Further properties of the contact kernels. *)
Module KernelExtras.
Import Arena Math Data Kernels World WorldScenarios KernelFacts.

(** Two unit-mass particles of radius 1/2 whose centres are 1/2 apart. *)
Definition near_particle_0 : Particle_data :=
  particle_data false (1/2) 1 plain zero zero zero 0 true.
Definition near_particle_1 : Particle_data :=
  particle_data false (1/2) 1 plain (vec3 (3/10) (4/10) 0) (vec3 (3/10) (4/10) 0) zero 0 true.

(** A contact along x whose normal impulse was 1. *)
Definition pressed_contact : Contact := mk_contact (vec3 1 0 0) (zero, zero) 0 1 0.

Lemma length_squared_zero (d : Vec3) :
  length_squared d == 0 -> x d == 0 /\ y d == 0 /\ z d == 0.
Proof.
  unfold length_squared, dot. intros H.
  assert (0 <= x d * x d) by nra. assert (0 <= y d * y d) by nra.
  assert (0 <= z d * z d) by nra.
  split; [|split]; nra.
Qed.

Lemma length_squared_opposite_moves p0 p1 n m0 m1 l :
  length_squared (vsub (vadd p0 (vscale m0 (vscale l n))) (vadd p1 (vscale (- m1) (vscale l n))))
  == length_squared (vadd (vsub p0 p1) (vscale ((m0 + m1) * l) n)).
Proof. destruct p0, p1, n. unfold length_squared, dot. simpl. ring. Qed.

(** Extra X6: when the particle-particle position solve finds a contact and
    the two inverse masses do not sum to zero, it moves the particles by
    opposite multiples of one impulse, weighted by their inverse masses, and
    the moved centres lie exactly at the sum of the radii (given an exact
    [sqrt]). *)
Theorem pp_position_solve_touching sqrt h0 h1 d0 d1 c ups :
  solve_neighbor_pair_pp sqrt h0 h1 d0 d1 = Some (c, ups) ->
  ~ p_inverse_mass d0 + p_inverse_mass d1 == 0 ->
  (let d2 := length_squared (vsub (p_position d0) (p_position d1)) in
   ~ d2 == 0 -> sqrt d2 * sqrt d2 == d2 /\ ~ sqrt d2 == 0) ->
  exists impulse,
    ups = [Update_particle h0 (vscale (p_inverse_mass d0) impulse);
           Update_particle h1 (vscale (- p_inverse_mass d1) impulse)] /\
    length_squared (vsub (vadd (p_position d0) (vscale (p_inverse_mass d0) impulse))
                         (vadd (p_position d1) (vscale (- p_inverse_mass d1) impulse)))
    == (p_radius d0 + p_radius d1) * (p_radius d0 + p_radius d1).
Proof.
  unfold solve_neighbor_pair_pp, get_contact_geometry_pp, solve_contact_pp.
  cbv zeta. intros Hs Hm Hsq.
  destruct (Qltb _ _); [|discriminate].
  set (R := p_radius d0 + p_radius d1) in *.
  set (d := vsub (p_position d0) (p_position d1)) in *.
  destruct (Qeq_bool (length_squared d) 0) eqn:Hz.
  - injection Hs as <- <-. eexists. split; [reflexivity|].
    rewrite length_squared_opposite_moves. fold d. cbn [lambda_n set_lambda_n set_lambda_t normal].
    apply Qeq_bool_iff, length_squared_zero in Hz. destruct Hz as (Hx & Hy & Hz).
    assert (HK : (p_inverse_mass d0 + p_inverse_mass d1) * (- - R * (1 / (p_inverse_mass d0 + p_inverse_mass d1))) == R)
      by (field; exact Hm).
    revert HK. generalize (- - R * (1 / (p_inverse_mass d0 + p_inverse_mass d1))). intros l HK.
    clearbody d. unfold length_squared, dot, vadd, vscale. simpl. rewrite Hx, Hy, Hz, HK. ring.
  - injection Hs as <- <-. eexists. split; [reflexivity|].
    rewrite length_squared_opposite_moves. fold d. cbn [lambda_n set_lambda_n set_lambda_t normal].
    destruct Hsq as [Hss Hs0].
    { intro E. apply Qeq_bool_iff in E. congruence. }
    revert Hss Hs0. generalize (sqrt (length_squared d)). intros s Hss Hs0.
    assert (HK : (p_inverse_mass d0 + p_inverse_mass d1) * (- (s - R) * (1 / (p_inverse_mass d0 + p_inverse_mass d1))) == R - s)
      by (field; exact Hm).
    revert HK. generalize (- (s - R) * (1 / (p_inverse_mass d0 + p_inverse_mass d1))). intros l HK.
    clearbody d. unfold length_squared, dot, vadd, vscale, vdiv in *. destruct d as [a b e]. simpl in *. rewrite HK.
    transitivity (R * R / (s * s) * (a * a + b * b + e * e)).
    + field. exact Hs0.
    + rewrite <- Hss. field. exact Hs0.
Qed.

Lemma Qmin_bounds a b : 0 <= a -> 0 < b -> 0 <= Qmin a b / b <= 1.
Proof.
  intros Ha Hb. split.
  - apply Qle_shift_div_l; [exact Hb|]. rewrite Qmult_0_l. apply Q.min_glb; lra.
  - apply Qle_shift_div_r; [exact Hb|]. rewrite Qmult_1_l. apply Q.le_min_r.
Qed.

(** Extra X7: the dynamic-friction velocity update points against the
    tangential velocity and is at most as long: it is [-k] times the
    tangential velocity for some [k] in [0, 1] (for a non-negative friction
    bound and a positive length of a non-zero velocity). *)
Theorem friction_velocity_update_opposes_sliding sqrt inverse_delta_time d1 d2 contact t :
  0 <= 1 / 2 * (get_dynamic_friction_coefficient d1 + get_dynamic_friction_coefficient d2)
       * lambda_n contact * inverse_delta_time ->
  (veq t zero = false -> 0 < sqrt (length_squared t)) ->
  exists k, 0 <= k <= 1 /\
    let dv := get_friction_velocity_update sqrt inverse_delta_time d1 d2 contact t in
    x dv == - k * x t /\ y dv == - k * y t /\ z dv == - k * z t.
Proof.
  intros Hmu Hs. unfold get_friction_velocity_update.
  destruct (veq t zero) eqn:Ht.
  - exists 0. split; [lra|]. simpl. repeat split; ring.
  - specialize (Hs eq_refl). unfold length in *.
    revert Hmu Hs. generalize (1 / 2 * (get_dynamic_friction_coefficient d1
      + get_dynamic_friction_coefficient d2) * lambda_n contact * inverse_delta_time).
    generalize (sqrt (length_squared t)). intros s f Hf Hs.
    exists (Qmin f s / s). split; [apply Qmin_bounds; assumption|].
    simpl. assert (~ s == 0) by (intro E; rewrite E in Hs; discriminate).
    repeat split; field; assumption.
Qed.

Lemma pp_position_solve_touching_witness :
  match solve_neighbor_pair_pp exact_sqrt 0 1 near_particle_0 near_particle_1 with
  | Some (c, ups) =>
      exists impulse,
        length_squared
          (vsub (vadd (p_position near_particle_0) (vscale (p_inverse_mass near_particle_0) impulse))
                (vadd (p_position near_particle_1) (vscale (- p_inverse_mass near_particle_1) impulse)))
        == (p_radius near_particle_0 + p_radius near_particle_1)
           * (p_radius near_particle_0 + p_radius near_particle_1)
  | None => False
  end.
Proof.
  remember (solve_neighbor_pair_pp exact_sqrt 0 1 near_particle_0 near_particle_1) as r eqn:E.
  destruct r as [[c ups]|]; [|vm_compute in E; discriminate E].
  destruct (pp_position_solve_touching exact_sqrt 0 1 near_particle_0 near_particle_1 c ups
              (eq_sym E)) as (impulse & _ & H).
  - intros H. vm_compute in H. discriminate H.
  - cbv zeta. intros _. split; [vm_compute; reflexivity|intros H; vm_compute in H; discriminate H].
  - exists impulse. exact H.
Defined.

Lemma friction_velocity_update_opposes_sliding_witness :
  exists k, 0 <= k <= 1 /\
    let dv := get_friction_velocity_update exact_sqrt 1 (Particle_object near_particle_0)
                (Particle_object near_particle_0) pressed_contact (vec3 3 4 0) in
    x dv == - k * 3 /\ y dv == - k * 4 /\ z dv == - k * 0.
Proof.
  apply (friction_velocity_update_opposes_sliding exact_sqrt 1 (Particle_object near_particle_0)
           (Particle_object near_particle_0) pressed_contact (vec3 3 4 0)).
  - apply Qle_bool_imp_le. vm_compute. reflexivity.
  - intros _. vm_compute. reflexivity.
Defined.

End KernelExtras.

(** ** Further properties of the world. *)
Module WorldExtras.
Import Arena Math Data Kernels World WorldScenarios KernelFacts WorldFacts.
Local Abbreviation length := List.length (only parsing).

(** The data [create_particle] stores for [resting_particle_info]. *)
Definition resting_particle_data : Particle_data :=
  particle_data false 1 (1 / 1) plain zero zero zero waking_motion_initializer true.

(** A particle-particle pair of the particles 0 and 1 and a contact
    along x on which they approach each other. *)
Definition touching_pair : Neighbor_pair := neighbor_pair (0%N, 1%N) particle_particle color_unmarked.
Definition head_on_contact : Contact := mk_contact (vec3 1 0 0) (zero, zero) (-1) 0 0.

(** Componentwise equality of vectors. *)
Definition vequiv (a b : Vec3) : Prop := x a == x b /\ y a == y b /\ z a == z b.

(** Extra X8: integrating an object and then deriving its velocity from the
    positions gives back the damped integrated velocity, when
    [inverse_delta_time] is the inverse of [delta_time]. *)
Theorem integrate_then_derive_velocity sqrt g delta_time inverse_delta_time damping
    smoothing w :
  delta_time * inverse_delta_time == 1 ->
  (forall h d, st_data (particles w) !! h = Some d ->
   exists d', st_data (particles (derive_object_velocity inverse_delta_time
      (integrate_object sqrt g delta_time damping smoothing w (Dynamic_particle h))
      (Dynamic_particle h))) !! h = Some d' /\
    vequiv (p_velocity d') (vscale damping (vadd (p_velocity d) (vscale delta_time g)))) /\
  (forall h d, st_data (rigid_bodies w) !! h = Some d ->
   exists d', st_data (rigid_bodies (derive_object_velocity inverse_delta_time
      (integrate_object sqrt g delta_time damping smoothing w (Dynamic_rigid_body h))
      (Dynamic_rigid_body h))) !! h = Some d' /\
    vequiv (r_velocity d') (vscale damping (vadd (r_velocity d) (vscale delta_time g)))).
Proof.
  intros Hh. split; intros h d Hd;
    unfold derive_object_velocity, integrate_object, alter_object, storage_alter; simpl;
    rewrite lookup_alter_eq, lookup_alter_eq, Hd; simpl;
    (eexists; split; [reflexivity|]);
    unfold vequiv; simpl; repeat split;
    match goal with |- _ == ?v =>
      transitivity ((delta_time * inverse_delta_time) * v); [ring | rewrite Hh; ring] end.
Qed.

(** Extra X9: [update_neighbor_group_awake_states] reports a group awake
    exactly when one of its objects is awake with a waking motion above the
    sleep epsilon; afterwards every object of the group is asleep or awake as
    reported (or absent), and objects outside the group are untouched. *)
Theorem group_awake_iff_moving_object w objs w' awake :
  update_neighbor_group_awake_states w objs = (w', awake) ->
  (awake = true <-> exists o, o ∈ objs /\ moving w o) /\
  (forall o, o ∈ objs -> object_flag w' o awake) /\
  (forall o, o ∉ objs -> same_object w w' o).
Proof.
  unfold update_neighbor_group_awake_states. intros Hu.
  destruct (scan_neighbor_group w objs false false true) as [[ca cs] sl] eqn:Hs.
  destruct (scan_spec _ _ _ _ _ _ _ _ Hs) as [Hsl Hca].
  destruct ca; [destruct sl|].
  - injection Hu as <- <-. split; [|split; [|intros o Ho; apply fold_alter_same, Ho]].
    + split; [discriminate|]. intros Hm. assert (true = false) by (apply Hsl; right; exact Hm).
      discriminate.
    + intros o Ho. apply fold_alter_flag; [| |exact Ho].
      * intros d. unfold sleep_particle. destruct (p_awake d) eqn:E; [reflexivity|exact E].
      * intros d. unfold sleep_rigid_body. destruct (r_awake d) eqn:E; [reflexivity|exact E].
  - injection Hu as <- <-. split; [|split].
    + split; [|reflexivity]. intros _. destruct (proj1 Hsl eq_refl) as [H|H]; [discriminate|exact H].
    + intros o Ho. destruct cs.
      * exact (fold_wake_awake objs w o Ho).
      * exact (scan_no_sleeping _ _ _ _ _ _ Hs o Ho).
    + intros o Ho. destruct cs; [apply fold_alter_same, Ho|destruct o; reflexivity].
  - injection Hu as <- <-. split; [|split; [|intros o _; destruct o; reflexivity]].
    + split; [discriminate|]. intros (o & Ho & m & Hm & _).
      assert (false = true) by (apply Hca; right; exists o, m; split; assumption). discriminate.
    + intros o Ho a m Hm. destruct a; [|reflexivity].
      assert (false = true) by (apply Hca; right; exists o, m; split; assumption). discriminate.
Qed.

(** The leaf pairs [find_neighbor_pairs] skips. *)
Definition both_static (leaf_pair : Object_handle * Object_handle) : bool :=
  match leaf_pair with
  | (Static_body_handle _, Static_body_handle _) => true
  | _ => false
  end.

(** The order of the object classes within a neighbor pair. *)
Definition handle_rank (o : Object_handle) : nat :=
  match o with
  | Particle_handle _ => 0
  | Rigid_body_handle _ => 1
  | Static_body_handle _ => 2
  end.

(** Extra X10: [find_neighbor_pairs] makes one neighbor pair for each
    overlapping leaf pair that is not two static bodies, in order, holding the
    same two objects ordered particle before rigid body before static body,
    and with its color unmarked. *)
Theorem find_neighbor_pairs_orders_leaf_pairs leaf_pairs :
  Forall2 (fun '(a, b) p =>
      (pair_object_handles p = (a, b) \/ pair_object_handles p = (b, a)) /\
      (handle_rank (fst (pair_object_handles p)) <= handle_rank (snd (pair_object_handles p)))%nat /\
      color p = color_unmarked)
    (List.filter (fun lp => negb (both_static lp)) leaf_pairs) (find_neighbor_pairs leaf_pairs).
Proof.
  unfold find_neighbor_pairs. induction leaf_pairs as [|[a b] lps IH]; simpl; [constructor|].
  destruct a as [ha|ha|ha], b as [hb|hb|hb]; simpl; try exact IH;
    constructor; try exact IH; simpl; (split; [|split; [lia|reflexivity]]);
    first [left; reflexivity|right; reflexivity].
Qed.

(** The inverse mass and the linear velocity of an object, zero for a
    static body, and its linear momentum. *)
Definition object_inverse_mass (o : Object_data) : Q :=
  match o with
  | Particle_object d => p_inverse_mass d
  | Rigid_body_object d => r_inverse_mass d
  | Static_body_object _ => 0
  end.

Definition object_linear_velocity (o : Object_data) : Vec3 :=
  match o with
  | Particle_object d => p_velocity d
  | Rigid_body_object d => r_velocity d
  | Static_body_object _ => zero
  end.

Definition linear_momentum (o : Object_data) : Vec3 :=
  vscale (1 / object_inverse_mass o) (object_linear_velocity o).

Lemma apply_impulse_to_same w o I_inv r impulse d :
  object_data w o = Some d ->
  object_data (apply_impulse_to w o I_inv r impulse) o = Some (apply_impulse d I_inv r impulse).
Proof.
  destruct o as [h|h|h]; simpl; intros Hd.
  - apply fmap_Some in Hd as (d0 & Hd0 & ->). rewrite lookup_alter_eq, Hd0. reflexivity.
  - rewrite Hd. apply fmap_Some in Hd as (d0 & Hd0 & ->). reflexivity.
  - apply fmap_Some in Hd as (d0 & Hd0 & ->). rewrite lookup_alter_eq, Hd0. reflexivity.
Qed.

Lemma apply_impulse_to_other w o o' I_inv r impulse :
  o <> o' -> object_data (apply_impulse_to w o I_inv r impulse) o' = object_data w o'.
Proof.
  intros Hne. destruct o as [h|h|h], o' as [h'|h'|h']; simpl; try reflexivity;
    rewrite lookup_alter_ne by congruence; reflexivity.
Qed.

Lemma apply_impulse_momentum d I_inv r impulse :
  ~ object_inverse_mass d == 0 ->
  object_inverse_mass (apply_impulse d I_inv r impulse) = object_inverse_mass d /\
  vequiv (linear_momentum (apply_impulse d I_inv r impulse))
         (vadd (linear_momentum d) impulse).
Proof.
  destruct d as [d|d|d]; simpl; intros Hm; [| |exfalso; apply Hm; reflexivity];
    (split; [reflexivity|]);
    unfold vequiv, linear_momentum; simpl; repeat split; field; exact Hm.
Qed.

(** The inverse inertia tensor of a rigid body is positive semidefinite. *)
Definition inertia_psd (o : Object_data) : Prop :=
  match o with
  | Rigid_body_object d => forall v, 0 <= dot v (mvec (r_inverse_inertia_tensor d) v)
  | _ => True
  end.

Lemma dot_conjugated (R I : Mat3) (c : Vec3) :
  dot c (mvec (mmul (mmul R I) (transpose R)) c) ==
  dot (mvec (transpose R) c) (mvec I (mvec (transpose R) c)).
Proof.
  destruct R as [[a0 a1 a2] [a3 a4 a5] [a6 a7 a8]], I as [[b0 b1 b2] [b3 b4 b5] [b6 b7 b8]],
    c as [c0 c1 c2].
  cbv [dot mvec mmul transpose col0 col1 col2 x y z row0 row1 row2]. ring.
Qed.

Lemma generalized_inverse_mass_ge o r dir :
  inertia_psd o ->
  object_inverse_mass o <= get_generalized_inverse_mass o (get_inverse_inertia_tensor o) r dir.
Proof.
  destruct o as [d|d|d]; simpl; intros Hpsd.
  - apply Qle_refl.
  - rewrite dot_conjugated. specialize (Hpsd (mvec (transpose (Math.rotation (r_orientation d)))
                                                 (cross r dir))). lra.
  - apply Qle_refl.
Qed.

Lemma square_pos a : ~ a == 0 -> 0 < a * a.
Proof. intros H. destruct (Q_dec a 0) as [[Hl|Hl]|Hl]; [nra|nra|contradiction]. Qed.

Lemma length_pos sqrt v :
  (forall q, 0 < q -> 0 < sqrt q) -> veq v zero = false -> 0 < Math.length sqrt v.
Proof.
  intros Hs Hv. apply Hs. destruct v as [a b c]. unfold veq in Hv. simpl in Hv.
  unfold length_squared, dot. simpl.
  assert (0 <= a * a) by nra. assert (0 <= b * b) by nra. assert (0 <= c * c) by nra.
  destruct (Qeq_bool a 0) eqn:Ea; [destruct (Qeq_bool b 0) eqn:Eb; [|]|].
  - apply Qeq_bool_neq in Hv. pose proof (square_pos c Hv). lra.
  - apply Qeq_bool_neq in Eb. pose proof (square_pos b Eb). lra.
  - apply Qeq_bool_neq in Ea. pose proof (square_pos a Ea). lra.
Qed.

Lemma exact_sqrt_pos q : 0 < q -> 0 < exact_sqrt q.
Proof.
  intros Hq. unfold exact_sqrt. unfold Qlt in *. simpl in *. rewrite Z.mul_1_r in *.
  assert (1 <= Qnum q * Z.pos (Qden q))%Z by nia.
  pose proof (Z.sqrt_le_mono 1 _ H). rewrite Z.sqrt_1 in H0. lia.
Qed.

(** Extra X11: the velocity solve of one contact between two distinct
    objects with positive inverse masses, and positive semidefinite
    inverse inertia tensors for rigid bodies, keeps the sum of their
    linear momenta.  Under these conditions, and a square root that is
    positive on positive numbers, the divisors of the solve are positive:
    the sum of the generalized inverse masses, and the length of a
    non-zero vector (the tangential speed and the norm of the velocity
    change). *)
Theorem velocity_solve_conserves_momentum sqrt inverse_delta_time threshold pairs w k contact
    p o1 o2 d1 d2 :
  pairs !! k = Some p -> pair_object_handles p = (o1, o2) -> o1 <> o2 ->
  object_data w o1 = Some d1 -> object_data w o2 = Some d2 ->
  0 < object_inverse_mass d1 -> 0 < object_inverse_mass d2 ->
  inertia_psd d1 -> inertia_psd d2 -> (forall q, 0 < q -> 0 < sqrt q) ->
  (forall r1 r2 dir,
     0 < get_generalized_inverse_mass d1 (get_inverse_inertia_tensor d1) r1 dir +
         get_generalized_inverse_mass d2 (get_inverse_inertia_tensor d2) r2 dir) /\
  (forall v, veq v zero = false -> 0 < Math.length sqrt v) /\
  exists d1' d2',
    object_data (velocity_solve_entry sqrt inverse_delta_time threshold pairs w
                   (Some k, Some contact)) o1 = Some d1' /\
    object_data (velocity_solve_entry sqrt inverse_delta_time threshold pairs w
                   (Some k, Some contact)) o2 = Some d2' /\
    vequiv (vadd (linear_momentum d1') (linear_momentum d2'))
           (vadd (linear_momentum d1) (linear_momentum d2)).
Proof.
  intros Hk Hp Hne Hd1 Hd2 Hm1 Hm2 HI1 HI2 Hs.
  split.
  { intros r1 r2 dir. pose proof (generalized_inverse_mass_ge d1 r1 dir HI1).
    pose proof (generalized_inverse_mass_ge d2 r2 dir HI2). lra. }
  split; [intros v; exact (length_pos sqrt v Hs)|].
  assert (Hn1 : ~ object_inverse_mass d1 == 0) by (intros H; rewrite H in Hm1; discriminate).
  assert (Hn2 : ~ object_inverse_mass d2 == 0) by (intros H; rewrite H in Hm2; discriminate).
  assert (Hrefl : vequiv (vadd (linear_momentum d1) (linear_momentum d2))
                         (vadd (linear_momentum d1) (linear_momentum d2)))
    by (repeat split; reflexivity).
  unfold velocity_solve_entry.
  destruct (veq (normal contact) zero); [exists d1, d2; auto|].
  rewrite Hk, Hp, Hd1, Hd2.
  destruct (velocity_solve_impulse _ _ _ _ _ _) as [[[I1 I2] impulse]|]; [|exists d1, d2; auto].
  destruct (relative_positions contact) as [r1 r2].
  exists (apply_impulse d1 I1 r1 impulse), (apply_impulse d2 I2 r2 (vneg impulse)).
  split; [|split].
  - rewrite apply_impulse_to_other by congruence. apply apply_impulse_to_same, Hd1.
  - apply apply_impulse_to_same. rewrite apply_impulse_to_other by exact Hne. exact Hd2.
  - destruct (apply_impulse_momentum d1 I1 r1 impulse Hn1) as [_ (E1 & E2 & E3)].
    destruct (apply_impulse_momentum d2 I2 r2 (vneg impulse) Hn2) as [_ (F1 & F2 & F3)].
    unfold vequiv in *. simpl in *. rewrite E1, E2, E3, F1, F2, F3. repeat split; ring.
Qed.

(** A relation on objects that every step of [simulate] keeps, with
    the free lists, the static bodies and the gravity, holds between the
    worlds before and after [simulate]. *)
Section Stepwise.
Variable Rp : Particle_data -> Particle_data -> Prop.
Variable Rr : Rigid_body_data -> Rigid_body_data -> Prop.
Hypothesis Rp_refl : forall d, Rp d d.
Hypothesis Rp_trans : forall d1 d2 d3, Rp d1 d2 -> Rp d2 d3 -> Rp d1 d3.
Hypothesis Rr_refl : forall d, Rr d d.
Hypothesis Rr_trans : forall d1 d2 d3, Rr d1 d2 -> Rr d2 d3 -> Rr d1 d3.

(** Two states of an arena with the same free list and occupancy bits,
    whose slots are related by [R] one by one. *)
Definition storage_rel {T} (R : T -> T -> Prop) (s s' : storage T) : Prop :=
  st_free_indices s' = st_free_indices s /\ st_occupancy_bits s' = st_occupancy_bits s /\
  forall h, option_Forall2 R (st_data s !! h) (st_data s' !! h).

(** Two worlds whose particle and rigid-body arenas are related slot by
    slot, with the same static bodies and gravity. *)
Definition world_rel (w w' : World) : Prop :=
  storage_rel Rp (particles w) (particles w') /\ static_bodies w' = static_bodies w /\
  storage_rel Rr (rigid_bodies w) (rigid_bodies w') /\
  gravitational_acceleration w' = gravitational_acceleration w.

Lemma storage_rel_refl {T} (R : T -> T -> Prop) s : (forall d, R d d) -> storage_rel R s s.
Proof.
  intros HR. split; [reflexivity|]. split; [reflexivity|].
  intros h. destruct (st_data s !! h); constructor. apply HR.
Qed.

Lemma storage_rel_trans {T} (R : T -> T -> Prop) s1 s2 s3 :
  (forall a b c, R a b -> R b c -> R a c) ->
  storage_rel R s1 s2 -> storage_rel R s2 s3 -> storage_rel R s1 s3.
Proof.
  intros HR (F1 & B1 & D1) (F2 & B2 & D2). split; [congruence|]. split; [congruence|].
  intros h. specialize (D1 h). specialize (D2 h).
  inversion D1 as [a b Hab E1 E2|E1 E2]; rewrite <- E2 in D2; inversion D2; constructor; eauto.
Qed.

Lemma storage_alter_rel {T} (R : T -> T -> Prop) (f : T -> T) h s :
  (forall d, R d d) -> (forall d, R d (f d)) -> storage_rel R s (storage_alter f h s).
Proof.
  intros Hr Hf. split; [reflexivity|]. split; [reflexivity|]. intros h'. simpl.
  destruct (decide (h' = h)) as [->|Hne].
  - rewrite lookup_alter_eq. destruct (st_data s !! h); constructor. apply Hf.
  - rewrite lookup_alter_ne by congruence. destruct (st_data s !! h'); constructor. apply Hr.
Qed.

Lemma world_rel_refl w : world_rel w w.
Proof.
  split; [apply storage_rel_refl, Rp_refl|]. split; [reflexivity|].
  split; [apply storage_rel_refl, Rr_refl|reflexivity].
Qed.

Lemma world_rel_trans w1 w2 w3 : world_rel w1 w2 -> world_rel w2 w3 -> world_rel w1 w3.
Proof.
  intros (P1 & S1 & R1 & G1) (P2 & S2 & R2 & G2).
  split; [eapply storage_rel_trans; eauto|]. split; [congruence|].
  split; [eapply storage_rel_trans; eauto|congruence].
Qed.

Lemma alter_object_rel fp fr w o :
  (forall d, Rp d (fp d)) -> (forall d, Rr d (fr d)) -> world_rel w (alter_object fp fr w o).
Proof.
  intros Hp Hr. destruct o as [h|h]; simpl.
  - split; [apply storage_alter_rel; auto|]. split; [reflexivity|].
    split; [apply storage_rel_refl, Rr_refl|reflexivity].
  - split; [apply storage_rel_refl, Rp_refl|]. split; [reflexivity|].
    split; [apply storage_alter_rel; auto|reflexivity].
Qed.

Lemma fold_rel {A} (f : World -> A -> World) l w :
  (forall w1 a, world_rel w1 (f w1 a)) -> world_rel w (fold_left f l w).
Proof.
  intros Hf. revert w. induction l as [|a l IH]; intros w; simpl; [apply world_rel_refl|].
  eapply world_rel_trans; [apply Hf|apply IH].
Qed.

Lemma color_frame_rel w leaf_pairs w' pairs ng aw cg :
  (forall w1 objs, world_rel w1 (fst (update_neighbor_group_awake_states w1 objs))) ->
  color_frame w leaf_pairs = inr (w', pairs, ng, aw, cg) -> world_rel w w'.
Proof.
  intros Hu Hc. unfold color_frame in Hc.
  destruct (find_neighbor_groups w _ _) as [e|[pairsA ng0]]; [discriminate|].
  destruct (update_and_color_groups _ ng0 w pairsA) as [e|[[[w1 pairsB] aw1] cgB]] eqn:Hg;
    [discriminate|].
  destruct (assign_color_groups _ _ _ _); [discriminate|]. injection Hc as <- _ _ _ _.
  unfold update_and_color_groups in Hg.
  refine (fold_m_inv _ (fun st => let '(w2, _, _, _) := st in world_rel w w2) _ _ _ _ _ Hg).
  - apply world_rel_refl.
  - intros j [[[w2 p2] a2] c2] [[[w3 p3] a3] c3] _ H2 Hs. unfold update_and_color_group in Hs.
    destruct (update_neighbor_group_awake_states w2 (group_objects ng0 j)) as [w4 awake] eqn:Hup.
    assert (H4 : world_rel w w4).
    { eapply world_rel_trans; [exact H2|]. pose proof (Hu w2 (group_objects ng0 j)) as H.
      rewrite Hup in H. exact H. }
    destruct awake; [destruct (color_neighbor_group _ _ _ _ _) as [e|[p5 c5]]; [discriminate|]|];
      injection Hs as <- _ _ _; exact H4.
Qed.

Section Substep.
Variable sqrt : Q -> Q.
Variables (g1 : Vec3 -> Q -> Shape -> Mat3x4 -> Mat3x4 -> option Positionful_contact_geometry)
  (g2 : Vec3 -> Q -> Shape -> Mat3x4 -> Mat3x4 -> option Positionless_contact_geometry)
  (g3 : Shape -> Mat3x4 -> Mat3x4 -> Shape -> Mat3x4 -> Mat3x4 -> option Positionful_contact_geometry).
Variables (delta_time inverse_delta_time threshold damping smoothing : Q).
Hypothesis integrate_rel :
  forall g w o, world_rel w (integrate_object sqrt g delta_time damping smoothing w o).
Hypothesis position_update_rel : forall w u, world_rel w (apply_position_update sqrt w u).
Hypothesis derive_rel : forall w o, world_rel w (derive_object_velocity inverse_delta_time w o).
Hypothesis impulse_rel : forall w o I_inv r impulse, world_rel w (apply_impulse_to w o I_inv r impulse).

Lemma substep_rel ng aw pairs entries w :
  world_rel w (substep sqrt g1 g2 g3 delta_time inverse_delta_time threshold damping smoothing
                 ng aw pairs entries w).
Proof.
  unfold substep, for_awake_objects.
  set (w1 := fold_left _ aw w).
  assert (H1 : world_rel w w1) by (apply fold_rel; intros w2 j; apply fold_rel; apply integrate_rel).
  assert (H2 : forall es w2 cs, world_rel w1 w2 ->
            world_rel w1 (fst (fold_left (position_solve_entry sqrt g1 g2 g3 pairs) es (w2, cs)))).
  { induction es as [|e es IH]; intros w2 cs Hw2; cbn [fold_left fst]; [exact Hw2|].
    destruct (position_solve_entry sqrt g1 g2 g3 pairs (w2, cs) e) as [w3 cs3] eqn:He.
    apply IH. eapply world_rel_trans; [exact Hw2|].
    unfold position_solve_entry in He.
    destruct (e ≫= _) as [p|]; [|injection He as <- _; apply world_rel_refl].
    destruct (solve_neighbor_pair _ _ _ _ _ _) as [[c us]|];
      [|injection He as <- _; apply world_rel_refl].
    injection He as <- _. apply fold_rel. apply position_update_rel. }
  specialize (H2 entries w1 [] (world_rel_refl _)).
  destruct (fold_left (position_solve_entry sqrt g1 g2 g3 pairs) entries (w1, [])) as [w2 cs].
  simpl in H2.
  eapply world_rel_trans; [exact H1|]. eapply world_rel_trans; [exact H2|].
  set (w3 := fold_left _ aw w2).
  assert (H3 : world_rel w2 w3) by (apply fold_rel; intros w4 j; apply fold_rel; apply derive_rel).
  eapply world_rel_trans; [exact H3|].
  apply fold_rel. intros w4 [e c]. unfold velocity_solve_entry.
  destruct e as [k|]; [|apply world_rel_refl]. destruct c as [c|]; [|apply world_rel_refl].
  destruct (veq _ _); [apply world_rel_refl|]. destruct (pairs !! k) as [p|]; [|apply world_rel_refl].
  destruct (pair_object_handles p) as [o1 o2].
  destruct (object_data w4 o1), (object_data w4 o2); try apply world_rel_refl.
  destruct (velocity_solve_impulse _ _ _ _ _ _) as [[[I1 I2] impulse]|]; [|apply world_rel_refl].
  destruct (relative_positions c) as [r1 r2].
  eapply world_rel_trans; apply impulse_rel.
Qed.

End Substep.

Lemma simulate_rel sqrt pow broadphase g1 g2 g3 w delta_time substep_count w' :
  (forall w1 objs, world_rel w1 (fst (update_neighbor_group_awake_states w1 objs))) ->
  (let h := delta_time / inject_Z (Z.of_nat substep_count) in
   forall g w1 o, world_rel w1 (integrate_object sqrt g h (pow velocity_damping_factor h)
                                  (1 - pow (1 - waking_motion_smoothing_factor) h) w1 o)) ->
  (forall w1 u, world_rel w1 (apply_position_update sqrt w1 u)) ->
  (forall idt w1 o, world_rel w1 (derive_object_velocity idt w1 o)) ->
  (forall w1 o I_inv r impulse, world_rel w1 (apply_impulse_to w1 o I_inv r impulse)) ->
  simulate sqrt pow broadphase g1 g2 g3 w delta_time substep_count = inr w' ->
  world_rel w w'.
Proof.
  intros Hu Hi Hp Hd Himp Hs. unfold simulate in Hs.
  destruct (color_frame w _) as [e|[[[[w1 pairs] ng] aw] cg]] eqn:Hc; [discriminate|].
  injection Hs as <-. eapply world_rel_trans; [exact (color_frame_rel _ _ _ _ _ _ _ Hu Hc)|].
  cbv zeta in Hi |- *.
  match goal with |- world_rel _ (Nat.iter _ ?f _) =>
    assert (Hk : forall k, world_rel w1 (Nat.iter k f w1)); [|apply Hk] end.
  intros k. induction k as [|k IH]; simpl; [apply world_rel_refl|].
  eapply world_rel_trans; [exact IH|]. apply substep_rel; auto.
Qed.
End Stepwise.

(** The fields that no step of the simulation writes. *)
Definition particle_constants_kept (d d' : Particle_data) : Prop :=
  p_motion_callback d' = p_motion_callback d /\ p_radius d' = p_radius d /\
  p_inverse_mass d' = p_inverse_mass d /\ p_material d' = p_material d.

Definition rigid_body_constants_kept (d d' : Rigid_body_data) : Prop :=
  r_motion_callback d' = r_motion_callback d /\ r_shape d' = r_shape d /\
  r_inverse_mass d' = r_inverse_mass d /\
  r_inverse_inertia_tensor d' = r_inverse_inertia_tensor d /\ r_material d' = r_material d.

Ltac constants_kept :=
  intros; repeat match goal with
  | |- context [if ?b then _ else _] => destruct b
  end; unfold particle_constants_kept, rigid_body_constants_kept; simpl; repeat split.

Lemma world_rel_particles Rp Rr (Rr_refl : forall d, Rr d d) f h w :
  (forall d, Rp d d) -> (forall d, Rp d (f d)) ->
  world_rel Rp Rr w (set_particles w (storage_alter f h (particles w))).
Proof.
  intros Hr Hf. split; [apply storage_alter_rel; auto|]. split; [reflexivity|].
  split; [apply storage_rel_refl, Rr_refl|reflexivity].
Qed.

Lemma world_rel_rigid_bodies Rp Rr (Rp_refl : forall d, Rp d d) f h w :
  (forall d, Rr d d) -> (forall d, Rr d (f d)) ->
  world_rel Rp Rr w (set_rigid_bodies w (storage_alter f h (rigid_bodies w))).
Proof.
  intros Hr Hf. split; [apply storage_rel_refl, Rp_refl|]. split; [reflexivity|].
  split; [apply storage_alter_rel; auto|reflexivity].
Qed.

(** Extra X12: [simulate] creates and destroys nothing: the free lists and
    occupancy bits, the static bodies and the gravity are unchanged, every
    particle and rigid body is still there, and each keeps its motion
    callback flag, radius or shape, inverse mass, inverse inertia tensor and
    material. *)
Theorem simulate_keeps_objects_and_constants sqrt pow broadphase g1 g2 g3 w delta_time
    substep_count w' :
  simulate sqrt pow broadphase g1 g2 g3 w delta_time substep_count = inr w' ->
  world_rel particle_constants_kept rigid_body_constants_kept w w'.
Proof.
  assert (Hpr : forall d, particle_constants_kept d d) by (intros; repeat split).
  assert (Hpt : forall d1 d2 d3, particle_constants_kept d1 d2 -> particle_constants_kept d2 d3 ->
                particle_constants_kept d1 d3)
    by (unfold particle_constants_kept; intros; intuition congruence).
  assert (Hrr : forall d, rigid_body_constants_kept d d) by (intros; repeat split).
  assert (Hrt : forall d1 d2 d3, rigid_body_constants_kept d1 d2 ->
                rigid_body_constants_kept d2 d3 -> rigid_body_constants_kept d1 d3)
    by (unfold rigid_body_constants_kept; intros; intuition congruence).
  apply simulate_rel; auto.
  - intros w1 objs. unfold update_neighbor_group_awake_states.
    destruct (scan_neighbor_group _ _ _ _ _) as [[ca cs] sl].
    destruct ca; [|apply world_rel_refl; auto]. destruct sl; simpl.
    + apply fold_rel; auto. intros; apply alter_object_rel; auto;
        unfold sleep_particle, sleep_rigid_body; constants_kept.
    + destruct cs; [|apply world_rel_refl; auto].
      apply fold_rel; auto. intros; apply alter_object_rel; auto;
        unfold wake_particle, wake_rigid_body; constants_kept.
  - intros h g w1 o. apply alter_object_rel; auto; unfold integrate_particle; constants_kept.
  - intros w1 [h dp|h dp dor]; [apply world_rel_particles|apply world_rel_rigid_bodies]; auto;
      unfold update_particle_position, update_rigid_body_position; constants_kept.
  - intros idt w1 o. apply alter_object_rel; auto;
      unfold derive_particle_velocity, derive_rigid_body_velocity; constants_kept.
  - intros w1 [h|h|h] I_inv r impulse; simpl;
      [apply world_rel_particles|apply world_rel_refl; auto|apply world_rel_rigid_bodies]; auto;
      constants_kept.
Qed.









Lemma integrate_then_derive_velocity_witness :
  exists d', st_data (particles (derive_object_velocity 2
     (integrate_object exact_sqrt (vec3 0 (-10) 0) (1/2) (99/100) (1/8) lone_particle_world
        (Dynamic_particle 0)) (Dynamic_particle 0))) !! 0%N = Some d' /\
   vequiv (p_velocity d')
     (vscale (99/100) (vadd (p_velocity resting_particle_data) (vscale (1/2) (vec3 0 (-10) 0)))).
Proof.
  apply (proj1 (integrate_then_derive_velocity exact_sqrt (vec3 0 (-10) 0) (1/2) 2 (99/100) (1/8)
           lone_particle_world ltac:(vm_compute; reflexivity))).
  vm_compute. reflexivity.
Defined.

Lemma group_awake_iff_moving_object_witness :
  let '(w', awake) := update_neighbor_group_awake_states lone_particle_world [Dynamic_particle 0] in
  (awake = true <-> exists o, o ∈ [Dynamic_particle 0] /\ moving lone_particle_world o) /\
  object_flag w' (Dynamic_particle 0) awake.
Proof.
  remember (update_neighbor_group_awake_states lone_particle_world [Dynamic_particle 0]) as r eqn:E.
  destruct r as [w' awake].
  destruct (group_awake_iff_moving_object lone_particle_world [Dynamic_particle 0] w' awake
              (eq_sym E)) as (H1 & H2 & _).
  split; [exact H1|]. apply H2. apply list_elem_of_singleton. reflexivity.
Defined.

Lemma velocity_solve_conserves_momentum_witness :
  exists d1' d2',
    object_data (velocity_solve_entry exact_sqrt 1 0 [touching_pair] shared_ground_world
                   (Some 0%nat, Some head_on_contact)) (Particle_handle 0) = Some d1' /\
    object_data (velocity_solve_entry exact_sqrt 1 0 [touching_pair] shared_ground_world
                   (Some 0%nat, Some head_on_contact)) (Particle_handle 1) = Some d2' /\
    vequiv (vadd (linear_momentum d1') (linear_momentum d2'))
           (vadd (linear_momentum (Particle_object resting_particle_data))
                 (linear_momentum (Particle_object resting_particle_data))).
Proof.
  refine (proj2 (proj2 (velocity_solve_conserves_momentum exact_sqrt 1 0 [touching_pair]
           shared_ground_world 0 head_on_contact touching_pair (Particle_handle 0)
           (Particle_handle 1) (Particle_object resting_particle_data)
           (Particle_object resting_particle_data) _ _ _ _ _ _ _ I I exact_sqrt_pos))).
  - reflexivity.
  - reflexivity.
  - discriminate.
  - vm_compute. reflexivity.
  - vm_compute. reflexivity.
  - vm_compute. reflexivity.
  - vm_compute. reflexivity.
Defined.

Lemma simulate_keeps_objects_and_constants_witness :
  world_rel particle_constants_kept rigid_body_constants_kept lone_particle_world settled_world.
Proof.
  apply (simulate_keeps_objects_and_constants exact_sqrt exact_pow no_overlaps
           no_positionful_contact no_positionless_contact no_shape_shape_contact
           lone_particle_world 1 1 settled_world).
  vm_compute. reflexivity.
Defined.


End WorldExtras.
